(** * BunPGPtui: the batch folder encrypt / decrypt pipeline of [Menu]

    A shallow embedding of the helper methods at the bottom of the [Menu]
    class (path mapping, extension filters, folder walking, stream writing)
    and of the per-file loops of [encryptFolder] and [decryptFolder],
    followed by the properties the design document states about them.
    Around these: the checks on pasted text, the helpers of [uiUtils],
    the two stores ([KeyStore], [NoteStore]) and the file operations of
    [PGPOperations], with further properties of the code at the end.

    Conventions.
    - A JavaScript string is a [list ascii]: a sequence of code units, read
      in the range U+0000..U+00FF.  [str] turns a literal into such a list.
    - A thrown value is an [Error] with a message, or some other value.
    - Everything the loops obtain from the outside world (the file system,
      OpenPGP.js, Bun's file writer) is a field of the [World] record.
    - The state of a loop holds the locals of the code and the files on
      disk, and with them the paths written and the calls made so far. *)

From Stdlib Require Import Ascii String Sorted.
From stdpp Require Import gmap strings list.

Local Open Scope list_scope.

(** ** JavaScript strings *)

Abbreviation jsstring := (list ascii).

Definition str (s : string) : jsstring := list_ascii_of_string s.

Module JS.

Definition code (c : ascii) : nat := nat_of_ascii c.

(** [WhiteSpace] and [LineTerminator] code units below U+0100, the ones
    [String.prototype.trim] removes. *)
Definition isWhiteSpace (c : ascii) : bool :=
  let n := code c in
  (n =? 9) || (n =? 10) || (n =? 11) || (n =? 12) || (n =? 13)
  || (n =? 32) || (n =? 160).

Fixpoint trimStart (s : jsstring) : jsstring :=
  match s with
  | c :: s' => if isWhiteSpace c then trimStart s' else s
  | [] => []
  end.

Definition trimEnd (s : jsstring) : jsstring := rev (trimStart (rev s)).

Definition trim (s : jsstring) : jsstring := trimEnd (trimStart s).

(** Simple case mapping of one code unit below U+0100. *)
Definition lowerChar (c : ascii) : ascii :=
  let n := code c in
  if ((65 <=? n) && (n <=? 90))
     || ((192 <=? n) && (n <=? 214))
     || ((216 <=? n) && (n <=? 222))
  then ascii_of_nat (n + 32) else c.

Definition toLowerCase (s : jsstring) : jsstring := map lowerChar s.

(** [s.startsWith(p)] *)
Fixpoint startsWith (p s : jsstring) : bool :=
  match p, s with
  | [], _ => true
  | _ :: _, [] => false
  | a :: p', b :: s' => bool_decide (a = b) && startsWith p' s'
  end.

(** [s.split(sep)] for a one-character separator: never empty. *)
Fixpoint split (sep : ascii) (s : jsstring) : list jsstring :=
  match s with
  | [] => [[]]
  | c :: s' =>
      if bool_decide (c = sep) then [] :: split sep s'
      else match split sep s' with
           | h :: t => (c :: h) :: t
           | [] => [[c]]
           end
  end.

(** [Boolean(s)] for a string: only the empty string is falsy. *)
Definition truthy (s : jsstring) : bool :=
  match s with [] => false | _ :: _ => true end.

(** [xs.includes(x)] *)
Definition includes (xs : list jsstring) (x : jsstring) : bool :=
  bool_decide (x ∈ xs).

(** Case folding of the regular-expression flag [i] without flag [u]:
    an ASCII letter of the pattern matches its two cases only, since a
    code unit at or above U+0080 never folds onto one below. *)
Definition sameLetter (pat c : ascii) : bool :=
  bool_decide (c = pat) || bool_decide (lowerChar c = pat) && (code c <? 128).

End JS.

(** ** OutputPathMapper: [suggestDecryptedOutputPath], [stripEncryptedExtension] *)

(** The alternation [(pgp|gpg|asc)] under flag [i]. *)
Definition altExt (a b c : ascii) : bool :=
  (JS.sameLetter "p" a && JS.sameLetter "g" b && JS.sameLetter "p" c)
  || (JS.sameLetter "g" a && JS.sameLetter "p" b && JS.sameLetter "g" c)
  || (JS.sameLetter "a" a && JS.sameLetter "s" b && JS.sameLetter "c" c).

(** Does [/\.(pgp|gpg|asc)$/i] match with the match starting at the head
    of [s]?  [$] (no flag [m]) demands the end of the input. *)
Definition matchExtHere (s : jsstring) : bool :=
  match s with
  | [d; a; b; c] => bool_decide (d = "."%char) && altExt a b c
  | _ => false
  end.

(** [s.replace(/\.(pgp|gpg|asc)$/i, '')]: the leftmost match is found by
    trying each start position in turn, and is replaced by nothing. *)
Fixpoint replaceExt (s : jsstring) : jsstring :=
  if matchExtHere s then []
  else match s with
       | [] => []
       | c :: s' => c :: replaceExt s'
       end.

Definition suggestDecryptedOutputPath (inputPath : jsstring) : jsstring :=
  let stripped := replaceExt inputPath in
  if bool_decide (stripped ≠ inputPath) then stripped
  else inputPath ++ str ".decrypted".

Definition stripEncryptedExtension (pathValue : jsstring) : jsstring :=
  let stripped := replaceExt pathValue in
  if bool_decide (stripped ≠ pathValue) then stripped
  else pathValue ++ str ".decrypted".

Inductive PgpOutputFormat := armored | binary.

(** [outputFormat === 'armored' ? '.asc' : '.pgp'] *)
Definition outputExtension (outputFormat : PgpOutputFormat) : jsstring :=
  match outputFormat with armored => str ".asc" | binary => str ".pgp" end.

(** The relative output name of [encryptFolder]: [`${relPath}${outputExtension}`]. *)
Definition encryptRelPath (outputFormat : PgpOutputFormat) (relPath : jsstring)
  : jsstring :=
  relPath ++ outputExtension outputFormat.

(** ** FormatPolicy: [parseExtensionFilter], [resolveInputFormat] *)

Definition parseExtensionFilter (input : jsstring) (defaults : list jsstring)
  : list jsstring :=
  let raw := List.filter JS.truthy (map JS.trim (JS.split "," input)) in
  if (length raw =? 0)%nat then defaults
  else map (fun value =>
              if JS.startsWith (str ".") value then JS.toLowerCase value
              else str "." ++ JS.toLowerCase value) raw.

(** [resolveInputFormat] takes the extension from the path module, so it is
    defined with the walker and the batch loops below. *)
Inductive FormatHandling := auto | forceArmored | forceBinary.

(** ** The [path] module *)

(** The functions of the runtime's [path] module that [Menu] calls.
    [resolve] is the one-argument call, made against the working
    directory. *)
Class PathModule := {
  sep : jsstring;
  join : jsstring → jsstring → jsstring;
  resolve : jsstring → jsstring;
  relative : jsstring → jsstring → jsstring;
  dirname : jsstring → jsstring;
  extname : jsstring → jsstring;
}.

(** The POSIX flavour of the module, over a working directory [cwd]. *)
Module Posix.

Definition slash : ascii := "/"%char.
Definition dot : ascii := "."%char.

Definition isAbsolute (p : jsstring) : bool :=
  match p with c :: _ => bool_decide (c = slash) | [] => false end.

Definition endsWithSlash (p : jsstring) : bool :=
  match rev p with c :: _ => bool_decide (c = slash) | [] => false end.

(** [segs.join('/')] *)
Fixpoint joinSegs (segs : list jsstring) : jsstring :=
  match segs with
  | [] => []
  | [s] => s
  | s :: rest => s ++ slash :: joinSegs rest
  end.

(** [normalizeString]: [acc] is the stack of segments kept so far, the
    last one first. *)
Fixpoint normSegs (allowAboveRoot : bool) (acc segs : list jsstring)
  : list jsstring :=
  match segs with
  | [] => rev acc
  | s :: rest =>
      if bool_decide (s = []) || bool_decide (s = [dot]) then
        normSegs allowAboveRoot acc rest
      else if bool_decide (s = [dot; dot]) then
        match acc with
        | top :: acc' =>
            if bool_decide (top = [dot; dot]) then
              normSegs allowAboveRoot
                       (if allowAboveRoot then s :: acc else acc) rest
            else normSegs allowAboveRoot acc' rest
        | [] =>
            normSegs allowAboveRoot (if allowAboveRoot then [s] else []) rest
        end
      else normSegs allowAboveRoot (s :: acc) rest
  end.

Definition normalizeString (p : jsstring) (allowAboveRoot : bool) : jsstring :=
  joinSegs (normSegs allowAboveRoot [] (JS.split slash p)).

Definition normalize (p : jsstring) : jsstring :=
  match p with
  | [] => [dot]
  | _ :: _ =>
      let n := normalizeString p (negb (isAbsolute p)) in
      match n with
      | [] => if isAbsolute p then [slash]
              else if endsWithSlash p then [dot; slash] else [dot]
      | _ :: _ =>
          let n' := if endsWithSlash p then n ++ [slash] else n in
          if isAbsolute p then slash :: n' else n'
      end
  end.

(** [join(a, b)] *)
Definition join2 (a b : jsstring) : jsstring :=
  match List.filter JS.truthy [a; b] with
  | [] => [dot]
  | parts => normalize (joinSegs parts)
  end.

(** The right-to-left loop of [resolve]: [args] is given last argument
    first; once they are used up the working directory is taken. *)
Fixpoint resolveLoop (cwd : jsstring) (args : list jsstring)
         (resolvedPath : jsstring) : jsstring * bool :=
  match args with
  | [] =>
      match cwd with
      | [] => (resolvedPath, false)
      | _ :: _ => (cwd ++ slash :: resolvedPath, isAbsolute cwd)
      end
  | p :: rest =>
      match p with
      | [] => resolveLoop cwd rest resolvedPath
      | _ :: _ =>
          if isAbsolute p then (p ++ slash :: resolvedPath, true)
          else resolveLoop cwd rest (p ++ slash :: resolvedPath)
      end
  end.

Definition resolveAll (cwd : jsstring) (args : list jsstring) : jsstring :=
  let '(resolvedPath, resolvedAbsolute) := resolveLoop cwd (rev args) [] in
  let n := normalizeString resolvedPath (negb resolvedAbsolute) in
  if resolvedAbsolute then slash :: n
  else match n with [] => [dot] | _ :: _ => n end.

Definition resolve1 (cwd p : jsstring) : jsstring := resolveAll cwd [p].

(** Segments of a resolved path. *)
Definition segments (p : jsstring) : list jsstring :=
  List.filter JS.truthy (JS.split slash p).

Fixpoint dropCommon (xs ys : list jsstring) : list jsstring * list jsstring :=
  match xs, ys with
  | x :: xs', y :: ys' =>
      if bool_decide (x = y) then dropCommon xs' ys' else (xs, ys)
  | _, _ => (xs, ys)
  end.

(** [relative(from, to)]: one [..] for each segment of [from] below the
    common ancestor, then what is left of [to]. *)
Definition relative2 (cwd from to : jsstring) : jsstring :=
  if bool_decide (from = to) then []
  else
    let from' := resolve1 cwd from in
    let to' := resolve1 cwd to in
    if bool_decide (from' = to') then []
    else
      let '(up, down) := dropCommon (segments from') (segments to') in
      joinSegs (map (fun _ => [dot; dot]) up ++ down).

Fixpoint dropWhile (f : ascii → bool) (s : jsstring) : jsstring :=
  match s with
  | c :: s' => if f c then dropWhile f s' else s
  | [] => []
  end.

Fixpoint takeWhile (f : ascii → bool) (s : jsstring) : jsstring :=
  match s with
  | c :: s' => if f c then c :: takeWhile f s' else []
  | [] => []
  end.

Definition isSlash (c : ascii) : bool := bool_decide (c = slash).
Definition notSlash (c : ascii) : bool := negb (isSlash c).
Definition notDot (c : ascii) : bool := negb (bool_decide (c = dot)).

(** [dirname(p)]: the scan runs from the end down to index 1. *)
Definition dirname1 (p : jsstring) : jsstring :=
  match p with
  | [] => [dot]
  | c0 :: tail =>
      let hasRoot := bool_decide (c0 = slash) in
      match dropWhile notSlash (dropWhile isSlash (rev tail)) with
      | [] => if hasRoot then [slash] else [dot]
      | _ :: before =>
          match before with
          | [] => if hasRoot then [slash; slash] else [c0]
          | _ :: _ => c0 :: rev before
          end
      end
  end.

(** [extname(p)]: the extension of the last segment, trailing
    separators ignored. *)
Definition extname1 (p : jsstring) : jsstring :=
  let base := takeWhile notSlash (dropWhile isSlash (rev p)) in
  let post := takeWhile notDot base in
  match dropWhile notDot base with
  | [] => []
  | _ :: pre =>
      match pre, post with
      | [], _ => []
      | [d], [] => if bool_decide (d = dot) then [] else [dot]
      | _, _ => dot :: rev post
      end
  end.

Definition module (cwd : jsstring) : PathModule := {|
  sep := [slash];
  join := join2;
  resolve := resolve1 cwd;
  relative := relative2 cwd;
  dirname := dirname1;
  extname := extname1;
|}.

End Posix.

(** ** DirectoryWalker: [listFilesRecursive] *)

(** What [readdir(dir, { withFileTypes: true })] returns for a directory:
    its entries, each a plain file, a directory (with its own entries) or
    something else (symbolic link, socket, device). *)
#[local] Unset Elimination Schemes.
Inductive Dirent :=
| RegularFile (name : jsstring)
| Directory (name : jsstring) (entries : list Dirent)
| OtherEntry (name : jsstring).
#[local] Set Elimination Schemes.

Definition entryName (e : Dirent) : jsstring :=
  match e with
  | RegularFile n | Directory n _ | OtherEntry n => n
  end.

Section Walker.
Context `{PathModule}.

(** [excludeDir ? resolve(excludeDir) : null] *)
Definition normalizeExclude (excludeDir : option jsstring) : option jsstring :=
  match excludeDir with
  | Some e => if JS.truthy e then Some (resolve e) else None
  | None => None
  end.

(** The test guarding [continue] in the loop over the entries. *)
Definition isExcluded (normalizedExclude : option jsstring)
           (resolvedEntry : jsstring) : bool :=
  match normalizedExclude with
  | Some ne =>
      JS.truthy ne
      && (bool_decide (resolvedEntry = ne)
          || JS.startsWith (ne ++ sep) resolvedEntry)
  | None => false
  end.

(** The loop [for (const entry of entries)]: what each entry contributes
    is appended in order.  A result pairs the files pushed with the
    directories the recursion descended into (the arguments of the
    recursive calls), which the source does not return but the exclusion
    property speaks about. *)
Definition forEntries (body : Dirent → list jsstring * list jsstring)
  : list Dirent → list jsstring * list jsstring :=
  fix go (entries : list Dirent) :=
    match entries with
    | [] => ([], [])
    | entry :: rest =>
        let here := body entry in
        let there := go rest in
        (here.1 ++ there.1, here.2 ++ there.2)
    end.

(** The body of that loop for one entry of [rootDir]. *)
Fixpoint visitEntry (rootDir : jsstring) (excludeDir : option jsstring)
         (entry : Dirent) {struct entry} : list jsstring * list jsstring :=
  let normalizedExclude := normalizeExclude excludeDir in
  let entryPath := join rootDir (entryName entry) in
  let resolvedEntry := resolve entryPath in
  if isExcluded normalizedExclude resolvedEntry then ([], [])
  else match entry with
       | Directory _ sub =>
           let r := forEntries (visitEntry entryPath normalizedExclude) sub in
           (r.1, entryPath :: r.2)
       | RegularFile _ => ([entryPath], [])
       | OtherEntry _ => ([], [])
       end.

Definition walk (rootDir : jsstring) (excludeDir : option jsstring)
           (entries : list Dirent) : list jsstring * list jsstring :=
  forEntries (visitEntry rootDir excludeDir) entries.

Definition listFilesRecursive (rootDir : jsstring)
           (excludeDir : option jsstring) (entries : list Dirent)
  : list jsstring :=
  (walk rootDir excludeDir entries).1.

Definition directoriesEntered (rootDir : jsstring)
           (excludeDir : option jsstring) (entries : list Dirent)
  : list jsstring :=
  (walk rootDir excludeDir entries).2.

(** [resolveInputFormat] *)
Definition resolveInputFormat (filePath : jsstring) (mode : FormatHandling)
  : PgpOutputFormat :=
  match mode with
  | forceArmored => armored
  | forceBinary => binary
  | auto =>
      let extension := JS.toLowerCase (extname filePath) in
      if bool_decide (extension = str ".asc") then armored
      else if bool_decide (extension = str ".pgp")
              || bool_decide (extension = str ".gpg") then binary
      else binary
  end.

End Walker.

(** ** Control flow: exceptions, [continue], mutable locals *)

(** A thrown value: an [Error] carrying a message, or anything else. *)
Inductive Thrown := ErrorValue (message : jsstring) | OtherValue.

(** [error instanceof Error ? error.message : 'Unknown error'] *)
Definition errorMessage (error : Thrown) : jsstring :=
  match error with
  | ErrorValue m => m
  | OtherValue => str "Unknown error"
  end.

(** How a statement completes. *)
Inductive Completion (A : Type) :=
| Normal (a : A)
| Continue
| Throw (e : Thrown).
Arguments Normal {A} a.
Arguments Continue {A}.
Arguments Throw {A} e.

(** A computation over the mutable state [S]. *)
Definition M (S A : Type) : Type := S → Completion A * S.

Definition ret {S A} (a : A) : M S A := fun s => (Normal a, s).

Definition bind {S A B} (m : M S A) (k : A → M S B) : M S B :=
  fun s =>
    match m s with
    | (Normal a, s') => k a s'
    | (Continue, s') => (Continue, s')
    | (Throw e, s') => (Throw e, s')
    end.

Definition throw {S A} (e : Thrown) : M S A := fun s => (Throw e, s).
Definition continue {S A} : M S A := fun s => (Continue, s).
Definition gets {S A} (f : S → A) : M S A := fun s => (Normal (f s), s).
Definition modify {S} (f : S → S) : M S unit := fun s => (Normal (), f s).

(** [await p] for a promise that resolves ([None]) or rejects. *)
Definition await {S} (p : option Thrown) : M S unit :=
  match p with None => ret () | Some e => throw e end.

(** [try { body } catch (error) { handler }] *)
Definition tryCatch {S A} (body : M S A) (handler : Thrown → M S A) : M S A :=
  fun s =>
    match body s with
    | (Throw e, s') => handler e s'
    | r => r
    end.

(** [for (const x of xs) { body }]: [continue] and normal completion of the
    body both lead to the next element; a throw leaves the loop. *)
Fixpoint forOf {S A} (body : A → M S unit) (xs : list A) : M S unit :=
  match xs with
  | [] => ret ()
  | x :: rest =>
      fun s =>
        match body x s with
        | (Throw e, s') => (Throw e, s')
        | (_, s') => forOf body rest s'
        end
  end.

#[global] Instance M_ret {S} : MRet (M S) := λ A, ret.
#[global] Instance M_bind {S} : MBind (M S) := λ A B k m, bind m k.

(** ** StreamSink: [writeOutputToFile] *)

Abbreviation bytes := (list Byte.byte).

(** What [byteStream] does.  [getReader] is the outcome of obtaining its
    reader: [None] when [byteStream.getReader()] hands one back, [Some e]
    when that call, or [pipeThrough] before it, throws (on a stream that is
    locked, say).  The reads deliver the values of the reads with [done]
    false ([None] for a falsy value), then either [done] ([ending] is
    [None]) or a rejected read. *)
Record Source := {
  getReader : option Thrown;
  chunks : list (option bytes);
  ending : option Thrown;
  hasReleaseLock : bool;
}.

(** What [openpgp] hands back ([FileEncryptResult]); [DataOther] is a value
    that is neither a string, a [Uint8Array] nor has [getReader].  A stream
    is given by the reads of [byteStream] under each format: of the stream
    itself for [binary], of its text-encoded view for [armored]. *)
Inductive Data :=
| DataString (text : jsstring)
| DataBytes (content : bytes)
| DataStream (reads : PgpOutputFormat → Source)
| DataOther.

(** What a call on Bun's file writer does: return a number, return a
    promise (which resolves or rejects), or throw. *)
Inductive SinkResult :=
| SinkNumber
| SinkPromise (settles : option Thrown)
| SinkThrows (e : Thrown).

Record Writer := {
  onWrite : nat → SinkResult;
  onEnd : SinkResult;
}.

(** What [Bun.file(outputPath).writer()] does: hand back a writer, or
    throw (the path names a directory, say). *)
Inductive Opened :=
| Opens (writer : Writer)
| OpenThrows (e : Thrown).

(** The operations on the reader and on the writer.  [EvGetReader]: the
    reader has been obtained, and holds the lock of the stream;
    [EvWriter]: the writer has been opened. *)
Inductive Event :=
| EvGetReader
| EvWriter
| EvRead
| EvWrite (chunk : bytes) (pending : bool)
| EvAwaitWrite
| EvReleaseLock
| EvEnd (pending : bool)
| EvAwaitEnd.

(** The body of [try]: [while (true)] over the reads, the [n]-th call of
    [writer.write] next.  Returns the operations performed and how the
    loop was left: [None] by [break], [Some e] by a throw. *)
Fixpoint pump (w : Writer) (n : nat) (values : list (option bytes))
         (ending : option Thrown) : list Event * option Thrown :=
  match values with
  | [] => ([EvRead], ending)
  | None :: rest =>
      let r := pump w n rest ending in (EvRead :: r.1, r.2)
  | Some value :: rest =>
      match onWrite w n with
      | SinkNumber =>
          let r := pump w (S n) rest ending in
          (EvRead :: EvWrite value false :: r.1, r.2)
      | SinkPromise None =>
          let r := pump w (S n) rest ending in
          (EvRead :: EvWrite value true :: EvAwaitWrite :: r.1, r.2)
      | SinkPromise (Some e) =>
          ([EvRead; EvWrite value true; EvAwaitWrite], Some e)
      | SinkThrows e => ([EvRead; EvWrite value false], Some e)
      end
  end.

(** The [finally] block. *)
Definition release (w : Writer) (src : Source) : list Event * option Thrown :=
  let unlock := if hasReleaseLock src then [EvReleaseLock] else [] in
  match onEnd w with
  | SinkNumber => (unlock ++ [EvEnd false], None)
  | SinkPromise settles => (unlock ++ [EvEnd true; EvAwaitEnd], settles)
  | SinkThrows e => (unlock ++ [EvEnd false], Some e)
  end.

(** The streaming path from [byteStream.getReader()] on.  The reader is
    obtained and the writer opened before the [try] statement is entered,
    so a throw of either call leaves at once, past the [finally] block.
    In [try { ... } finally { ... }] a throw of the [finally] block
    replaces the completion of the [try] block. *)
Definition streamToFile (opened : Opened) (src : Source)
  : list Event * option Thrown :=
  match getReader src with
  | Some e => ([], Some e)
  | None =>
      match opened with
      | OpenThrows e => ([EvGetReader], Some e)
      | Opens writer =>
          let loop := pump writer 0 (chunks src) (ending src) in
          let fin := release writer src in
          (EvGetReader :: EvWriter :: loop.1 ++ fin.1,
           match fin.2 with Some e => Some e | None => loop.2 end)
      end
  end.

(** A promise that resolves with a value or rejects. *)
Inductive Outcome (A : Type) := Resolves (a : A) | Rejects (e : Thrown).
Arguments Resolves {A} a.
Arguments Rejects {A} e.

(** [FileDecryptResult]; [verified] is [undefined], [true] or [false]. *)
Record FileDecryptResult := {
  data : Data;
  verified : option bool;
}.

(** The set of paths at which a file exists. *)
Abbreviation Disk := (gset jsstring).

(** The outside world of one batch run: what each call out of the loop
    answers, given the files that exist when it is made. *)
Record World := {
  (** [mkdir(dir, { recursive: true })] *)
  mkdir : Disk → jsstring → option Thrown;
  (** [writeFile(path, data)] *)
  writeFile : Disk → jsstring → option Thrown;
  (** what [Bun.file(path).writer()] does, and the behaviour of the writer
      it hands back *)
  fileWriter : Disk → jsstring → Opened;
  (** whether a write to the path that failed leaves a file there *)
  leavesFile : Disk → jsstring → bool;
  (** loading the recipients' public keys from the key store *)
  loadPublicKeys : option Thrown;
  (** [pgp.encryptFile] on the stream of the file at the path *)
  encryptFile : Disk → jsstring → Outcome Data;
  (** [pgp.decryptFile] on the file at the path, read in the given format,
      with or without signature verification *)
  decryptFile :
    Disk → jsstring → PgpOutputFormat → bool → Outcome FileDecryptResult;
}.

(** [await p] for a promise with a value. *)
Definition awaitValue {S A} (p : Outcome A) : M S A :=
  match p with Resolves a => ret a | Rejects e => throw e end.

(** A state that holds the files on disk; [wrote path s] is the state
    [s] once a file has been written at [path]. *)
Class HasDisk (S : Type) := {
  disk : S → Disk;
  wrote : jsstring → S → S;
}.

Section StreamSink.
Context `{PathModule} (W : World) {S : Type} `{HasDisk S}.

(** [await p] where the promise [p] comes from a call out to the world. *)
Definition awaitOn (p : Disk → option Thrown) : M S unit :=
  fun s => await (p (disk s)) s.

Definition awaitValueOn {A} (p : Disk → Outcome A) : M S A :=
  fun s => awaitValue (p (disk s)) s.

(** [await Bun.file(path).exists()] *)
Definition fileExists (path : jsstring) : M S bool :=
  gets (fun s => bool_decide (path ∈ disk s)).

Definition created (path : jsstring) : M S unit :=
  modify (wrote path).

(** The outcome of a write on the disk, then on the control flow. *)
Definition settleWrite (path : jsstring) (outcome : Disk → option Thrown)
  : M S unit :=
  fun s =>
    match outcome (disk s) with
    | None => created path s
    | Some e =>
        ((if leavesFile W (disk s) path then created path else ret ());;
         throw e) s
    end.

Definition writeOutputToFile (data : Data) (outputPath : jsstring)
           (format : PgpOutputFormat) : M S unit :=
  match data with
  | DataString _ | DataBytes _ =>
      awaitOn (fun d => mkdir W d (dirname outputPath));;
      settleWrite outputPath (fun d => writeFile W d outputPath)
  | DataOther =>
      throw (ErrorValue (str "Unsupported stream type for file output."))
  | DataStream reads =>
      settleWrite outputPath
        (fun d => (streamToFile (fileWriter W d outputPath) (reads format)).2)
  end.

End StreamSink.

(** ** BatchCoordinator: the loops of [encryptFolder] and [decryptFolder] *)

Inductive OutputPolicy := overwrite | skip | abort.

(** An element of [failures]. *)
Record Failure := {
  file : jsstring;
  error : jsstring;
}.

(** How the run reports: the spinner stops on completion and the summary
    follows, or the outer [catch] reports an error and returns, or no file
    matched the filter and nothing was started. *)
Inductive Report := Complete | Failed (message : jsstring) | NoFilesMatched.

(** A call the body of a loop makes: [mkdir], [outputFile.exists],
    [this.pgp.encryptFile], [this.pgp.decryptFile] and
    [this.writeOutputToFile], with the path each is about.  The body
    has no other way to transform a file or to write one. *)
Inductive Call :=
| CallMkdir (dir : jsstring)
| CallExists (path : jsstring)
| CallEncryptFile (filePath : jsstring)
| CallDecryptFile (filePath : jsstring) (format : PgpOutputFormat)
                  (verifySignature : bool)
| CallWriteOutputToFile (outputPath : jsstring) (format : PgpOutputFormat).

(** The mutable locals of [encryptFolder], with the files on disk.
    [written] and [calls] are no variables of the code; they are kept so
    that what a run does not do can be stated.  [written] lists the
    paths at which a file has been written so far, one entry for each
    write, so that a file written over shows; [calls] lists the calls
    made so far, each noted when it is made. *)
Module Enc.
Record Run := {
  encryptedCount : nat;
  skippedCount : nat;
  failures : list Failure;
  onDisk : gset jsstring;
  written : list jsstring;
  calls : list Call;
}.

Definition start (onDisk : gset jsstring) : Run :=
  {| encryptedCount := 0; skippedCount := 0; failures := []; onDisk := onDisk;
     written := []; calls := [] |}.

#[global] Instance hasDisk : HasDisk Run := {|
  disk := onDisk;
  wrote path r := {| encryptedCount := encryptedCount r;
                     skippedCount := skippedCount r;
                     failures := failures r;
                     onDisk := {[path]} ∪ onDisk r;
                     written := written r ++ [path];
                     calls := calls r |};
|}.

Definition countEncrypted (r : Run) : Run :=
  {| encryptedCount := encryptedCount r + 1; skippedCount := skippedCount r;
     failures := failures r; onDisk := onDisk r; written := written r;
     calls := calls r |}.

Definition countSkipped (r : Run) : Run :=
  {| encryptedCount := encryptedCount r; skippedCount := skippedCount r + 1;
     failures := failures r; onDisk := onDisk r; written := written r;
     calls := calls r |}.

Definition pushFailure (f : Failure) (r : Run) : Run :=
  {| encryptedCount := encryptedCount r; skippedCount := skippedCount r;
     failures := failures r ++ [f]; onDisk := onDisk r;
     written := written r; calls := calls r |}.

Definition called (c : Call) (r : Run) : Run :=
  {| encryptedCount := encryptedCount r; skippedCount := skippedCount r;
     failures := failures r; onDisk := onDisk r; written := written r;
     calls := calls r ++ [c] |}.

(** The call [c], which the computation [m] carries out. *)
Definition calling {A} (c : Call) (m : M Run A) : M Run A :=
  modify (called c);; m.
End Enc.

Section EncryptFolder.
Context `{PathModule} (W : World).
Variables (inputDir outputDir : jsstring).
Variables (outputFormat : PgpOutputFormat) (outputPolicy : OutputPolicy).

(** [join(outputDir, `${relPath}${outputExtension}`)] *)
Definition encryptOutputPath (filePath : jsstring) : jsstring :=
  let relPath := relative inputDir filePath in
  join outputDir (encryptRelPath outputFormat relPath).

(** The body of [for (const filePath of filteredFiles)]. *)
Definition encryptOne (filePath : jsstring) : M Enc.Run unit :=
  let outputPath := encryptOutputPath filePath in
  tryCatch
    (Enc.calling (CallMkdir (dirname outputPath))
       (awaitOn (λ d, mkdir W d (dirname outputPath)));;
     outputExists ← Enc.calling (CallExists outputPath)
                      (fileExists outputPath);
     (if outputExists : bool then
        match outputPolicy with
        | skip => modify Enc.countSkipped;; continue
        | abort =>
            throw (ErrorValue (str "Output file exists; aborting batch."))
        | overwrite => ret ()
        end
      else ret ());;
     encrypted ← Enc.calling (CallEncryptFile filePath)
                   (awaitValueOn (λ d, encryptFile W d filePath));
     Enc.calling (CallWriteOutputToFile outputPath outputFormat)
       (writeOutputToFile W encrypted outputPath outputFormat);;
     modify Enc.countEncrypted)
    (λ error,
      modify (Enc.pushFailure
                {| file := filePath; error := errorMessage error |})).

(** The outer [try] / [catch] around the loading of the keys and the loop. *)
Definition encryptBatch (filteredFiles : list jsstring) : M Enc.Run Report :=
  tryCatch
    (await (loadPublicKeys W);;
     forOf encryptOne filteredFiles;;
     ret Complete)
    (λ error, ret (Failed (errorMessage error))).

(** [encryptFolder] from the walk on: [tree] holds the entries under
    [inputDir], [onDisk] the paths at which a file exists. *)
Definition encryptFolder (extensionInput : jsstring) (tree : list Dirent)
           (onDisk : gset jsstring) : Report * Enc.Run :=
  let extensionFilter := parseExtensionFilter extensionInput [] in
  let walked := listFilesRecursive inputDir (Some outputDir) tree in
  let filteredFiles :=
    if (length extensionFilter =? 0)%nat then walked
    else List.filter
           (λ filePath,
             JS.includes extensionFilter (JS.toLowerCase (extname filePath)))
           walked in
  if (length filteredFiles =? 0)%nat then (NoFilesMatched, Enc.start onDisk)
  else
    match encryptBatch filteredFiles (Enc.start onDisk) with
    | (Normal report, r) => (report, r)
    | (_, r) => (Complete, r)
    end.

End EncryptFolder.

(** The mutable locals of [decryptFolder], with the files on disk and,
    as for [encryptFolder], the files written and the calls made so
    far. *)
Module Dec.
Record Run := {
  decryptedCount : nat;
  skippedCount : nat;
  failures : list Failure;
  signatureFailures : list jsstring;
  onDisk : gset jsstring;
  written : list jsstring;
  calls : list Call;
}.

Definition start (onDisk : gset jsstring) : Run :=
  {| decryptedCount := 0; skippedCount := 0; failures := [];
     signatureFailures := []; onDisk := onDisk; written := []; calls := [] |}.

#[global] Instance hasDisk : HasDisk Run := {|
  disk := onDisk;
  wrote path r := {| decryptedCount := decryptedCount r;
                     skippedCount := skippedCount r;
                     failures := failures r;
                     signatureFailures := signatureFailures r;
                     onDisk := {[path]} ∪ onDisk r;
                     written := written r ++ [path];
                     calls := calls r |};
|}.

Definition countDecrypted (r : Run) : Run :=
  {| decryptedCount := decryptedCount r + 1; skippedCount := skippedCount r;
     failures := failures r; signatureFailures := signatureFailures r;
     onDisk := onDisk r; written := written r; calls := calls r |}.

Definition countSkipped (r : Run) : Run :=
  {| decryptedCount := decryptedCount r; skippedCount := skippedCount r + 1;
     failures := failures r; signatureFailures := signatureFailures r;
     onDisk := onDisk r; written := written r; calls := calls r |}.

Definition pushFailure (f : Failure) (r : Run) : Run :=
  {| decryptedCount := decryptedCount r; skippedCount := skippedCount r;
     failures := failures r ++ [f];
     signatureFailures := signatureFailures r; onDisk := onDisk r;
     written := written r; calls := calls r |}.

Definition pushSignatureFailure (filePath : jsstring) (r : Run) : Run :=
  {| decryptedCount := decryptedCount r; skippedCount := skippedCount r;
     failures := failures r;
     signatureFailures := signatureFailures r ++ [filePath];
     onDisk := onDisk r; written := written r; calls := calls r |}.

Definition called (c : Call) (r : Run) : Run :=
  {| decryptedCount := decryptedCount r; skippedCount := skippedCount r;
     failures := failures r; signatureFailures := signatureFailures r;
     onDisk := onDisk r; written := written r; calls := calls r ++ [c] |}.

(** The call [c], which the computation [m] carries out. *)
Definition calling {A} (c : Call) (m : M Run A) : M Run A :=
  modify (called c);; m.
End Dec.

Section DecryptFolder.
Context `{PathModule} (W : World).
Variables (inputDir outputDir : jsstring).
Variables (formatHandling : FormatHandling) (outputPolicy : OutputPolicy).
Variable (verifySignatures : bool).

(** [join(outputDir, this.stripEncryptedExtension(relPath))] *)
Definition decryptOutputPath (filePath : jsstring) : jsstring :=
  let relPath := relative inputDir filePath in
  let outputRelPath := stripEncryptedExtension relPath in
  join outputDir outputRelPath.

(** The body of [for (const filePath of filteredFiles)]. *)
Definition decryptOne (filePath : jsstring) : M Dec.Run unit :=
  let outputPath := decryptOutputPath filePath in
  tryCatch
    (Dec.calling (CallMkdir (dirname outputPath))
       (awaitOn (λ d, mkdir W d (dirname outputPath)));;
     outputExists ← Dec.calling (CallExists outputPath)
                      (fileExists outputPath);
     (if outputExists : bool then
        match outputPolicy with
        | skip => modify Dec.countSkipped;; continue
        | abort =>
            throw (ErrorValue (str "Output file exists; aborting batch."))
        | overwrite => ret ()
        end
      else ret ());;
     let format := resolveInputFormat filePath formatHandling in
     result ← Dec.calling (CallDecryptFile filePath format verifySignatures)
                (awaitValueOn
                   (λ d, decryptFile W d filePath format verifySignatures));
     Dec.calling (CallWriteOutputToFile outputPath binary)
       (writeOutputToFile W (data result) outputPath binary);;
     modify Dec.countDecrypted;;
     if verifySignatures && bool_decide (verified result = Some false)
     then modify (Dec.pushSignatureFailure filePath)
     else ret ())
    (λ error,
      modify (Dec.pushFailure
                {| file := filePath; error := errorMessage error |})).

(** The outer [try] / [catch] around the loop. *)
Definition decryptBatch (filteredFiles : list jsstring) : M Dec.Run Report :=
  tryCatch
    (forOf decryptOne filteredFiles;;
     ret Complete)
    (λ error, ret (Failed (errorMessage error))).

(** The default filter for each choice of format handling. *)
Definition defaultFilter : list jsstring :=
  match formatHandling with
  | forceArmored => [str ".asc"]
  | forceBinary => [str ".pgp"; str ".gpg"]
  | auto => [str ".pgp"; str ".gpg"; str ".asc"]
  end.

(** [decryptFolder] from the walk on. *)
Definition decryptFolder (extensionInput : jsstring) (tree : list Dirent)
           (onDisk : gset jsstring) : Report * Dec.Run :=
  let extensionFilter := parseExtensionFilter extensionInput defaultFilter in
  let walked := listFilesRecursive inputDir (Some outputDir) tree in
  let filteredFiles :=
    List.filter
      (λ filePath,
        JS.includes extensionFilter (JS.toLowerCase (extname filePath)))
      walked in
  if (length filteredFiles =? 0)%nat then (NoFilesMatched, Dec.start onDisk)
  else
    match decryptBatch filteredFiles (Dec.start onDisk) with
    | (Normal report, r) => (report, r)
    | (_, r) => (Complete, r)
    end.

End DecryptFolder.

(** ** Notions used to state the properties *)

(** The recognised suffixes, as the design document lists them, and a
    suffix that is one of them up to letter case. *)
Definition knownSuffixes : list jsstring := [str ".pgp"; str ".gpg"; str ".asc"].

Definition knownExt (e : jsstring) : Prop := JS.toLowerCase e ∈ knownSuffixes.

(** A path ends with a recognised suffix. *)
Definition hasKnownExt (s : jsstring) : Prop :=
  ∃ stem e, s = stem ++ e ∧ knownExt e.

(** The decrypt naming rule in the words of the design document: "if the
    final path segment ends with one of the recognised suffix tokens
    (case-insensitive), that suffix is stripped; otherwise a fallback
    marker suffix is appended". *)
Definition endsWithKnownSuffix (p : jsstring) : bool :=
  bool_decide (JS.toLowerCase (drop (length p - 4) p) ∈ knownSuffixes).

Definition mapDecryptRule (p : jsstring) : jsstring :=
  if endsWithKnownSuffix p then take (length p - 4) p
  else p ++ str ".decrypted".

(** The filter rule in the words of the design document: split on commas,
    trim, drop empty tokens, lower-case, put a dot in front of a token that
    lacks one; the defaults when no token is left. *)
Definition filterTokens (input : jsstring) : list jsstring :=
  List.filter (λ t, negb (bool_decide (t = [])))
              (map JS.trim (JS.split "," input)).

Definition withLeadingDot (t : jsstring) : jsstring :=
  match t with
  | "."%char :: _ => t
  | _ => "."%char :: t
  end.

Definition parseExtensionFilterRule (input : jsstring) (defaults : list jsstring)
  : list jsstring :=
  match filterTokens input with
  | [] => defaults
  | tokens => map (λ t, withLeadingDot (JS.toLowerCase t)) tokens
  end.

(** The reads and writes of the streaming loop. *)
Definition isPumping (ev : Event) : Prop :=
  match ev with
  | EvRead | EvWrite _ _ | EvAwaitWrite => True
  | EvGetReader | EvWriter | EvReleaseLock | EvEnd _ | EvAwaitEnd => False
  end.

(** Every call on the writer that returned a promise is followed at once
    by the awaiting of that promise: nothing, and no further read in
    particular, happens in between. *)
Fixpoint backPressured (trace : list Event) : bool :=
  match trace with
  | [] => true
  | EvWrite _ true :: rest =>
      match rest with
      | EvAwaitWrite :: _ => backPressured rest
      | _ => false
      end
  | EvEnd true :: rest =>
      match rest with
      | EvAwaitEnd :: _ => backPressured rest
      | _ => false
      end
  | _ :: rest => backPressured rest
  end.

(** The paths the walk forms for the plain files of a tree: the file's
    name joined to the path formed for its directory. *)
Inductive fileUnder `{PathModule}
  : jsstring → list Dirent → jsstring → Prop :=
| file_here rootDir entries name :
    RegularFile name ∈ entries →
    fileUnder rootDir entries (join rootDir name)
| file_below rootDir entries name sub p :
    Directory name sub ∈ entries →
    fileUnder (join rootDir name) sub p →
    fileUnder rootDir entries p.

(** A resolved POSIX path is the excluded one or lies under it: its
    segments start with those of the excluded path. *)
Definition isOrUnder (exclude p : jsstring) : Prop :=
  Posix.segments exclude `prefix_of` Posix.segments p.

(** A computation that never completes by a throw. *)
Definition neverThrows {S A} (m : M S A) : Prop := ∀ s e, (m s).1 ≠ Throw e.

(** The state [s1] differs from [s] at most by a file at the output path:
    what a write may change. *)
Definition encFrame (outputPath : jsstring) (s s1 : Enc.Run) : Prop :=
  Enc.encryptedCount s1 = Enc.encryptedCount s
  ∧ Enc.skippedCount s1 = Enc.skippedCount s
  ∧ Enc.failures s1 = Enc.failures s
  ∧ (Enc.onDisk s1 = Enc.onDisk s ∨ Enc.onDisk s1 = {[outputPath]} ∪ Enc.onDisk s).

Definition decFrame (outputPath : jsstring) (s s1 : Dec.Run) : Prop :=
  Dec.decryptedCount s1 = Dec.decryptedCount s
  ∧ Dec.skippedCount s1 = Dec.skippedCount s
  ∧ Dec.failures s1 = Dec.failures s
  ∧ Dec.signatureFailures s1 = Dec.signatureFailures s
  ∧ (Dec.onDisk s1 = Dec.onDisk s ∨ Dec.onDisk s1 = {[outputPath]} ∪ Dec.onDisk s).

(** [processedCount + skippedCount + |failures|] *)
Definition encTotal (s : Enc.Run) : nat :=
  Enc.encryptedCount s + Enc.skippedCount s + length (Enc.failures s).

Definition decTotal (s : Dec.Run) : nat :=
  Dec.decryptedCount s + Dec.skippedCount s + length (Dec.failures s).

(** A path segment in normal form: not empty, not [.], not [..], and
    without a separator inside. *)
Definition normalSeg (s : jsstring) : Prop :=
  s ≠ [] ∧ s ≠ [Posix.dot] ∧ s ≠ [Posix.dot; Posix.dot] ∧ Posix.slash ∉ s.

(** ** Scenarios *)

(** A world in which nothing fails: directories can be made, files
    written, and the engine hands back buffered results. *)
Definition calmWorld : World := {|
  mkdir := λ _ _, None;
  writeFile := λ _ _, None;
  fileWriter := λ _ _,
    Opens {| onWrite := λ _, SinkNumber; onEnd := SinkNumber |};
  leavesFile := λ _ _, false;
  loadPublicKeys := None;
  encryptFile := λ _ _,
    Resolves (DataString (str "-----BEGIN PGP MESSAGE-----"));
  decryptFile := λ _ _ _ _,
    Resolves {| data := DataBytes []; verified := None |};
|}.

(** The same world, except that the engine rejects the file at [bad]. *)
Definition brokenFileWorld (bad : jsstring) : World := {|
  mkdir := mkdir calmWorld;
  writeFile := writeFile calmWorld;
  fileWriter := fileWriter calmWorld;
  leavesFile := leavesFile calmWorld;
  loadPublicKeys := None;
  encryptFile := λ d p,
    if bool_decide (p = bad)
    then Rejects (ErrorValue (str "Error encrypting message"))
    else encryptFile calmWorld d p;
  decryptFile := λ d p f v,
    if bool_decide (p = bad)
    then Rejects (ErrorValue (str "Error decrypting message"))
    else decryptFile calmWorld d p f v;
|}.

(** The same world, except that the signature of the file at [unsigned]
    does not verify: it decrypts, with [verified] false. *)
Definition badSignatureWorld (unsigned : jsstring) : World := {|
  mkdir := mkdir calmWorld;
  writeFile := writeFile calmWorld;
  fileWriter := fileWriter calmWorld;
  leavesFile := leavesFile calmWorld;
  loadPublicKeys := None;
  encryptFile := encryptFile calmWorld;
  decryptFile := λ d p f v,
    if bool_decide (p = unsigned)
    then Resolves {| data := DataBytes []; verified := Some false |}
    else decryptFile calmWorld d p f v;
|}.

(** Four plain files in one folder, and their encrypted counterparts. *)
Definition fourFiles : list Dirent :=
  [RegularFile (str "a.txt"); RegularFile (str "b.txt");
   RegularFile (str "c.txt"); RegularFile (str "d.txt")].

Definition fourEncrypted : list Dirent :=
  [RegularFile (str "a.txt.pgp"); RegularFile (str "b.txt.pgp");
   RegularFile (str "c.txt.pgp"); RegularFile (str "d.txt.pgp")].

(** A folder holding a file and, in [out], what an earlier run produced. *)
Definition treeWithOutput : list Dirent :=
  [RegularFile (str "a.txt");
   Directory (str "out") [RegularFile (str "a.txt.asc")]].

(** A byte stream of two chunks, read to its end. *)
Definition twoChunks : Source := {|
  getReader := None;
  chunks := [Some [Byte.x01]; Some [Byte.x02]];
  ending := None;
  hasReleaseLock := true;
|}.

(** A writer whose first write returns a promise that resolves, and whose
    later writes throw. *)
Definition failingWriter : Writer := {|
  onWrite := λ n, match n with
                  | 0 => SinkPromise None
                  | _ => SinkThrows (ErrorValue (str "ENOSPC"))
                  end;
  onEnd := SinkPromise None;
|}.

(** The calm world, except that a directory sits at [taken], so that no
    writer can be opened on that path, that the disk fills up after one
    write to any other file, and that the engine hands back a stream. *)
Definition directoryWorld (taken : jsstring) : World := {|
  mkdir := mkdir calmWorld;
  writeFile := writeFile calmWorld;
  fileWriter := λ _ path,
    if bool_decide (path = taken)
    then OpenThrows (ErrorValue (str "EISDIR: illegal operation on a directory"))
    else Opens failingWriter;
  leavesFile := leavesFile calmWorld;
  loadPublicKeys := None;
  encryptFile := λ _ _, Resolves (DataStream (λ _, twoChunks));
  decryptFile := decryptFile calmWorld;
|}.

(** ** More of [String.prototype] *)

Module JSString.

(** [s.includes(needle)] *)
Fixpoint includes (needle s : jsstring) : bool :=
  JS.startsWith needle s
  || match s with
     | [] => false
     | _ :: s' => includes needle s'
     end.

(** [s.endsWith(suffix)] *)
Definition endsWith (suffix s : jsstring) : bool :=
  JS.startsWith (rev suffix) (rev s).

(** [s.slice(n)] for an index [n] that is not negative. *)
Definition slice (n : nat) (s : jsstring) : jsstring := drop n s.

(** [s.substring(start, finish)] for integer arguments: each is clamped
    to [0 .. s.length], and the two are swapped when [start] is the
    larger. *)
Definition substring (s : jsstring) (start finish : Z) : jsstring :=
  let len := Z.of_nat (length s) in
  let clamp i := Z.min (Z.max i 0) len in
  let from := Z.min (clamp start) (clamp finish) in
  let to := Z.max (clamp start) (clamp finish) in
  take (Z.to_nat (to - from)) (drop (Z.to_nat from) s).

(** [LineTerminator] code units below U+0100: what [.] in a regular
    expression without flag [s] does not match. *)
Definition isLineTerminator (c : ascii) : bool :=
  (JS.code c =? 10) || (JS.code c =? 13).

(** [parts.join(sep)] *)
Fixpoint joinWith (sep : jsstring) (parts : list jsstring) : jsstring :=
  match parts with
  | [] => []
  | [p] => p
  | p :: rest => p ++ sep ++ joinWith sep rest
  end.

End JSString.

(** ** uiUtils: [truncateText], [formatFingerprint] *)

(** [maxLength] is taken to be an integer. *)
Definition truncateText (text : jsstring) (maxLength : Z) : jsstring :=
  if (Z.of_nat (length text) <=? maxLength)%Z then text
  else JSString.substring text 0 (maxLength - 3) ++ str "...".

(** [s.match(/.{1,4}/g)]: the successive matches, each the longest run of
    up to four code units other than line terminators; [current] is the
    match being read.  The empty list stands for [null]. *)
Fixpoint matchUpToFour (current s : jsstring) : list jsstring :=
  match s with
  | [] => match current with [] => [] | _ :: _ => [current] end
  | c :: s' =>
      if JSString.isLineTerminator c then
        match current with
        | [] => matchUpToFour [] s'
        | _ :: _ => current :: matchUpToFour [] s'
        end
      else if (length current =? 3)%nat then
        (current ++ [c]) :: matchUpToFour [] s'
      else matchUpToFour (current ++ [c]) s'
  end.

Section FormatFingerprint.

(** [String.prototype.toUpperCase] maps some code units below U+0100 to
    ones above, so it is left open here. *)
Variable toUpperCase : jsstring → jsstring.

(** [fingerprint.toUpperCase().match(/.{1,4}/g)?.join(' ') || fingerprint] *)
Definition formatFingerprint (fingerprint : jsstring) : jsstring :=
  match matchUpToFour [] (toUpperCase fingerprint) with
  | [] => fingerprint
  | groups =>
      let joined := JSString.joinWith (str " ") groups in
      if JS.truthy joined then joined else fingerprint
  end.

End FormatFingerprint.

(** ** Menu: the checks on pasted text *)

(** The result is the error message, or [None] for [undefined]. *)
Definition validateArmoredMessage (message : jsstring) : option jsstring :=
  if negb (JS.truthy message) then Some (str "Message cannot be empty")
  else
    let trimmed := JS.trim message in
    if negb (JS.truthy trimmed) then Some (str "Message cannot be empty")
    else if negb (JSString.includes (str "-----BEGIN PGP MESSAGE-----") trimmed)
    then Some (str "Missing BEGIN header")
    else if negb (JSString.includes (str "-----END PGP MESSAGE-----") trimmed)
    then Some (str "Missing END footer")
    else None.

Definition validatePublicKeyBlock (publicKey : jsstring) : option jsstring :=
  if negb (JS.truthy publicKey) then Some (str "Public key cannot be empty")
  else if negb (JSString.includes
                  (str "-----BEGIN PGP PUBLIC KEY BLOCK-----") publicKey)
  then Some (str "Invalid public key format")
  else if negb (JSString.includes
                  (str "-----END PGP PUBLIC KEY BLOCK-----") publicKey)
  then Some (str "Invalid public key format")
  else None.

(** ** Menu: paths given by the user *)

(** [resolveInputPath] under POSIX paths, with the working directory
    [cwd] and the home directory [home]. *)
Definition resolveInputPath (cwd home inputPath : jsstring) : jsstring :=
  if JS.startsWith (str "~/") inputPath
  then Posix.resolveAll cwd [home; JSString.slice 2 inputPath]
  else Posix.resolveAll cwd [cwd; inputPath].



(** ** Promises *)

#[global] Instance Outcome_ret : MRet Outcome := λ A, Resolves.
#[global] Instance Outcome_bind : MBind Outcome :=
  λ A B k m, match m with Resolves a => k a | Rejects e => Rejects e end.

(** A promise without a value. *)
Definition settled (p : option Thrown) : Outcome unit :=
  match p with None => Resolves () | Some e => Rejects e end.

(** [await Promise.all(xs.map(f))] for calls [f] that resolve or reject:
    it rejects as soon as one of them does; the first of the list is
    taken to be the first to do so. *)
Fixpoint promiseAll {A} (f : A → option Thrown) (xs : list A) : Outcome unit :=
  match xs with
  | [] => Resolves ()
  | x :: rest =>
      match f x with
      | Some e => Rejects e
      | None => promiseAll f rest
      end
  end.

(** ** [Array.prototype.sort] *)

(** The time value of a [Date], as [getTime()] returns it: a number of
    milliseconds, or [NaN] ([None]) for an invalid date, which is what
    [new Date(x)] gives for a missing or malformed [x]; it never throws. *)
Abbreviation TimeValue := (option Z).

(** [x - y] on time values: [NaN] as soon as one of them is. *)
Definition minusTime (x y : TimeValue) : option Z :=
  match x, y with
  | Some a, Some b => Some (a - b)%Z
  | _, _ => None
  end.

Section Sort.
Context {A : Type} (compareFn : A → A → option Z).

(** A comparison, as the sort reads it: a result that is [NaN] ([None])
    counts as [+0]. *)
Definition sortCompare (x y : A) : Z := default 0%Z (compareFn x y).

(** The sort is stable: an element goes in front of the elements that
    followed it unless the comparison puts it behind them.  When the
    comparison is not consistent, as with [NaN] among its results, the
    language leaves the order to the implementation; the order below is
    then one of those it allows. *)
Fixpoint insertSorted (x : A) (sorted : list A) : list A :=
  match sorted with
  | [] => [x]
  | y :: rest =>
      if (sortCompare x y <=? 0)%Z then x :: sorted
      else y :: insertSorted x rest
  end.

Definition sortWith (xs : list A) : list A := foldr insertSorted [] xs.

End Sort.

(** ** The files of the store directories *)

(** The text files that exist, by path. *)
Abbreviation Files := (gmap jsstring jsstring).

Module Fs.

(** [readFile(path, 'utf-8')] rejects when there is no such file. *)
Definition readFile (files : Files) (path : jsstring) : Outcome jsstring :=
  match files !! path with
  | Some text => Resolves text
  | None => Rejects (ErrorValue (str "ENOENT: no such file or directory"))
  end.

(** [writeFile(path, text, 'utf-8')] into a directory that exists. *)
Definition writeFile (path text : jsstring) (files : Files) : Files :=
  <[path := text]> files.

(** [unlink(path)] rejects when there is no such file. *)
Definition unlink (path : jsstring) (files : Files) : Outcome Files :=
  match files !! path with
  | Some _ => Resolves (delete path files)
  | None => Rejects (ErrorValue (str "ENOENT: no such file or directory"))
  end.

End Fs.

(** ** KeyStore *)

Module KeyStore.

(** [StoredKey]; [created] is the time value of the date, which is
    [NaN] for a key read from a file without a well-formed date.  The
    other fields have the types they are declared with. *)
Record StoredKey := {
  name : jsstring;
  email : jsstring;
  fingerprint : jsstring;
  keyId : jsstring;
  publicKey : jsstring;
  privateKey : option jsstring;
  created : TimeValue;
  algorithm : jsstring;
}.

Section KeyStore.
Context `{PathModule}.
Variable keyStorePath : jsstring.

(** [JSON.stringify(key, null, 2)], and [JSON.parse(keyData)] followed
    by the revival of [created].  The parse may throw, and so does the
    assignment to [key.created] when the text is JSON for [null] or for
    a value that is no object.  [new Date] does not throw: a text whose
    date is missing or malformed parses to a key with an invalid date. *)
Variable stringify : StoredKey → jsstring.
Variable parse : jsstring → Outcome StoredKey.

Definition getKeyPath (fingerprint : jsstring) : jsstring :=
  join keyStorePath (fingerprint ++ str ".json").

Definition saveKey (key : StoredKey) (files : Files) : Files :=
  let keyPath := getKeyPath (fingerprint key) in
  let keyData := stringify key in
  Fs.writeFile keyPath keyData files.

Definition getKey (fingerprint : jsstring) (files : Files)
  : option StoredKey :=
  let run : M unit (option StoredKey) :=
    tryCatch
      (let keyPath := getKeyPath fingerprint in
       keyData ← awaitValue (Fs.readFile files keyPath);
       key ← awaitValue (parse keyData);
       ret (Some key))
      (λ error, ret None) in
  match run () with
  | (Normal key, _) => key
  | _ => None
  end.

(** [keys.sort((a, b) => b.created.getTime() - a.created.getTime())] *)
Definition newestFirst (keys : list StoredKey) : list StoredKey :=
  sortWith (λ a b, minusTime (created b) (created a)) keys.

(** [listKeys]; [listing] is what [readdir(keyStorePath)] answers, and
    the state of the computation is the array [keys]. *)
Definition listKeys (listing : Outcome (list jsstring)) (files : Files)
  : list StoredKey :=
  let run : M (list StoredKey) (list StoredKey) :=
    tryCatch
      (names ← awaitValue listing;
       let keyFiles := List.filter (JSString.endsWith (str ".json")) names in
       forOf (λ file,
                let keyPath := join keyStorePath file in
                keyData ← awaitValue (Fs.readFile files keyPath);
                key ← awaitValue (parse keyData);
                modify (λ keys, keys ++ [key]))
             keyFiles;;
       keys ← gets (λ keys, keys);
       ret (newestFirst keys))
      (λ error, ret []) in
  match run [] with
  | (Normal keys, _) => keys
  | _ => []
  end.

Definition deleteKey (fingerprint : jsstring) (files : Files)
  : bool * Files :=
  match Fs.unlink (getKeyPath fingerprint) files with
  | Resolves files' => (true, files')
  | Rejects _ => (false, files)
  end.

Definition keyExists (fingerprint : jsstring) (files : Files) : bool :=
  match getKey fingerprint files with
  | Some _ => true
  | None => false
  end.

End KeyStore.
End KeyStore.

(** ** NoteStore *)

Module NoteStore.

(** [NoteRecord]; the dates are time values, [NaN] for a note read from
    a file without well-formed dates.  The other fields have the types
    they are declared with. *)
Record NoteRecord := {
  id : jsstring;
  created : TimeValue;
  updated : TimeValue;
  encrypted : jsstring;
}.

Section NoteStore.
Context `{PathModule}.
Variable vaultPath : jsstring.

(** [JSON.stringify(stored, null, 2)] of the record with its dates as ISO
    strings, and [JSON.parse(data)] followed by the making of the record,
    with the revival of the two dates.  The parse may throw, and so does
    the reading of [parsed.id] when the text is JSON for [null];
    [new Date] does not throw. *)
Variable stringify : NoteRecord → jsstring.
Variable parse : jsstring → Outcome NoteRecord.

Definition getNotePath (id : jsstring) : jsstring :=
  join vaultPath (id ++ str ".json").

Definition saveNote (note : NoteRecord) (files : Files) : Files :=
  let notePath := getNotePath (id note) in
  Fs.writeFile notePath (stringify note) files.

Definition getNote (id : jsstring) (files : Files) : option NoteRecord :=
  let run : M unit (option NoteRecord) :=
    tryCatch
      (let notePath := getNotePath id in
       data ← awaitValue (Fs.readFile files notePath);
       parsed ← awaitValue (parse data);
       ret (Some parsed))
      (λ error, ret None) in
  match run () with
  | (Normal note, _) => note
  | _ => None
  end.

(** [notes.sort((a, b) => b.updated.getTime() - a.updated.getTime())] *)
Definition lastUpdatedFirst (notes : list NoteRecord) : list NoteRecord :=
  sortWith (λ a b, minusTime (updated b) (updated a)) notes.

Definition listNotes (listing : Outcome (list jsstring)) (files : Files)
  : list NoteRecord :=
  let run : M (list NoteRecord) (list NoteRecord) :=
    tryCatch
      (names ← awaitValue listing;
       let noteFiles := List.filter (JSString.endsWith (str ".json")) names in
       forOf (λ file,
                tryCatch
                  (data ← awaitValue
                            (Fs.readFile files (join vaultPath file));
                   parsed ← awaitValue (parse data);
                   modify (λ notes, notes ++ [parsed]))
                  (λ error, ret ()))
             noteFiles;;
       notes ← gets (λ notes, notes);
       ret (lastUpdatedFirst notes))
      (λ error, ret []) in
  match run [] with
  | (Normal notes, _) => notes
  | _ => []
  end.

End NoteStore.
End NoteStore.

(** ** PGPOperations: [encryptFile], [decryptFile] *)

Module PGP.

(** The options handed to [openpgp.encrypt].  A message is named by the
    file whose stream it was made from and the file name embedded in it,
    a parsed key by its armored text, an unlocked private key by its
    armored text and the passphrase. *)
Record EncryptCall := {
  message : jsstring * option jsstring;
  encryptionKeys : list jsstring;
  format : PgpOutputFormat;
  signingKeys : option (jsstring * jsstring);
}.

(** The options handed to [openpgp.decrypt]; the message is named by the
    file and the way its stream is read. *)
Record DecryptCall := {
  encryptedMessage : jsstring * PgpOutputFormat;
  decryptionKeys : jsstring * jsstring;
  verificationKeys : option (list jsstring);
}.

(** What [openpgp.decrypt] resolves with; each signature is given by what
    its promise [verified] does. *)
Record Decrypted := {
  plain : Data;
  signatures : option (list (option Thrown));
  embeddedName : option jsstring;
}.

Record OpenPGP := {
  readKey : jsstring → option Thrown;
  readPrivateKey : jsstring → option Thrown;
  decryptKey : jsstring → jsstring → option Thrown;
  createMessage : jsstring → option jsstring → option Thrown;
  readMessage : jsstring → PgpOutputFormat → option Thrown;
  encrypt : EncryptCall → Outcome Data;
  decrypt : DecryptCall → Outcome Decrypted;
}.

Record FileEncryptOptions := {
  input : jsstring;
  publicKeys : list jsstring;
  outputFormat : PgpOutputFormat;
  sign : option bool;
  privateKey : option jsstring;
  passphrase : option jsstring;
  filename : option jsstring;
}.

Record FileDecryptOptions := {
  encryptedInput : jsstring;
  inputFormat : PgpOutputFormat;
  ownPrivateKey : jsstring;
  ownPassphrase : option jsstring;
  verifySignature : option bool;
  candidateKeys : option (list jsstring);
}.

(** [options.sign && options.privateKey && options.passphrase] *)
Definition signingRequested (options : FileEncryptOptions)
  : option (jsstring * jsstring) :=
  match sign options, privateKey options, passphrase options with
  | Some true, Some key, Some phrase =>
      if JS.truthy key && JS.truthy phrase then Some (key, phrase) else None
  | _, _, _ => None
  end.

Section PGPOperations.
Variable openpgp : OpenPGP.

Definition encryptFile (options : FileEncryptOptions) : Outcome Data :=
  promiseAll (readKey openpgp) (publicKeys options);;
  settled (createMessage openpgp (input options) (filename options));;
  signing ←
    match signingRequested options with
    | Some (key, phrase) =>
        settled (readPrivateKey openpgp key);;
        settled (decryptKey openpgp key phrase);;
        mret (Some (key, phrase))
    | None => mret None
    end;
  encrypt openpgp
    {| message := (input options, filename options);
       encryptionKeys := publicKeys options;
       format := outputFormat options;
       signingKeys := signing |}.

(** The block that turns the signatures into [verified]. *)
Definition verifiedOf (signatures : option (list (option Thrown)))
  : option bool :=
  match signatures with
  | Some (first :: _) =>
      match first with
      | None => Some true
      | Some _ => Some false
      end
  | _ => None
  end.

(** The result pairs the [FileDecryptResult] with [filename]. *)
Definition decryptFile (options : FileDecryptOptions)
  : Outcome (FileDecryptResult * option jsstring) :=
  settled (readMessage openpgp (encryptedInput options) (inputFormat options));;
  settled (readPrivateKey openpgp (ownPrivateKey options));;
  let phrase := match ownPassphrase options with
                | Some p => if JS.truthy p then p else str ""
                | None => str ""
                end in
  settled (decryptKey openpgp (ownPrivateKey options) phrase);;
  verification ←
    match verifySignature options, candidateKeys options with
    | Some true, Some keys =>
        promiseAll (readKey openpgp) keys;; mret (Some keys)
    | _, _ => mret None
    end;
  decrypted ←
    decrypt openpgp
      {| encryptedMessage := (encryptedInput options, inputFormat options);
         decryptionKeys := (ownPrivateKey options, phrase);
         verificationKeys := verification |};
  mret ({| data := plain decrypted;
           verified := verifiedOf (signatures decrypted) |},
        embeddedName decrypted).

End PGPOperations.
End PGP.

(** ** Menu: the calls of the batch loops into PGPOperations *)

Section MenuCalls.

(** What OpenPGP.js answers, given the files on disk, and the rest of the
    world of a run. *)
Variable openpgp : Disk → PGP.OpenPGP.
Variable io : World.
Variable basename : jsstring → jsstring.

(** The world of [encryptFolder]: [publicKeys] are the recipients' keys
    once loaded, [privateKey] is [signingKey?.privateKey]. *)
Definition encryptCalls (publicKeys : list jsstring)
           (outputFormat : PgpOutputFormat) (shouldSign : bool)
           (privateKey passphrase : option jsstring) : World := {|
  mkdir := mkdir io;
  writeFile := writeFile io;
  fileWriter := fileWriter io;
  leavesFile := leavesFile io;
  loadPublicKeys := loadPublicKeys io;
  encryptFile := λ d filePath,
    PGP.encryptFile (openpgp d)
      {| PGP.input := filePath;
         PGP.publicKeys := publicKeys;
         PGP.sign := Some shouldSign;
         PGP.privateKey := privateKey;
         PGP.passphrase := passphrase;
         PGP.outputFormat := outputFormat;
         PGP.filename := Some (basename filePath) |};
  decryptFile := decryptFile io;
|}.

(** The world of [decryptFolder]: [keys] are the public keys of all the
    keys of the key store. *)
Definition decryptCalls (keys : list jsstring)
           (privateKey passphraseInput : jsstring) : World := {|
  mkdir := mkdir io;
  writeFile := writeFile io;
  fileWriter := fileWriter io;
  leavesFile := leavesFile io;
  loadPublicKeys := loadPublicKeys io;
  encryptFile := encryptFile io;
  decryptFile := λ d filePath format verifySignatures,
    match PGP.decryptFile (openpgp d)
            {| PGP.encryptedInput := filePath;
               PGP.inputFormat := format;
               PGP.ownPrivateKey := privateKey;
               PGP.ownPassphrase := Some passphraseInput;
               PGP.verifySignature := Some verifySignatures;
               PGP.candidateKeys :=
                 if verifySignatures then Some keys else None |} with
    | Resolves (result, _) => Resolves result
    | Rejects e => Rejects e
    end;
|}.

End MenuCalls.

(** ** Notions used to state the properties of the stores *)

Section StoreNotions.
Context `{PathModule}.

(** The names of a directory listing the stores look at. *)
Definition jsonFiles (names : list jsstring) : list jsstring :=
  List.filter (JSString.endsWith (str ".json")) names.

(** The record in the file [file] of [directory], if the file can be read
    and its text parsed. *)
Definition recordIn {A} (parse : jsstring → Outcome A)
           (directory : jsstring) (files : Files) (file : jsstring)
  : option A :=
  match Fs.readFile files (join directory file) with
  | Resolves text =>
      match parse text with
      | Resolves a => Some a
      | Rejects _ => None
      end
  | Rejects _ => None
  end.

End StoreNotions.

(** The entries of a tree, at every depth, have names as a file system
    gives them: not empty, not [.] or [..], without a separator. *)
#[local] Unset Elimination Schemes.
Inductive properlyNamed : Dirent → Prop :=
| named_file name : normalSeg name → properlyNamed (RegularFile name)
| named_directory name entries :
    normalSeg name → Forall properlyNamed entries →
    properlyNamed (Directory name entries)
| named_other name : normalSeg name → properlyNamed (OtherEntry name).
#[local] Set Elimination Schemes.

(** The chunks handed to the file writer, in the order of the calls. *)
Definition written (trace : list Event) : list bytes :=
  omap (λ ev, match ev with EvWrite chunk _ => Some chunk | _ => None end)
       trace.

(** A time value that is a number. *)
Definition validTime (t : TimeValue) : Prop := is_Some t.

(** Later elements are not newer than earlier ones, the dates of both
    being valid. *)
Definition newestFirstOrder {A} (time : A → TimeValue) (xs : list A) : Prop :=
  StronglySorted
    (λ a b, ∃ ta tb, time a = Some ta ∧ time b = Some tb ∧ (tb ≤ ta)%Z) xs.

(** ** Scenarios for the stores and for OpenPGP.js *)

Definition aliceKey : KeyStore.StoredKey := {|
  KeyStore.name := str "Alice";
  KeyStore.email := str "alice@example.org";
  KeyStore.fingerprint := str "a1b2c3d4";
  KeyStore.keyId := str "c3d4";
  KeyStore.publicKey := str "-----BEGIN PGP PUBLIC KEY BLOCK-----";
  KeyStore.privateKey := None;
  KeyStore.created := Some 1700000000000%Z;
  KeyStore.algorithm := str "ecc";
|}.

(** A codec that knows one text only. *)
Definition aliceText : jsstring := str "{ alice }".

Definition parseAlice (text : jsstring) : Outcome KeyStore.StoredKey :=
  if bool_decide (text = aliceText) then Resolves aliceKey
  else Rejects (ErrorValue (str "JSON Parse error")).

(** Two notes, the second updated after the first, and a codec that
    knows their two texts only. *)
Definition firstNote : NoteStore.NoteRecord := {|
  NoteStore.id := str "n1";
  NoteStore.created := Some 1700000000000%Z;
  NoteStore.updated := Some 1700000000500%Z;
  NoteStore.encrypted := str "-----BEGIN PGP MESSAGE-----";
|}.

Definition secondNote : NoteStore.NoteRecord := {|
  NoteStore.id := str "n2";
  NoteStore.created := Some 1700000000100%Z;
  NoteStore.updated := Some 1700000000900%Z;
  NoteStore.encrypted := str "-----BEGIN PGP MESSAGE-----";
|}.

Definition parseNote (text : jsstring) : Outcome NoteStore.NoteRecord :=
  if bool_decide (text = str "{ first }") then Resolves firstNote
  else if bool_decide (text = str "{ second }") then Resolves secondNote
  else Rejects (ErrorValue (str "JSON Parse error")).

(** A library in which every call succeeds, except that the key [bad]
    cannot be parsed; messages decrypt to nothing, unsigned. *)
Definition pickyOpenPGP (bad : jsstring) : PGP.OpenPGP := {|
  PGP.readKey := λ key,
    if bool_decide (key = bad) then Some (ErrorValue (str "Misformed armored text"))
    else None;
  PGP.readPrivateKey := λ _, None;
  PGP.decryptKey := λ _ _, None;
  PGP.createMessage := λ _ _, None;
  PGP.readMessage := λ _ _, None;
  PGP.encrypt := λ call,
    Resolves (DataString
                (match PGP.signingKeys call with
                 | Some _ => str "signed"
                 | None => str "unsigned"
                 end));
  PGP.decrypt := λ _,
    Resolves {| PGP.plain := DataBytes [];
                PGP.signatures := Some [];
                PGP.embeddedName := None |};
|}.

(** * Properties *)

#[local] Arguments str : simpl never.

(** ** Suffix stripping *)

Lemma replaceExt_cons c s :
  replaceExt (c :: s) = if matchExtHere (c :: s) then [] else c :: replaceExt s.
Proof. reflexivity. Qed.

Lemma replaceExt_nil : replaceExt [] = [].
Proof. reflexivity. Qed.

Lemma matchExtHere_length s : matchExtHere s = true → length s = 4.
Proof.
  destruct s as [|d [|a [|b [|c [|x s]]]]]; simpl; try discriminate; auto.
Qed.

#[local] Opaque matchExtHere.
#[local] Arguments replaceExt : simpl never.

Lemma replaceExt_app stem e :
  matchExtHere e = true → replaceExt (stem ++ e) = stem.
Proof.
  intros He. induction stem as [|c stem IH].
  - destruct e as [|c e]; [discriminate (matchExtHere_length _ He)|].
    simpl. rewrite replaceExt_cons, He. reflexivity.
  - simpl. rewrite replaceExt_cons.
    destruct (matchExtHere (c :: stem ++ e)) eqn:Hm.
    + apply matchExtHere_length in Hm. apply matchExtHere_length in He.
      simpl in Hm. rewrite length_app in Hm. lia.
    + rewrite IH. reflexivity.
Qed.

(** Either no suffix of [s] is matched and [s] is left as it is, or [s]
    ends with a matched suffix, which is removed. *)
Lemma replaceExt_cases s :
  (replaceExt s = s ∧ ∀ stem e, s = stem ++ e → matchExtHere e = false)
  ∨ (∃ stem e, s = stem ++ e ∧ matchExtHere e = true ∧ replaceExt s = stem).
Proof.
  induction s as [|c s IH].
  - left. split; [reflexivity|]. intros stem e Hs.
    symmetry in Hs. apply app_eq_nil in Hs as [_ ->]. reflexivity.
  - destruct (matchExtHere (c :: s)) eqn:Hm.
    + right. exists [], (c :: s). repeat split; auto.
      rewrite replaceExt_cons, Hm. reflexivity.
    + destruct IH as [[IH1 IH2]|(stem & e & -> & He & IH)].
      * left. split.
        { rewrite replaceExt_cons, Hm, IH1. reflexivity. }
        intros stem e Hs. destruct stem as [|c' stem]; simpl in Hs.
        { subst e. exact Hm. }
        { injection Hs as -> ->. eapply IH2. reflexivity. }
      * right. exists (c :: stem), e. repeat split; auto.
        apply (replaceExt_app (c :: stem) e He).
Qed.

Ltac each_char c :=
  destruct c as [[] [] [] [] [] [] [] []]; vm_compute; try reflexivity.

Lemma sameLetter_lower (pat c : ascii) :
  existsb (Ascii.eqb pat) [ "p"; "g"; "a"; "s"; "c" ]%char = true →
  JS.sameLetter pat c = bool_decide (JS.lowerChar c = pat).
Proof.
  intros Hp. apply existsb_exists in Hp as (x & Hx & Hp).
  apply Ascii.eqb_eq in Hp as <-. simpl in Hx.
  repeat (destruct Hx as [<-|Hx]); [..|done]; each_char c.
Qed.

Lemma lowerChar_dot c : JS.lowerChar c = "."%char ↔ c = "."%char.
Proof.
  split; [|intros ->; reflexivity].
  destruct c as [[] [] [] [] [] [] [] []]; vm_compute; intros Hc;
    first [reflexivity | discriminate Hc].
Qed.

Lemma knownExt_length e : knownExt e → length e = 4.
Proof.
  unfold knownExt, knownSuffixes. intros He.
  rewrite <- (length_map JS.lowerChar e). fold (JS.toLowerCase e).
  repeat (apply elem_of_cons in He as [->|He]); [done..|by inversion He].
Qed.

#[local] Transparent matchExtHere.
Lemma matchExtHere_known e : matchExtHere e = true ↔ knownExt e.
Proof.
  split.
  - intros He. pose proof (matchExtHere_length _ He) as Hl.
    destruct e as [|d [|a [|b [|c [|x e]]]]]; try discriminate Hl.
    simpl in He.
    apply andb_true_iff in He as [Hd He]. apply bool_decide_eq_true in Hd as ->.
    unfold altExt in He. rewrite !sameLetter_lower in He by reflexivity.
    unfold knownExt, knownSuffixes, JS.toLowerCase. simpl.
    change (JS.lowerChar ".") with "."%char.
    repeat (apply orb_true_iff in He as [He|He]);
      repeat (apply andb_true_iff in He as [He ?]);
      repeat match goal with
             | H : bool_decide _ = true |- _ => apply bool_decide_eq_true in H as ->
             end; set_solver.
  - intros He. pose proof (knownExt_length _ He) as Hl.
    destruct e as [|d [|a [|b [|c [|x e]]]]]; try discriminate Hl.
    unfold knownExt, knownSuffixes, JS.toLowerCase in He. simpl in He.
    simpl. unfold altExt. rewrite !sameLetter_lower by reflexivity.
    repeat (apply elem_of_cons in He as [He|He]); [..|by inversion He];
      injection He as Hd -> -> ->; apply lowerChar_dot in Hd as ->;
      rewrite !bool_decide_true by done; reflexivity.
Qed.
#[local] Opaque matchExtHere.

Lemma strip_known stem e :
  knownExt e → stripEncryptedExtension (stem ++ e) = stem.
Proof.
  intros He. pose proof (knownExt_length _ He) as Hl.
  apply matchExtHere_known in He.
  unfold stripEncryptedExtension. rewrite replaceExt_app by done.
  rewrite bool_decide_true; [done|].
  intros Heq. apply (f_equal length) in Heq. rewrite length_app in Heq. lia.
Qed.

Lemma strip_cases s :
  (¬ hasKnownExt s ∧ stripEncryptedExtension s = s ++ str ".decrypted")
  ∨ (∃ stem e, s = stem ++ e ∧ knownExt e ∧ stripEncryptedExtension s = stem).
Proof.
  destruct (replaceExt_cases s) as [[Hs Hno]|(stem & e & -> & He & _)].
  - left. split.
    + intros (stem & e & -> & He). apply matchExtHere_known in He.
      rewrite (Hno stem e eq_refl) in He. done.
    + unfold stripEncryptedExtension. rewrite Hs.
      rewrite bool_decide_false; [done|]. intros Hne. by apply Hne.
  - apply matchExtHere_known in He. right. exists stem, e.
    split_and!; [done..|]. by apply strip_known.
Qed.

Lemma strip_unknown s :
  ¬ hasKnownExt s → stripEncryptedExtension s = s ++ str ".decrypted".
Proof.
  intros Hn. destruct (strip_cases s) as [[_ Hs]|(stem & e & -> & He & _)];
    [done|]. exfalso. apply Hn. by exists stem, e.
Qed.

Lemma outputExtension_known fmt : knownExt (outputExtension fmt).
Proof. destruct fmt; vm_compute; set_solver. Qed.

Lemma endsWithKnownSuffix_spec p :
  endsWithKnownSuffix p = true ↔ hasKnownExt p.
Proof.
  unfold endsWithKnownSuffix. rewrite bool_decide_eq_true. split.
  - intros He. exists (take (length p - 4) p), (drop (length p - 4) p).
    by rewrite take_drop.
  - intros (stem & e & -> & He). pose proof (knownExt_length _ He) as Hl.
    rewrite length_app, Hl. replace (length stem + 4 - 4) with (length stem) by lia.
    by rewrite drop_app_length.
Qed.

Lemma strip_is_rule p : stripEncryptedExtension p = mapDecryptRule p.
Proof.
  unfold mapDecryptRule.
  destruct (strip_cases p) as [[Hn ->]|(stem & e & -> & He & ->)].
  - destruct (endsWithKnownSuffix p) eqn:Hp; [|done].
    by apply endsWithKnownSuffix_spec in Hp.
  - rewrite (proj2 (endsWithKnownSuffix_spec (stem ++ e))) by (by exists stem, e).
    rewrite length_app, (knownExt_length _ He).
    replace (length stem + 4 - 4) with (length stem) by lia.
    by rewrite take_app_length.
Qed.

(** ** Extension filters *)

Lemma startsWith_dot_lower v :
  JS.startsWith (str ".") (JS.toLowerCase v) = JS.startsWith (str ".") v.
Proof.
  destruct v as [|c v]; [reflexivity|]. simpl.
  rewrite !andb_true_r. apply bool_decide_ext.
  split; intros Hc; symmetry in Hc; symmetry.
  - by apply lowerChar_dot.
  - by apply lowerChar_dot in Hc.
Qed.

Lemma withLeadingDot_startsWith t :
  withLeadingDot t = if JS.startsWith (str ".") t then t else str "." ++ t.
Proof.
  destruct t as [|c t]; [reflexivity|]. simpl. rewrite andb_true_r.
  destruct (bool_decide ("."%char = c)) eqn:Hc.
  - apply bool_decide_eq_true in Hc as <-. reflexivity.
  - apply bool_decide_eq_false in Hc.
    each_char c; exfalso; apply Hc; reflexivity.
Qed.

Lemma truthy_nonempty t : JS.truthy t = negb (bool_decide (t = [])).
Proof. by destruct t. Qed.

Lemma parseExtensionFilter_rule input defaults :
  parseExtensionFilter input defaults = parseExtensionFilterRule input defaults.
Proof.
  unfold parseExtensionFilter, parseExtensionFilterRule, filterTokens.
  rewrite (filter_ext JS.truthy (λ t, negb (bool_decide (t = []))))
    by apply truthy_nonempty.
  destruct (List.filter _ _) as [|t ts] eqn:Hts; [reflexivity|].
  change (length (t :: ts) =? 0)%nat with false. cbv iota.
  apply map_ext. intros v.
  rewrite withLeadingDot_startsWith, startsWith_dot_lower. reflexivity.
Qed.

(** ** Control flow *)

(** A loop whose body never throws visits every element. *)
Lemma forOf_step {S A} (body : A → M S unit) x rest s :
  neverThrows (body x) →
  forOf body (x :: rest) s = forOf body rest (body x s).2.
Proof.
  intros Hb. simpl. specialize (Hb s).
  destruct (body x s) as [[| |e] s']; simpl in *; try done.
  by destruct (Hb e).
Qed.

Lemma forOf_fold {S A} (body : A → M S unit) xs s :
  (∀ x, neverThrows (body x)) →
  forOf body xs s = (Normal (), fold_left (λ s x, (body x s).2) xs s).
Proof.
  intros Hb. revert s. induction xs as [|x xs IH]; intros s; [done|].
  rewrite forOf_step by done. apply IH.
Qed.

Lemma forOf_app {S A} (body : A → M S unit) xs ys s :
  (∀ x, neverThrows (body x)) →
  forOf body (xs ++ ys) s = forOf body ys (forOf body xs s).2.
Proof.
  intros Hb. rewrite !forOf_fold by done. simpl.
  by rewrite fold_left_app.
Qed.

Lemma tryCatch_modify_neverThrows {S} (body : M S unit) (f : Thrown → S → S) :
  neverThrows (tryCatch body (λ e, modify (f e))).
Proof.
  intros s e. unfold tryCatch. by destruct (body s) as [[| |e'] s'].
Qed.

(** ** Writing one output *)

Section StreamSinkFacts.
Context `{PathModule} (W : World) {S : Type} `{HasDisk S}.

(** A write either succeeds and leaves a file at the path, or throws,
    with or without a file left there.  It never completes by
    [continue]. *)
Lemma writeOutputToFile_cases data outputPath format (s : S) :
  let after := wrote outputPath s in
  writeOutputToFile W data outputPath format s = (Normal (), after)
  ∨ ∃ e, writeOutputToFile W data outputPath format s = (Throw e, s)
         ∨ writeOutputToFile W data outputPath format s = (Throw e, after).
Proof.
  assert (∀ o,
            settleWrite W outputPath o s
            = (Normal (), wrote outputPath s)
            ∨ ∃ e, settleWrite W outputPath o s = (Throw e, s)
                   ∨ settleWrite W outputPath o s
                     = (Throw e, wrote outputPath s))
    as Hsettle.
  { intros o. unfold settleWrite, mbind, M_bind, bind.
    destruct (o (disk s)) as [e|]; [right; exists e|left; done].
    destruct (leavesFile W (disk s) outputPath); simpl; auto. }
  destruct data as [text|content|reads|]; simpl.
  - unfold mbind, M_bind, bind, awaitOn, await.
    destruct (mkdir W (disk s) (dirname outputPath)) as [e|]; simpl;
      [right; eauto|apply Hsettle].
  - unfold mbind, M_bind, bind, awaitOn, await.
    destruct (mkdir W (disk s) (dirname outputPath)) as [e|]; simpl;
      [right; eauto|apply Hsettle].
  - apply Hsettle.
  - right. eauto.
Qed.

(** What a write does depends on the state through the files on disk
    alone, and the files on disk are all it changes: it goes through any
    other change [g] of the state. *)
Lemma writeOutputToFile_under (g : S → S) data outputPath format (s : S) :
  (∀ s, disk (g s) = disk s) →
  (∀ path s, wrote path (g s) = g (wrote path s)) →
  writeOutputToFile W data outputPath format (g s)
  = ((writeOutputToFile W data outputPath format s).1,
     g (writeOutputToFile W data outputPath format s).2).
Proof.
  intros Hdisk Hset.
  assert (∀ o,
            settleWrite W outputPath o (g s)
            = ((settleWrite W outputPath o s).1,
               g (settleWrite W outputPath o s).2)) as Hsettle.
  { intros o. unfold settleWrite, created, modify, mbind, M_bind, bind, throw.
    rewrite !Hdisk. destruct (o (disk s)) as [e|]; simpl.
    - destruct (leavesFile W (disk s) outputPath); simpl;
        by rewrite ?Hdisk, ?Hset.
    - by rewrite Hset. }
  destruct data as [text|content|reads|]; simpl.
  - unfold mbind, M_bind, bind, awaitOn, await. rewrite Hdisk.
    destruct (mkdir W (disk s) (dirname outputPath)) as [e|]; simpl;
      [done|apply Hsettle].
  - unfold mbind, M_bind, bind, awaitOn, await. rewrite Hdisk.
    destruct (mkdir W (disk s) (dirname outputPath)) as [e|]; simpl;
      [done|apply Hsettle].
  - apply Hsettle.
  - done.
Qed.

End StreamSinkFacts.

(** ** The loop of [encryptFolder] *)

Section EncryptFacts.
Context `{PathModule} (W : World).
Variables (inputDir outputDir : jsstring).
Variables (outputFormat : PgpOutputFormat) (outputPolicy : OutputPolicy).

#[local] Abbreviation encOne :=
  (encryptOne W inputDir outputDir outputFormat outputPolicy).
#[local] Abbreviation encPath :=
  (encryptOutputPath inputDir outputDir outputFormat).

(** The state once the collision check is made, once the engine is
    called, once the result is handed to [writeOutputToFile]. *)
#[local] Abbreviation checked filePath s :=
  (Enc.called (CallExists (encPath filePath))
     (Enc.called (CallMkdir (dirname (encPath filePath))) s)).
#[local] Abbreviation transformed filePath s :=
  (Enc.called (CallEncryptFile filePath) (checked filePath s)).
#[local] Abbreviation handedOver filePath s :=
  (Enc.called (CallWriteOutputToFile (encPath filePath) outputFormat)
     (transformed filePath s)).

Lemma encryptOne_neverThrows filePath : neverThrows (encOne filePath).
Proof. apply tryCatch_modify_neverThrows. Qed.

Lemma encFrame_refl p s : encFrame p s s.
Proof. unfold encFrame. auto. Qed.

Lemma enc_write_frame data outputPath format s c s1 :
  writeOutputToFile W data outputPath format s = (c, s1) →
  encFrame outputPath s s1 ∧ c ≠ Continue.
Proof.
  intros Hw.
  destruct (writeOutputToFile_cases W data outputPath format s)
    as [Hc|(e & [Hc|Hc])]; rewrite Hc in Hw; injection Hw as <- <-;
    (split; [|done]); unfold encFrame; simpl; auto.
Qed.

(** Noting a call and writing a file go in either order. *)
Lemma enc_write_called c data outputPath format s :
  writeOutputToFile W data outputPath format (Enc.called c s)
  = ((writeOutputToFile W data outputPath format s).1,
     Enc.called c (writeOutputToFile W data outputPath format s).2).
Proof. by apply writeOutputToFile_under. Qed.

(** One iteration counts the file as encrypted, as skipped or as failed,
    and nothing else changes but the files on disk and the calls noted. *)
Lemma encryptOne_cases filePath s :
  let s' := (encOne filePath s).2 in
  (∃ s1, encFrame (encPath filePath) s s1 ∧ s' = Enc.countEncrypted s1)
  ∨ (∃ s1, encFrame (encPath filePath) s s1 ∧ s' = Enc.countSkipped s1)
  ∨ (∃ e s1, encFrame (encPath filePath) s s1
       ∧ s' = Enc.pushFailure
                {| file := filePath; error := errorMessage e |} s1).
Proof.
  cbv zeta. unfold encryptOne, Enc.calling, tryCatch, mbind, M_bind, bind,
    awaitOn, awaitValueOn, await, fileExists, gets, awaitValue, modify.
  fold (encPath filePath). cbn [disk Enc.hasDisk Enc.onDisk Enc.called].
  destruct (mkdir W (Enc.onDisk s) (dirname (encPath filePath))) as [e|]; simpl.
  { right; right. eexists e, _. split; [|done]. unfold encFrame. simpl. auto. }
  destruct (bool_decide (encPath filePath ∈ Enc.onDisk s)); simpl;
    [destruct outputPolicy; simpl|];
    repeat match goal with
      | |- context [encryptFile W ?d0 filePath] =>
          destruct (encryptFile W d0 filePath) as [d|e]; simpl
      | |- context [writeOutputToFile W ?d ?p ?f ?s0] =>
          let Hw := fresh "Hw" in
          destruct (writeOutputToFile W d p f s0) as [[[]| |e] s1] eqn:Hw;
          destruct (enc_write_frame _ _ _ _ _ _ Hw) as [Hf Hc]; simpl
      end;
    try done;
    first [ left; eexists; split; [|reflexivity]; unfold encFrame in *;
            simpl in *; done
          | right; left; eexists; split; [|reflexivity];
            unfold encFrame; simpl; auto
          | right; right; eexists _, _; split; [|reflexivity];
            unfold encFrame in *; simpl in *; auto
          | right; right;
            exists (ErrorValue (str "Output file exists; aborting batch."));
            eexists; split; [|reflexivity]; unfold encFrame; simpl; auto ].
Qed.

(** Each iteration adds one to the sum of the tallies. *)
Lemma encryptOne_total filePath s :
  encTotal (encOne filePath s).2 = encTotal s + 1.
Proof.
  destruct (encryptOne_cases filePath s)
    as [(s1 & Hf & ->)|[(s1 & Hf & ->)|(e & s1 & Hf & ->)]];
    destruct Hf as (Hc & Hs & Hf & _); unfold encTotal; simpl;
    rewrite ?length_app, ?Hc, ?Hs, ?Hf; simpl; lia.
Qed.

Lemma encryptLoop_total filteredFiles s :
  ∃ s', forOf encOne filteredFiles s = (Normal (), s')
        ∧ encTotal s' = encTotal s + length filteredFiles.
Proof.
  revert s. induction filteredFiles as [|f fs IH]; intros s.
  - exists s. split; [done|]. simpl. lia.
  - rewrite forOf_step by apply encryptOne_neverThrows.
    destruct (IH (encOne f s).2) as (s' & -> & Ht).
    exists s'. split; [done|]. rewrite Ht, encryptOne_total. simpl. lia.
Qed.

(** The failures grow by records of the files visited, in their order. *)
Lemma encryptOne_failures filePath s :
  Enc.failures (encOne filePath s).2 = Enc.failures s
  ∨ ∃ e, Enc.failures (encOne filePath s).2
         = Enc.failures s ++ [{| file := filePath; error := errorMessage e |}].
Proof.
  destruct (encryptOne_cases filePath s)
    as [(s1 & Hf & ->)|[(s1 & Hf & ->)|(e & s1 & Hf & ->)]];
    destruct Hf as (Hc & Hs & Hf & _); simpl; rewrite ?Hf; eauto.
Qed.

Lemma encryptLoop_failures filteredFiles s :
  ∃ new, Enc.failures (forOf encOne filteredFiles s).2 = Enc.failures s ++ new
         ∧ sublist (map file new) filteredFiles.
Proof.
  revert s. induction filteredFiles as [|f fs IH]; intros s.
  - exists []. simpl. rewrite app_nil_r. split; [done|]. constructor.
  - rewrite forOf_step by apply encryptOne_neverThrows.
    destruct (IH (encOne f s).2) as (new & -> & Hsub).
    destruct (encryptOne_failures f s) as [->|[e ->]].
    + exists new. split; [done|]. by apply sublist_cons.
    + exists ({| file := f; error := errorMessage e |} :: new).
      rewrite <- app_assoc. split; [done|]. simpl. by apply sublist_skip.
Qed.

(** Nothing written is ever removed. *)
Lemma encryptOne_disk filePath s :
  Enc.onDisk s ⊆ Enc.onDisk (encOne filePath s).2.
Proof.
  destruct (encryptOne_cases filePath s)
    as [(s1 & Hf & ->)|[(s1 & Hf & ->)|(e & s1 & Hf & ->)]];
    destruct Hf as (_ & _ & _ & [Hd|Hd]); simpl; rewrite ?Hd;
    first [reflexivity | apply union_subseteq_r].
Qed.

Lemma encryptLoop_disk filteredFiles s :
  Enc.onDisk s ⊆ Enc.onDisk (forOf encOne filteredFiles s).2.
Proof.
  revert s. induction filteredFiles as [|f fs IH]; intros s; [done|].
  rewrite forOf_step by apply encryptOne_neverThrows.
  etrans; [apply (encryptOne_disk f)|apply IH].
Qed.

(** Past the collision check, the iteration is the transform and the
    write, with the calls made until then noted. *)
Lemma encryptOne_past_check filePath s :
  mkdir W (Enc.onDisk s) (dirname (encPath filePath)) = None →
  encPath filePath ∉ Enc.onDisk s ∨ outputPolicy = overwrite →
  (encOne filePath s).2
  = match encryptFile W (Enc.onDisk s) filePath with
    | Rejects e =>
        Enc.pushFailure {| file := filePath; error := errorMessage e |}
                        (transformed filePath s)
    | Resolves d =>
        match writeOutputToFile W d (encPath filePath) outputFormat s with
        | (Normal _, s1) => Enc.countEncrypted (handedOver filePath s1)
        | (Continue, s1) => handedOver filePath s1
        | (Throw e, s1) =>
            Enc.pushFailure {| file := filePath; error := errorMessage e |}
                            (handedOver filePath s1)
        end
    end.
Proof.
  intros Hm Hreach.
  unfold encryptOne, Enc.calling, tryCatch, mbind, M_bind, bind,
    awaitOn, awaitValueOn, await, fileExists, gets, awaitValue, modify.
  fold (encPath filePath). cbn [disk Enc.hasDisk Enc.onDisk Enc.called].
  rewrite Hm. simpl.
  destruct (encryptFile W (Enc.onDisk s) filePath) as [d|e] eqn:He.
  - destruct Hreach as [Hno| ->];
      [rewrite bool_decide_false by done|destruct (bool_decide _)];
      simpl; rewrite He; simpl; rewrite !enc_write_called; simpl;
      by destruct (writeOutputToFile W d (encPath filePath) outputFormat s)
        as [[[]| |e] s1].
  - destruct Hreach as [Hno| ->];
      [rewrite bool_decide_false by done|destruct (bool_decide _)];
      simpl; rewrite He; done.
Qed.

(** A failing transform or write, once the collision check is passed,
    ends the iteration with a failure record. *)
Lemma encryptOne_engine_rejects filePath s e :
  mkdir W (Enc.onDisk s) (dirname (encPath filePath)) = None →
  encPath filePath ∉ Enc.onDisk s ∨ outputPolicy = overwrite →
  encryptFile W (Enc.onDisk s) filePath = Rejects e →
  (encOne filePath s).2
  = Enc.pushFailure {| file := filePath; error := errorMessage e |}
                    (transformed filePath s).
Proof.
  intros Hm Hreach He. by rewrite encryptOne_past_check, He.
Qed.

Lemma encryptOne_write_throws filePath s d e s1 :
  mkdir W (Enc.onDisk s) (dirname (encPath filePath)) = None →
  encPath filePath ∉ Enc.onDisk s ∨ outputPolicy = overwrite →
  encryptFile W (Enc.onDisk s) filePath = Resolves d →
  writeOutputToFile W d (encPath filePath) outputFormat s = (Throw e, s1) →
  (encOne filePath s).2
  = Enc.pushFailure {| file := filePath; error := errorMessage e |}
                    (handedOver filePath s1).
Proof.
  intros Hm Hreach He Hw. by rewrite encryptOne_past_check, He, Hw.
Qed.

Lemma encryptOne_success filePath s d s1 :
  mkdir W (Enc.onDisk s) (dirname (encPath filePath)) = None →
  encPath filePath ∉ Enc.onDisk s ∨ outputPolicy = overwrite →
  encryptFile W (Enc.onDisk s) filePath = Resolves d →
  writeOutputToFile W d (encPath filePath) outputFormat s = (Normal (), s1) →
  (encOne filePath s).2 = Enc.countEncrypted (handedOver filePath s1).
Proof.
  intros Hm Hreach He Hw. by rewrite encryptOne_past_check, He, Hw.
Qed.

(** When the output path is taken and the policy is not [overwrite], the
    iteration stops at the collision check: it makes the directory and
    asks whether the file exists, and calls nothing else. *)
Lemma encryptOne_collision filePath s :
  encPath filePath ∈ Enc.onDisk s →
  outputPolicy ≠ overwrite →
  (∃ e, mkdir W (Enc.onDisk s) (dirname (encPath filePath)) = Some e
        ∧ (encOne filePath s).2
          = Enc.pushFailure {| file := filePath; error := errorMessage e |}
              (Enc.called (CallMkdir (dirname (encPath filePath))) s))
  ∨ (mkdir W (Enc.onDisk s) (dirname (encPath filePath)) = None
     ∧ outputPolicy = skip
     ∧ (encOne filePath s).2 = Enc.countSkipped (checked filePath s))
  ∨ (mkdir W (Enc.onDisk s) (dirname (encPath filePath)) = None
     ∧ outputPolicy = abort
     ∧ (encOne filePath s).2
       = Enc.pushFailure
           {| file := filePath;
              error := str "Output file exists; aborting batch." |}
           (checked filePath s)).
Proof.
  intros Hin Hpol.
  unfold encryptOne, Enc.calling, tryCatch, mbind, M_bind, bind, awaitOn,
    await, fileExists, gets, modify.
  fold (encPath filePath). cbn [disk Enc.hasDisk Enc.onDisk Enc.called].
  destruct (mkdir W (Enc.onDisk s) (dirname (encPath filePath))) as [e|];
    simpl; [left; eauto|right].
  rewrite bool_decide_true by done. destruct outputPolicy; simpl; auto.
  done.
Qed.

(** A collision under [abort] ends the iteration, not the loop: the throw
    is caught by the [catch] of the iteration and recorded as a failure. *)
Lemma encryptOne_abort filePath s :
  mkdir W (Enc.onDisk s) (dirname (encPath filePath)) = None →
  encPath filePath ∈ Enc.onDisk s →
  outputPolicy = abort →
  (encOne filePath s).2
  = Enc.pushFailure
      {| file := filePath; error := str "Output file exists; aborting batch." |}
      (checked filePath s).
Proof.
  intros Hm Hin Hpol.
  destruct (encryptOne_collision filePath s Hin)
    as [(e & Hbad & _)|[(_ & Hskip & _)|(_ & _ & Heq)]];
    [by rewrite Hpol|congruence|congruence|done].
Qed.

End EncryptFacts.

(** ** The loop of [decryptFolder] *)

Section DecryptFacts.
Context `{PathModule} (W : World).
Variables (inputDir outputDir : jsstring).
Variables (formatHandling : FormatHandling) (outputPolicy : OutputPolicy).
Variable (verifySignatures : bool).

#[local] Abbreviation decOne :=
  (decryptOne W inputDir outputDir formatHandling outputPolicy verifySignatures).
#[local] Abbreviation decPath := (decryptOutputPath inputDir outputDir).

(** The state once the collision check is made, once the engine is
    called, once the result is handed to [writeOutputToFile]. *)
#[local] Abbreviation dchecked filePath s :=
  (Dec.called (CallExists (decPath filePath))
     (Dec.called (CallMkdir (dirname (decPath filePath))) s)).
#[local] Abbreviation dtransformed filePath s :=
  (Dec.called
     (CallDecryptFile filePath (resolveInputFormat filePath formatHandling)
                      verifySignatures)
     (dchecked filePath s)).
#[local] Abbreviation dhandedOver filePath s :=
  (Dec.called (CallWriteOutputToFile (decPath filePath) binary)
     (dtransformed filePath s)).

Lemma decryptOne_neverThrows filePath : neverThrows (decOne filePath).
Proof. apply tryCatch_modify_neverThrows. Qed.

Lemma decFrame_refl p s : decFrame p s s.
Proof. unfold decFrame. auto 6. Qed.

Lemma dec_write_frame data outputPath format s c s1 :
  writeOutputToFile W data outputPath format s = (c, s1) →
  decFrame outputPath s s1 ∧ c ≠ Continue.
Proof.
  intros Hw.
  destruct (writeOutputToFile_cases W data outputPath format s)
    as [Hc|(e & [Hc|Hc])]; rewrite Hc in Hw; injection Hw as <- <-;
    (split; [|done]); unfold decFrame; simpl; auto 6.
Qed.

(** Noting a call and writing a file go in either order. *)
Lemma dec_write_called c data outputPath format s :
  writeOutputToFile W data outputPath format (Dec.called c s)
  = ((writeOutputToFile W data outputPath format s).1,
     Dec.called c (writeOutputToFile W data outputPath format s).2).
Proof. by apply writeOutputToFile_under. Qed.

(** One iteration counts the file as decrypted (and, when its signature
    did not verify, lists it among the signature failures), as skipped or
    as failed, and nothing else changes but the files on disk and the
    calls noted. *)
Lemma decryptOne_cases filePath s :
  let s' := (decOne filePath s).2 in
  (∃ s1, decFrame (decPath filePath) s s1
         ∧ (s' = Dec.countDecrypted s1
            ∨ s' = Dec.pushSignatureFailure filePath (Dec.countDecrypted s1)))
  ∨ (∃ s1, decFrame (decPath filePath) s s1 ∧ s' = Dec.countSkipped s1)
  ∨ (∃ e s1, decFrame (decPath filePath) s s1
       ∧ s' = Dec.pushFailure
                {| file := filePath; error := errorMessage e |} s1).
Proof.
  cbv zeta. unfold decryptOne, Dec.calling, tryCatch, mbind, M_bind, bind,
    awaitOn, awaitValueOn, await, fileExists, gets, awaitValue, modify.
  fold (decPath filePath). cbn [disk Dec.hasDisk Dec.onDisk Dec.called].
  destruct (mkdir W (Dec.onDisk s) (dirname (decPath filePath))) as [e|]; simpl.
  { right; right. eexists e, _. split; [|done]. unfold decFrame. simpl.
    auto 6. }
  destruct (bool_decide (decPath filePath ∈ Dec.onDisk s)); simpl;
    [destruct outputPolicy; simpl|];
    repeat match goal with
      | |- context [decryptFile W ?d0 filePath ?f ?v] =>
          destruct (decryptFile W d0 filePath f v) as [d|e]; simpl
      | |- context [writeOutputToFile W ?d ?p ?f ?s0] =>
          let Hw := fresh "Hw" in
          destruct (writeOutputToFile W d p f s0) as [[[]| |e] s1] eqn:Hw;
          destruct (dec_write_frame _ _ _ _ _ _ Hw) as [Hf Hc]; simpl
      | |- context [verifySignatures && ?b] =>
          destruct (verifySignatures && b); simpl
      end;
    try done;
    first [ left; eexists; split; [|left; reflexivity];
            unfold decFrame in *; simpl in *; done
          | left; eexists; split; [|right; reflexivity];
            unfold decFrame in *; simpl in *; done
          | right; left; eexists; split; [|reflexivity];
            unfold decFrame; simpl; auto 6
          | right; right; eexists _, _; split; [|reflexivity];
            unfold decFrame in *; simpl in *; auto 6
          | right; right;
            exists (ErrorValue (str "Output file exists; aborting batch."));
            eexists; split; [|reflexivity]; unfold decFrame; simpl; auto 6 ].
Qed.

Lemma decryptOne_total filePath s :
  decTotal (decOne filePath s).2 = decTotal s + 1.
Proof.
  destruct (decryptOne_cases filePath s)
    as [(s1 & Hf & [->| ->])|[(s1 & Hf & ->)|(e & s1 & Hf & ->)]];
    destruct Hf as (Hc & Hs & Hf & _); unfold decTotal; simpl;
    rewrite ?length_app, ?Hc, ?Hs, ?Hf; simpl; lia.
Qed.

Lemma decryptLoop_total filteredFiles s :
  ∃ s', forOf decOne filteredFiles s = (Normal (), s')
        ∧ decTotal s' = decTotal s + length filteredFiles.
Proof.
  revert s. induction filteredFiles as [|f fs IH]; intros s.
  - exists s. split; [done|]. simpl. lia.
  - rewrite forOf_step by apply decryptOne_neverThrows.
    destruct (IH (decOne f s).2) as (s' & -> & Ht).
    exists s'. split; [done|]. rewrite Ht, decryptOne_total. simpl. lia.
Qed.

Lemma decryptOne_failures filePath s :
  Dec.failures (decOne filePath s).2 = Dec.failures s
  ∨ ∃ e, Dec.failures (decOne filePath s).2
         = Dec.failures s ++ [{| file := filePath; error := errorMessage e |}].
Proof.
  destruct (decryptOne_cases filePath s)
    as [(s1 & Hf & [->| ->])|[(s1 & Hf & ->)|(e & s1 & Hf & ->)]];
    destruct Hf as (Hc & Hs & Hf & _); simpl; rewrite ?Hf; eauto.
Qed.

Lemma decryptLoop_failures filteredFiles s :
  ∃ new, Dec.failures (forOf decOne filteredFiles s).2 = Dec.failures s ++ new
         ∧ sublist (map file new) filteredFiles.
Proof.
  revert s. induction filteredFiles as [|f fs IH]; intros s.
  - exists []. simpl. rewrite app_nil_r. split; [done|]. constructor.
  - rewrite forOf_step by apply decryptOne_neverThrows.
    destruct (IH (decOne f s).2) as (new & -> & Hsub).
    destruct (decryptOne_failures f s) as [->|[e ->]].
    + exists new. split; [done|]. by apply sublist_cons.
    + exists ({| file := f; error := errorMessage e |} :: new).
      rewrite <- app_assoc. split; [done|]. simpl. by apply sublist_skip.
Qed.

Lemma decryptOne_disk filePath s :
  Dec.onDisk s ⊆ Dec.onDisk (decOne filePath s).2.
Proof.
  destruct (decryptOne_cases filePath s)
    as [(s1 & Hf & [->| ->])|[(s1 & Hf & ->)|(e & s1 & Hf & ->)]];
    destruct Hf as (_ & _ & _ & _ & [Hd|Hd]); simpl; rewrite ?Hd;
    first [reflexivity | apply union_subseteq_r].
Qed.

Lemma decryptLoop_disk filteredFiles s :
  Dec.onDisk s ⊆ Dec.onDisk (forOf decOne filteredFiles s).2.
Proof.
  revert s. induction filteredFiles as [|f fs IH]; intros s; [done|].
  rewrite forOf_step by apply decryptOne_neverThrows.
  etrans; [apply (decryptOne_disk f)|apply IH].
Qed.

(** Past the collision check, the iteration is the transform, the write
    and the look at the signature, with the calls made until then
    noted. *)
Lemma decryptOne_past_check filePath s :
  mkdir W (Dec.onDisk s) (dirname (decPath filePath)) = None →
  decPath filePath ∉ Dec.onDisk s ∨ outputPolicy = overwrite →
  (decOne filePath s).2
  = match decryptFile W (Dec.onDisk s) filePath
            (resolveInputFormat filePath formatHandling) verifySignatures with
    | Rejects e =>
        Dec.pushFailure {| file := filePath; error := errorMessage e |}
                        (dtransformed filePath s)
    | Resolves r =>
        match writeOutputToFile W (data r) (decPath filePath) binary s with
        | (Normal _, s1) =>
            if verifySignatures && bool_decide (verified r = Some false)
            then Dec.pushSignatureFailure filePath
                   (Dec.countDecrypted (dhandedOver filePath s1))
            else Dec.countDecrypted (dhandedOver filePath s1)
        | (Continue, s1) => dhandedOver filePath s1
        | (Throw e, s1) =>
            Dec.pushFailure {| file := filePath; error := errorMessage e |}
                            (dhandedOver filePath s1)
        end
    end.
Proof.
  intros Hm Hreach.
  unfold decryptOne, Dec.calling, tryCatch, mbind, M_bind, bind,
    awaitOn, awaitValueOn, await, fileExists, gets, awaitValue, modify.
  fold (decPath filePath). cbn [disk Dec.hasDisk Dec.onDisk Dec.called].
  rewrite Hm. simpl.
  destruct (decryptFile W (Dec.onDisk s) filePath
              (resolveInputFormat filePath formatHandling) verifySignatures)
    as [r|e] eqn:Hd.
  - destruct Hreach as [Hno| ->];
      [rewrite bool_decide_false by done
      |destruct (bool_decide (decPath filePath ∈ _))];
      simpl; rewrite Hd; simpl; rewrite !dec_write_called; simpl;
      destruct (writeOutputToFile W (data r) (decPath filePath) binary s)
        as [[[]| |e] s1]; simpl; try done;
      by destruct (verifySignatures && bool_decide (verified r = Some false)).
  - destruct Hreach as [Hno| ->];
      [rewrite bool_decide_false by done
      |destruct (bool_decide (decPath filePath ∈ _))];
      simpl; rewrite Hd; done.
Qed.

(** A failing transform or write, once the collision check is passed,
    ends the iteration with a failure record. *)
Lemma decryptOne_engine_rejects filePath s e :
  mkdir W (Dec.onDisk s) (dirname (decPath filePath)) = None →
  decPath filePath ∉ Dec.onDisk s ∨ outputPolicy = overwrite →
  decryptFile W (Dec.onDisk s) filePath
              (resolveInputFormat filePath formatHandling) verifySignatures
  = Rejects e →
  (decOne filePath s).2
  = Dec.pushFailure {| file := filePath; error := errorMessage e |}
                    (dtransformed filePath s).
Proof.
  intros Hm Hreach Hd. by rewrite decryptOne_past_check, Hd.
Qed.

Lemma decryptOne_write_throws filePath s r e s1 :
  mkdir W (Dec.onDisk s) (dirname (decPath filePath)) = None →
  decPath filePath ∉ Dec.onDisk s ∨ outputPolicy = overwrite →
  decryptFile W (Dec.onDisk s) filePath
              (resolveInputFormat filePath formatHandling) verifySignatures
  = Resolves r →
  writeOutputToFile W (data r) (decPath filePath) binary s = (Throw e, s1) →
  (decOne filePath s).2
  = Dec.pushFailure {| file := filePath; error := errorMessage e |}
                    (dhandedOver filePath s1).
Proof.
  intros Hm Hreach Hd Hw. by rewrite decryptOne_past_check, Hd, Hw.
Qed.

Lemma decryptOne_success filePath s r s1 :
  mkdir W (Dec.onDisk s) (dirname (decPath filePath)) = None →
  decPath filePath ∉ Dec.onDisk s ∨ outputPolicy = overwrite →
  decryptFile W (Dec.onDisk s) filePath
              (resolveInputFormat filePath formatHandling) verifySignatures
  = Resolves r →
  writeOutputToFile W (data r) (decPath filePath) binary s = (Normal (), s1) →
  verifySignatures = false ∨ verified r ≠ Some false →
  (decOne filePath s).2 = Dec.countDecrypted (dhandedOver filePath s1).
Proof.
  intros Hm Hreach Hd Hw Hver.
  rewrite decryptOne_past_check, Hd, Hw by done.
  destruct Hver as [->|Hv]; [done|].
  rewrite bool_decide_false by done. by rewrite andb_false_r.
Qed.

(** A signature that did not verify is noted after the file has been
    counted as decrypted. *)
Lemma decryptOne_signature_failure filePath s r s1 :
  verifySignatures = true →
  mkdir W (Dec.onDisk s) (dirname (decPath filePath)) = None →
  decPath filePath ∉ Dec.onDisk s ∨ outputPolicy = overwrite →
  decryptFile W (Dec.onDisk s) filePath
               (resolveInputFormat filePath formatHandling)
              verifySignatures = Resolves r →
  verified r = Some false →
  writeOutputToFile W (data r) (decPath filePath) binary s = (Normal (), s1) →
  (decOne filePath s).2
  = Dec.pushSignatureFailure filePath
      (Dec.countDecrypted (dhandedOver filePath s1)).
Proof.
  intros Hv Hm Hreach Hd Hver Hw.
  rewrite decryptOne_past_check, Hd, Hw by done.
  by rewrite Hv, Hver.
Qed.

(** When the output path is taken and the policy is not [overwrite], the
    iteration stops at the collision check: it makes the directory and
    asks whether the file exists, and calls nothing else. *)
Lemma decryptOne_collision filePath s :
  decPath filePath ∈ Dec.onDisk s →
  outputPolicy ≠ overwrite →
  (∃ e, mkdir W (Dec.onDisk s) (dirname (decPath filePath)) = Some e
        ∧ (decOne filePath s).2
          = Dec.pushFailure {| file := filePath; error := errorMessage e |}
              (Dec.called (CallMkdir (dirname (decPath filePath))) s))
  ∨ (mkdir W (Dec.onDisk s) (dirname (decPath filePath)) = None
     ∧ outputPolicy = skip
     ∧ (decOne filePath s).2 = Dec.countSkipped (dchecked filePath s))
  ∨ (mkdir W (Dec.onDisk s) (dirname (decPath filePath)) = None
     ∧ outputPolicy = abort
     ∧ (decOne filePath s).2
       = Dec.pushFailure
           {| file := filePath;
              error := str "Output file exists; aborting batch." |}
           (dchecked filePath s)).
Proof.
  intros Hin Hpol.
  unfold decryptOne, Dec.calling, tryCatch, mbind, M_bind, bind, awaitOn,
    await, fileExists, gets, modify.
  fold (decPath filePath). cbn [disk Dec.hasDisk Dec.onDisk Dec.called].
  destruct (mkdir W (Dec.onDisk s) (dirname (decPath filePath))) as [e|];
    simpl; [left; eauto|right].
  rewrite bool_decide_true by done. destruct outputPolicy; simpl; auto.
  done.
Qed.

(** As in [encryptFolder], a collision under [abort] is recorded as a
    failure of that file. *)
Lemma decryptOne_abort filePath s :
  mkdir W (Dec.onDisk s) (dirname (decPath filePath)) = None →
  decPath filePath ∈ Dec.onDisk s →
  outputPolicy = abort →
  (decOne filePath s).2
  = Dec.pushFailure
      {| file := filePath; error := str "Output file exists; aborting batch." |}
      (dchecked filePath s).
Proof.
  intros Hm Hin Hpol.
  destruct (decryptOne_collision filePath s Hin)
    as [(e & Hbad & _)|[(_ & Hskip & _)|(_ & _ & Heq)]];
    [by rewrite Hpol|congruence|congruence|done].
Qed.

End DecryptFacts.


(** ** The streaming loop *)

(** The loop only reads, writes and awaits writes. *)
Lemma pump_pumping w n values ending :
  Forall isPumping (pump w n values ending).1.
Proof.
  revert n. induction values as [|[value|] rest IH]; intros n; simpl.
  - by repeat constructor.
  - destruct (onWrite w n) as [|[e|]|e]; simpl; repeat constructor; apply IH.
  - constructor; [done|apply IH].
Qed.

(** Within the loop every pending write is awaited at once, and the loop
    never ends on a pending write. *)
Lemma pump_backPressured w n values ending after :
  backPressured ((pump w n values ending).1 ++ after) = backPressured after.
Proof.
  revert n. induction values as [|[value|] rest IH]; intros n; simpl.
  - done.
  - destruct (onWrite w n) as [|[e|]|e]; simpl; auto.
  - apply IH.
Qed.

Lemma release_backPressured w src : backPressured (release w src).1 = true.
Proof.
  unfold release. destruct (hasReleaseLock src), (onEnd w); done.
Qed.

Lemma release_shape w src :
  hasReleaseLock src = true →
  ∃ closing, (release w src).1 = EvReleaseLock :: closing
             ∧ (closing = [EvEnd false] ∨ closing = [EvEnd true; EvAwaitEnd]).
Proof.
  intros Hr. unfold release. rewrite Hr.
  destruct (onEnd w); simpl; eauto.
Qed.

(** What the caller sees once the reader is obtained and the writer
    opened: the error of the finalisation if it fails, else that of the
    loop, else success. *)
Lemma streamToFile_outcome w src :
  getReader src = None →
  (streamToFile (Opens w) src).2
  = match (release w src).2 with
    | Some e => Some e
    | None => (pump w 0 (chunks src) (ending src)).2
    end.
Proof. intros Hr. unfold streamToFile. by rewrite Hr. Qed.

(** The trace of a run in which the [try] statement is entered. *)
Lemma streamToFile_entered w src :
  getReader src = None →
  (streamToFile (Opens w) src).1
  = EvGetReader :: EvWriter
      :: (pump w 0 (chunks src) (ending src)).1 ++ (release w src).1.
Proof. intros Hr. unfold streamToFile. by rewrite Hr. Qed.

(** ** The directory walk *)

Lemma Dirent_ind (P : Dirent → Prop) :
  (∀ name, P (RegularFile name)) →
  (∀ name entries, Forall P entries → P (Directory name entries)) →
  (∀ name, P (OtherEntry name)) →
  ∀ entry, P entry.
Proof.
  intros Hfile Hdir Hother. fix IH 1. intros [name|name entries|name].
  - apply Hfile.
  - apply Hdir. induction entries as [|e es IHes]; constructor; [apply IH|apply IHes].
  - apply Hother.
Qed.

Section WalkerFacts.
Context `{PathModule}.

Lemma forEntries_cons body entry rest :
  forEntries body (entry :: rest)
  = ((body entry).1 ++ (forEntries body rest).1,
     (body entry).2 ++ (forEntries body rest).2).
Proof. reflexivity. Qed.

Lemma forEntries_files body entries p :
  p ∈ (forEntries body entries).1 ↔ ∃ entry, entry ∈ entries ∧ p ∈ (body entry).1.
Proof.
  induction entries as [|e es IH].
  - simpl. split; [by intros ?%elem_of_nil|intros (e & ?%elem_of_nil & _); done].
  - rewrite forEntries_cons. simpl. rewrite elem_of_app, IH. split.
    + intros [Hp|(e' & He' & Hp)]; [exists e|exists e']; split; auto;
        [by left|by right].
    + intros (e' & [->|He']%elem_of_cons & Hp); [by left|right; eauto].
Qed.

Lemma forEntries_dirs body entries p :
  p ∈ (forEntries body entries).2 ↔ ∃ entry, entry ∈ entries ∧ p ∈ (body entry).2.
Proof.
  induction entries as [|e es IH].
  - simpl. split; [by intros ?%elem_of_nil|intros (e & ?%elem_of_nil & _); done].
  - rewrite forEntries_cons. simpl. rewrite elem_of_app, IH. split.
    + intros [Hp|(e' & He' & Hp)]; [exists e|exists e']; split; auto;
        [by left|by right].
    + intros (e' & [->|He']%elem_of_cons & Hp); [by left|right; eauto].
Qed.

Lemma visitEntry_eq rootDir excludeDir entry :
  visitEntry rootDir excludeDir entry
  = let normalizedExclude := normalizeExclude excludeDir in
    let entryPath := join rootDir (entryName entry) in
    if isExcluded normalizedExclude (resolve entryPath) then ([], [])
    else match entry with
         | Directory _ sub =>
             let r := walk entryPath normalizedExclude sub in
             (r.1, entryPath :: r.2)
         | RegularFile _ => ([entryPath], [])
         | OtherEntry _ => ([], [])
         end.
Proof. by destruct entry. Qed.

(** Only plain files are yielded, each under the path formed for it. *)
Lemma visitEntry_fileUnder entry :
  ∀ rootDir excludeDir p,
    p ∈ (visitEntry rootDir excludeDir entry).1 →
    fileUnder rootDir [entry] p.
Proof.
  induction entry as [name|name sub IH|name] using Dirent_ind;
    intros rootDir excludeDir p; rewrite visitEntry_eq; cbv zeta;
    destruct (isExcluded _ _); simpl; try by intros ?%elem_of_nil.
  - intros ->%list_elem_of_singleton. apply file_here. by left.
  - unfold walk. intros (e & He & Hp)%forEntries_files.
    rewrite Forall_forall in IH. specialize (IH e He _ _ _ Hp).
    apply file_below with name sub; [by left|].
    inversion IH as [? ? n Hn|? ? n sub' p' Hn Hp']; subst;
      apply list_elem_of_singleton in Hn as <-.
    + by apply file_here.
    + by apply file_below with n sub'.
Qed.

Lemma listFilesRecursive_fileUnder rootDir excludeDir entries p :
  p ∈ listFilesRecursive rootDir excludeDir entries →
  fileUnder rootDir entries p.
Proof.
  unfold listFilesRecursive, walk. intros (e & He & Hp)%forEntries_files.
  apply visitEntry_fileUnder in Hp.
  inversion Hp as [? ? n Hn|? ? n sub' p' Hn Hp']; subst;
    apply list_elem_of_singleton in Hn as <-.
  - by apply file_here.
  - by apply file_below with n sub'.
Qed.

(** Re-normalising the exclusion on the way down changes nothing when
    [resolve] is idempotent. *)
Hypothesis resolve_idem : ∀ p, resolve (resolve p) = resolve p.

Lemma isExcluded_renormalize excludeDir r :
  isExcluded (normalizeExclude (normalizeExclude excludeDir)) r
  = isExcluded (normalizeExclude excludeDir) r.
Proof.
  destruct excludeDir as [e|]; [|done]. simpl.
  destruct (JS.truthy e); [|done]. simpl.
  destruct (JS.truthy (resolve e)) eqn:Ht; simpl;
    rewrite ?resolve_idem, ?Ht; done.
Qed.

(** Whatever the walk yields or descends into passed the exclusion test. *)
Lemma visitEntry_passed entry :
  ∀ rootDir excludeDir p,
    p ∈ (visitEntry rootDir excludeDir entry).1
    ∨ p ∈ (visitEntry rootDir excludeDir entry).2 →
    isExcluded (normalizeExclude excludeDir) (resolve p) = false.
Proof.
  induction entry as [name|name sub IH|name] using Dirent_ind;
    intros rootDir excludeDir p; rewrite visitEntry_eq; cbv zeta;
    destruct (isExcluded _ _) eqn:Hex; simpl;
    try by intros [?%elem_of_nil|?%elem_of_nil].
  - intros [->%list_elem_of_singleton|?%elem_of_nil]; done.
  - rewrite Forall_forall in IH. unfold walk.
    intros [(e & He & Hp)%forEntries_files
           |[->|(e & He & Hp)%forEntries_dirs]%elem_of_cons]; [|done|].
    + rewrite <- isExcluded_renormalize. eapply IH; eauto.
    + rewrite <- isExcluded_renormalize. eapply IH; eauto.
Qed.

Lemma walk_passed rootDir excludeDir entries p :
  p ∈ listFilesRecursive rootDir excludeDir entries
  ∨ p ∈ directoriesEntered rootDir excludeDir entries →
  isExcluded (normalizeExclude excludeDir) (resolve p) = false.
Proof.
  unfold listFilesRecursive, directoriesEntered, walk.
  intros [(e & He & Hp)%forEntries_files|(e & He & Hp)%forEntries_dirs];
    eapply visitEntry_passed; eauto.
Qed.

End WalkerFacts.

(** ** The POSIX path functions *)

Module PosixFacts.
Import Posix.

Lemma split_cons_eq sep c s :
  JS.split sep (c :: s)
  = if bool_decide (c = sep) then [] :: JS.split sep s
    else match JS.split sep s with
         | h :: t => (c :: h) :: t
         | [] => [[c]]
         end.
Proof. reflexivity. Qed.

Lemma split_nonempty sep s : JS.split sep s ≠ [].
Proof.
  destruct s as [|c s]; [done|]. rewrite split_cons_eq.
  destruct (bool_decide _); [done|]. by destruct (JS.split sep s).
Qed.

Lemma split_no_sep sep s : Forall (λ seg, sep ∉ seg) (JS.split sep s).
Proof.
  induction s as [|c s IH]; simpl.
  - repeat constructor. by intros ?%elem_of_nil.
  - destruct (bool_decide (c = sep)) eqn:Hc.
    + constructor; [by intros ?%elem_of_nil|done].
    + apply bool_decide_eq_false in Hc.
      pose proof (split_nonempty sep s) as Hne.
      destruct (JS.split sep s) as [|h t]; [done|].
      inversion IH; subst. constructor; [|done].
      intros [?|?]%elem_of_cons; congruence.
Qed.

Lemma split_app sep a b :
  JS.split sep (a ++ sep :: b) = JS.split sep a ++ JS.split sep b.
Proof.
  induction a as [|c a IH]; simpl.
  - by rewrite bool_decide_true.
  - destruct (bool_decide (c = sep)); rewrite IH; [done|].
    pose proof (split_nonempty sep a) as Hne.
    by destruct (JS.split sep a) as [|h t].
Qed.

Lemma split_segment sep seg : sep ∉ seg → JS.split sep seg = [seg].
Proof.
  induction seg as [|c seg IH]; [done|]. intros Hn.
  rewrite split_cons_eq, bool_decide_false, IH; [done| |].
  - intros Hs. apply Hn. by right.
  - intros ->. apply Hn. by left.
Qed.

Lemma joinSegs_cons s rest :
  rest ≠ [] → joinSegs (s :: rest) = s ++ slash :: joinSegs rest.
Proof. by destruct rest. Qed.

Lemma split_joinSegs segs :
  segs ≠ [] → Forall (λ seg, slash ∉ seg) segs →
  JS.split slash (joinSegs segs) = segs.
Proof.
  induction segs as [|s rest IH]; [done|]. intros _ Hall.
  inversion Hall as [|? ? Hs Hrest]; subst.
  destruct rest as [|s' rest'].
  - simpl. by apply split_segment.
  - rewrite joinSegs_cons by done. rewrite split_app, split_segment by done.
    rewrite IH by done. done.
Qed.

Lemma joinSegs_app xs ys :
  xs ≠ [] → ys ≠ [] →
  joinSegs (xs ++ ys) = joinSegs xs ++ slash :: joinSegs ys.
Proof.
  induction xs as [|x xs IH]; [done|]. intros _ Hys.
  destruct xs as [|x' xs'].
  - simpl. by destruct ys.
  - change ((x :: x' :: xs') ++ ys) with (x :: ((x' :: xs') ++ ys)).
    rewrite !joinSegs_cons by done. rewrite IH by done.
    by rewrite <- app_assoc.
Qed.

Lemma normSegs_normal acc segs :
  Forall normalSeg acc → Forall (λ seg, slash ∉ seg) segs →
  Forall normalSeg (normSegs false acc segs).
Proof.
  revert acc. induction segs as [|s rest IH]; intros acc Hacc Hsegs; simpl.
  - by apply Forall_rev.
  - inversion Hsegs as [|? ? Hs Hrest]; subst.
    destruct (bool_decide (s = [])) eqn:H1; simpl; [by apply IH|].
    destruct (bool_decide (s = [dot])) eqn:H2; simpl; [by apply IH|].
    destruct (bool_decide (s = [dot; dot])) eqn:H3.
    + destruct acc as [|top acc']; [by apply IH|].
      inversion Hacc; subst.
      destruct (bool_decide (top = [dot; dot])); by apply IH.
    + apply bool_decide_eq_false in H1, H2, H3.
      apply IH; [|done]. constructor; [|done]. done.
Qed.

Lemma normSegs_of_normal b acc segs :
  Forall normalSeg segs → normSegs b acc segs = rev acc ++ segs.
Proof.
  revert acc. induction segs as [|s rest IH]; intros acc Hsegs; simpl.
  - by rewrite app_nil_r.
  - inversion Hsegs as [|? ? (H1 & H2 & H3 & _) Hrest]; subst.
    rewrite !bool_decide_false by done. simpl.
    rewrite IH by done. simpl. by rewrite <- app_assoc.
Qed.

Lemma normSegs_skip_empty b acc segs :
  normSegs b acc ([] :: segs) = normSegs b acc segs.
Proof. reflexivity. Qed.

Lemma normSegs_app b acc xs ys :
  Forall normalSeg xs →
  normSegs b acc (xs ++ ys) = normSegs b (rev xs ++ acc) ys.
Proof.
  revert acc. induction xs as [|s rest IH]; intros acc Hxs; [done|].
  inversion Hxs as [|? ? (H1 & H2 & H3 & _) Hrest]; subst. simpl.
  rewrite !bool_decide_false by done. simpl.
  rewrite IH by done. by rewrite <- app_assoc.
Qed.

(** The segments of [/seg/seg/...] in normal form. *)
Lemma segments_rooted segs :
  Forall normalSeg segs → segments (slash :: joinSegs segs) = segs.
Proof.
  intros Hn. unfold segments. rewrite split_cons_eq, bool_decide_true by done.
  simpl. destruct segs as [|s rest]; [done|].
  rewrite split_joinSegs; [|done|].
  - clear -Hn. induction Hn as [|x l (Hx & _) _ IH]; [done|].
    simpl. destruct x; [done|]. simpl. by rewrite IH.
  - eapply Forall_impl; [exact Hn|]. by intros x (_ & _ & _ & ?).
Qed.

Section Resolve.
Variable cwd : jsstring.
Hypothesis cwd_absolute : isAbsolute cwd = true.

(** [resolve] yields [/] followed by segments in normal form. *)
Lemma resolve1_rooted p :
  ∃ segs, Forall normalSeg segs ∧ resolve1 cwd p = slash :: joinSegs segs.
Proof.
  unfold resolve1, resolveAll. change (rev [p]) with [p].
  assert (∃ x, resolveLoop cwd [p] [] = (x, true)) as [x ->].
  { simpl. destruct p as [|c p].
    - destruct cwd; [done|]. rewrite cwd_absolute. eauto.
    - destruct (isAbsolute (c :: p)); [eauto|].
      destruct cwd; [done|]. rewrite cwd_absolute. eauto. }
  simpl. eexists. split; [|reflexivity].
  apply normSegs_normal; [constructor|apply split_no_sep].
Qed.

Lemma resolve1_of_rooted segs :
  Forall normalSeg segs →
  resolve1 cwd (slash :: joinSegs segs) = slash :: joinSegs segs.
Proof.
  intros Hn. unfold resolve1, resolveAll. change (rev [?x]) with [x].
  cbn [resolveLoop isAbsolute]. rewrite bool_decide_true by done.
  cbn [negb app]. unfold normalizeString. f_equal. f_equal.
  rewrite split_cons_eq, bool_decide_true by done.
  rewrite normSegs_skip_empty.
  replace (joinSegs segs ++ [slash]) with (joinSegs segs ++ slash :: []) by done.
  rewrite split_app. simpl.
  destruct segs as [|s rest]; [done|].
  rewrite split_joinSegs; [|done|].
  - rewrite normSegs_app by done.
    change (normSegs false ?acc [[]]) with (rev acc).
    by rewrite app_nil_r, rev_involutive.
  - eapply Forall_impl; [exact Hn|]. by intros y (_ & _ & _ & ?).
Qed.

Lemma resolve1_idem p : resolve1 cwd (resolve1 cwd p) = resolve1 cwd p.
Proof.
  destruct (resolve1_rooted p) as (segs & Hn & ->).
  by apply resolve1_of_rooted.
Qed.

End Resolve.

Lemma startsWith_app p s : JS.startsWith p (p ++ s) = true.
Proof.
  induction p as [|c p IH]; [done|]. simpl.
  by rewrite bool_decide_true, IH.
Qed.

(** For resolved paths, below a path other than the root, lying at or
    under it is what the test of the walk detects. *)
Lemma under_detected ex p :
  Forall normalSeg ex → Forall normalSeg p → ex ≠ [] →
  ex `prefix_of` p →
  slash :: joinSegs p = slash :: joinSegs ex
  ∨ JS.startsWith ((slash :: joinSegs ex) ++ [slash]) (slash :: joinSegs p) = true.
Proof.
  intros Hex Hp Hne [rest ->].
  destruct rest as [|r rest]; [left; by rewrite app_nil_r|right].
  rewrite joinSegs_app by done.
  change (slash :: joinSegs ex ++ slash :: joinSegs (r :: rest))
    with ((slash :: joinSegs ex) ++ [slash] ++ joinSegs (r :: rest)).
  rewrite app_assoc. apply startsWith_app.
Qed.

End PosixFacts.

(** The walk under POSIX paths prunes the excluded directory and all
    below it, provided that directory is not the root of the file system:
    nothing yielded, and no directory descended into, lies at or under
    it. *)
Lemma posix_walk_prunes_excluded (cwd rootDir exclude : jsstring)
  (entries : list Dirent) (p : jsstring) :
  let posix := Posix.module cwd in
  Posix.isAbsolute cwd = true →
  exclude ≠ [] →
  Posix.segments (resolve exclude) ≠ [] →
  p ∈ listFilesRecursive rootDir (Some exclude) entries
  ∨ p ∈ directoriesEntered rootDir (Some exclude) entries →
  ¬ isOrUnder (resolve exclude) (resolve p).
Proof.
  intros posix Hcwd Hex Hroot Hp Hunder.
  pose proof (walk_passed (PosixFacts.resolve1_idem cwd Hcwd)
                          rootDir (Some exclude) entries p Hp) as Hpass.
  simpl in Hpass, Hunder, Hroot. unfold isOrUnder in Hunder.
  destruct (PosixFacts.resolve1_rooted cwd Hcwd exclude) as (ne & Hne & He).
  destruct (PosixFacts.resolve1_rooted cwd Hcwd p) as (np & Hnp & Hr).
  rewrite He, Hr in *. clear He Hr.
  rewrite !PosixFacts.segments_rooted in * by done.
  destruct exclude as [|c exclude]; [done|]. simpl in Hpass.
  apply orb_false_iff in Hpass as [Hneq Hstarts].
  apply bool_decide_eq_false in Hneq.
  destruct (PosixFacts.under_detected ne np Hne Hnp Hroot Hunder)
    as [Heq|Hs]; [done|].
  simpl in Hs. congruence.
Qed.

(** * The claims of the design document *)

(** C1.  The design document has a collision under [abort] end the batch
    at once, with no failure entry for that file and no later file
    processed.  The loop does otherwise: with four files, the output of
    the third already there and the policy [abort], that file is recorded
    as a failure, the fourth is still processed and the run reports
    completion.  The same happens in [decryptFolder]. *)
Theorem C1_abort_collision_is_caught_per_file :
  let posix := Posix.module (str "/") in
  let enc := encryptFolder calmWorld (str "/in") (str "/out") armored abort
               (str "") fourFiles {[ str "/out/c.txt.asc" ]} in
  let dec := decryptFolder calmWorld (str "/in") (str "/out") auto abort true
               (str "") fourEncrypted {[ str "/out/c.txt" ]} in
  (enc.1 = Complete
   ∧ Enc.encryptedCount enc.2 = 3
   ∧ Enc.skippedCount enc.2 = 0
   ∧ Enc.failures enc.2
     = [{| file := str "/in/c.txt";
           error := str "Output file exists; aborting batch." |}]
   ∧ str "/out/d.txt.asc" ∈ Enc.onDisk enc.2)
  ∧ (dec.1 = Complete
     ∧ Dec.decryptedCount dec.2 = 3
     ∧ Dec.skippedCount dec.2 = 0
     ∧ Dec.failures dec.2
       = [{| file := str "/in/c.txt.pgp";
             error := str "Output file exists; aborting batch." |}]
     ∧ str "/out/d.txt" ∈ Dec.onDisk dec.2).
Proof.
  cbv zeta. split; split_and!; vm_compute; reflexivity.
Qed.

(** C2.  A file whose transform or whose write fails gets one record
    appended to [failures]: the path of the file with the message of
    the error, or with [Unknown error] when what was thrown is no
    [Error].  The loop goes on with the next file; the failure touches
    no counter and no earlier record, and on disk at most the file's own
    output path.  Over a whole run the records added name files of the
    list, in its order, one for every file that is counted neither as
    processed nor as skipped.  This holds in [encryptFolder] and in
    [decryptFolder]. *)
Theorem C2_failure_is_recorded_and_batch_continues `{PathModule} (W : World)
  (inputDir outputDir : jsstring) (outputFormat : PgpOutputFormat)
  (formatHandling : FormatHandling) (outputPolicy : OutputPolicy)
  (verifySignatures : bool) :
  let encOne := encryptOne W inputDir outputDir outputFormat outputPolicy in
  let decOne := decryptOne W inputDir outputDir formatHandling outputPolicy
                           verifySignatures in
  (∀ filePath rest s e s1,
     let outputPath := encryptOutputPath inputDir outputDir outputFormat filePath in
     mkdir W (Enc.onDisk s) (dirname outputPath) = None →
     outputPath ∉ Enc.onDisk s ∨ outputPolicy = overwrite →
     (encryptFile W (Enc.onDisk s) filePath = Rejects e ∧ s1 = s)
     ∨ (∃ d, encryptFile W (Enc.onDisk s) filePath = Resolves d
             ∧ writeOutputToFile W d outputPath outputFormat s = (Throw e, s1)) →
     ∃ s',
       forOf encOne (filePath :: rest) s = forOf encOne rest s'
       ∧ Enc.failures s'
         = Enc.failures s
           ++ [{| file := filePath;
                  error := match e with
                           | ErrorValue message => message
                           | OtherValue => str "Unknown error"
                           end |}]
       ∧ Enc.encryptedCount s' = Enc.encryptedCount s
       ∧ Enc.skippedCount s' = Enc.skippedCount s
       ∧ Enc.onDisk s' = Enc.onDisk s1
       ∧ (Enc.onDisk s1 = Enc.onDisk s
          ∨ Enc.onDisk s1 = {[outputPath]} ∪ Enc.onDisk s))
  ∧ (∀ filePath rest s e s1,
       let outputPath := decryptOutputPath inputDir outputDir filePath in
       let format := resolveInputFormat filePath formatHandling in
       mkdir W (Dec.onDisk s) (dirname outputPath) = None →
       outputPath ∉ Dec.onDisk s ∨ outputPolicy = overwrite →
       (decryptFile W (Dec.onDisk s) filePath format verifySignatures
        = Rejects e ∧ s1 = s)
       ∨ (∃ r, decryptFile W (Dec.onDisk s) filePath format verifySignatures
               = Resolves r
               ∧ writeOutputToFile W (data r) outputPath binary s = (Throw e, s1)) →
       ∃ s',
         forOf decOne (filePath :: rest) s = forOf decOne rest s'
         ∧ Dec.failures s'
           = Dec.failures s
             ++ [{| file := filePath;
                    error := match e with
                             | ErrorValue message => message
                             | OtherValue => str "Unknown error"
                             end |}]
         ∧ Dec.decryptedCount s' = Dec.decryptedCount s
         ∧ Dec.skippedCount s' = Dec.skippedCount s
         ∧ Dec.signatureFailures s' = Dec.signatureFailures s
         ∧ Dec.onDisk s' = Dec.onDisk s1
         ∧ (Dec.onDisk s1 = Dec.onDisk s
            ∨ Dec.onDisk s1 = {[outputPath]} ∪ Dec.onDisk s))
  ∧ (∀ filteredFiles s,
       let s' := (forOf encOne filteredFiles s).2 in
       ∃ new, Enc.failures s' = Enc.failures s ++ new
              ∧ sublist (map file new) filteredFiles
              ∧ Enc.encryptedCount s' + Enc.skippedCount s' + length new
                = Enc.encryptedCount s + Enc.skippedCount s
                  + length filteredFiles)
  ∧ (∀ filteredFiles s,
       let s' := (forOf decOne filteredFiles s).2 in
       ∃ new, Dec.failures s' = Dec.failures s ++ new
              ∧ sublist (map file new) filteredFiles
              ∧ Dec.decryptedCount s' + Dec.skippedCount s' + length new
                = Dec.decryptedCount s + Dec.skippedCount s
                  + length filteredFiles).
Proof.
  cbv zeta. split_and!.
  - intros filePath rest s e s1 Hm Hreach Hfail.
    rewrite forOf_step by apply encryptOne_neverThrows.
    eexists. split; [reflexivity|].
    destruct Hfail as [[He ->]|(d & He & Hw)].
    + rewrite (encryptOne_engine_rejects W _ _ _ _ filePath s e) by done.
      simpl. split_and!; first [done | by destruct e | by left].
    + rewrite (encryptOne_write_throws W _ _ _ _ filePath s d e s1) by done.
      apply enc_write_frame in Hw as [(Hc & Hs & Hf & Hd) _].
      simpl. rewrite Hf. split_and!; first [done | by destruct e].
  - intros filePath rest s e s1 Hm Hreach Hfail.
    rewrite forOf_step by apply decryptOne_neverThrows.
    eexists. split; [reflexivity|].
    destruct Hfail as [[He ->]|(r & He & Hw)].
    + rewrite (decryptOne_engine_rejects W _ _ _ _ _ filePath s e) by done.
      simpl. split_and!; first [done | by destruct e | by left].
    + rewrite (decryptOne_write_throws W _ _ _ _ _ filePath s r e s1) by done.
      apply dec_write_frame in Hw as [(Hc & Hs & Hf & Hg & Hd) _].
      simpl. rewrite Hf. split_and!; first [done | by destruct e].
  - intros filteredFiles s.
    destruct (encryptLoop_failures W inputDir outputDir outputFormat
                outputPolicy filteredFiles s) as (new & Hnew & Hsub).
    destruct (encryptLoop_total W inputDir outputDir outputFormat
                outputPolicy filteredFiles s) as (s' & Hloop & Htotal).
    exists new. split_and!; [done..|].
    rewrite Hloop in *. unfold encTotal in Htotal. simpl in *.
    rewrite Hnew, length_app in Htotal. lia.
  - intros filteredFiles s.
    destruct (decryptLoop_failures W inputDir outputDir formatHandling
                outputPolicy verifySignatures filteredFiles s)
      as (new & Hnew & Hsub).
    destruct (decryptLoop_total W inputDir outputDir formatHandling
                outputPolicy verifySignatures filteredFiles s)
      as (s' & Hloop & Htotal).
    exists new. split_and!; [done..|].
    rewrite Hloop in *. unfold decTotal in Htotal. simpl in *.
    rewrite Hnew, length_app in Htotal. lia.
Qed.

Lemma C2_witness :
  let posix := Posix.module (str "/") in
  let W := brokenFileWorld (str "/in/b.txt") in
  let encOne := encryptOne W (str "/in") (str "/out") armored skip in
  let s := Enc.start ∅ in
  let e := ErrorValue (str "Error encrypting message") in
  mkdir W (Enc.onDisk s) (dirname (str "/out/b.txt.asc")) = None
  ∧ (str "/out/b.txt.asc" ∉ Enc.onDisk s ∨ skip = overwrite)
  ∧ ((encryptFile W (Enc.onDisk s) (str "/in/b.txt") = Rejects e ∧ s = s)
     ∨ (∃ d, encryptFile W (Enc.onDisk s) (str "/in/b.txt") = Resolves d
             ∧ writeOutputToFile W d (str "/out/b.txt.asc") armored s
               = (Throw e, s)))
  ∧ ∃ s',
      forOf encOne [str "/in/b.txt"; str "/in/c.txt"] s
      = forOf encOne [str "/in/c.txt"] s'
      ∧ Enc.failures s'
        = Enc.failures s
          ++ [{| file := str "/in/b.txt";
                 error := str "Error encrypting message" |}]
      ∧ Enc.encryptedCount s' = Enc.encryptedCount s
      ∧ Enc.skippedCount s' = Enc.skippedCount s
      ∧ Enc.onDisk s' = Enc.onDisk s
      ∧ (Enc.onDisk s = Enc.onDisk s
         ∨ Enc.onDisk s = {[ str "/out/b.txt.asc" ]} ∪ Enc.onDisk s).
Proof.
  intros posix W encOne s e.
  assert (mkdir W (Enc.onDisk s) (dirname (str "/out/b.txt.asc")) = None) as Hm
    by reflexivity.
  assert (str "/out/b.txt.asc" ∉ Enc.onDisk s ∨ skip = overwrite) as Hreach
    by (left; apply not_elem_of_empty).
  assert ((encryptFile W (Enc.onDisk s) (str "/in/b.txt") = Rejects e ∧ s = s)
          ∨ (∃ d, encryptFile W (Enc.onDisk s) (str "/in/b.txt") = Resolves d
                  ∧ writeOutputToFile W d (str "/out/b.txt.asc") armored s
                    = (Throw e, s)))
    as Hfail by (left; split; reflexivity).
  split; [exact Hm|]. split; [exact Hreach|]. split; [exact Hfail|].
  exact (proj1 (C2_failure_is_recorded_and_batch_continues
                  W (str "/in") (str "/out") armored auto skip false)
               (str "/in/b.txt") [str "/in/c.txt"] s e s Hm Hreach Hfail).
Defined.

(** C3.  After any number of files visited, the three tallies add up to
    that number: [encryptedCount] (or [decryptedCount]), [skippedCount]
    and the length of [failures].  The loop always runs to the end of the
    list, so at the end of a run the sum is the number of files in the
    filtered list, whatever the collision policy. *)
Theorem C3_tallies_add_up_to_files_visited `{PathModule} (W : World)
  (inputDir outputDir : jsstring) (outputFormat : PgpOutputFormat)
  (formatHandling : FormatHandling) (outputPolicy : OutputPolicy)
  (verifySignatures : bool) (visited remaining : list jsstring)
  (onDisk : gset jsstring) :
  let encLoop :=
    forOf (encryptOne W inputDir outputDir outputFormat outputPolicy) in
  let decLoop :=
    forOf (decryptOne W inputDir outputDir formatHandling outputPolicy
                      verifySignatures) in
  (∃ r, encLoop visited (Enc.start onDisk) = (Normal (), r)
        ∧ Enc.encryptedCount r + Enc.skippedCount r + length (Enc.failures r)
          = length visited
        ∧ encLoop (visited ++ remaining) (Enc.start onDisk) = encLoop remaining r)
  ∧ (∃ r, decLoop visited (Dec.start onDisk) = (Normal (), r)
          ∧ Dec.decryptedCount r + Dec.skippedCount r + length (Dec.failures r)
            = length visited
          ∧ decLoop (visited ++ remaining) (Dec.start onDisk) = decLoop remaining r)
  ∧ match loadPublicKeys W with
    | None =>
        ∃ r, encryptBatch W inputDir outputDir outputFormat outputPolicy visited
                          (Enc.start onDisk) = (Normal Complete, r)
             ∧ Enc.encryptedCount r + Enc.skippedCount r
               + length (Enc.failures r) = length visited
    | Some e =>
        encryptBatch W inputDir outputDir outputFormat outputPolicy visited
                     (Enc.start onDisk)
        = (Normal (Failed (errorMessage e)), Enc.start onDisk)
    end
  ∧ (∃ r, decryptBatch W inputDir outputDir formatHandling outputPolicy
                       verifySignatures visited (Dec.start onDisk)
          = (Normal Complete, r)
          ∧ Dec.decryptedCount r + Dec.skippedCount r
            + length (Dec.failures r) = length visited).
Proof.
  cbv zeta.
  destruct (encryptLoop_total W inputDir outputDir outputFormat outputPolicy
              visited (Enc.start onDisk)) as (re & Hre & Hte).
  destruct (decryptLoop_total W inputDir outputDir formatHandling outputPolicy
              verifySignatures visited (Dec.start onDisk)) as (rd & Hrd & Htd).
  unfold encTotal in Hte. unfold decTotal in Htd. simpl in Hte, Htd.
  split_and!.
  - exists re. split_and!; [done|lia|].
    rewrite forOf_app by (intros; apply encryptOne_neverThrows). by rewrite Hre.
  - exists rd. split_and!; [done|lia|].
    rewrite forOf_app by (intros; apply decryptOne_neverThrows). by rewrite Hrd.
  - unfold encryptBatch, tryCatch, mbind, M_bind, bind, await.
    destruct (loadPublicKeys W) as [e|]; simpl; [done|].
    rewrite Hre. simpl. exists re. split; [done|lia].
  - unfold decryptBatch, tryCatch, mbind, M_bind, bind.
    rewrite Hrd. simpl. exists rd. split; [done|lia].
Qed.

(** C4.  The design document has the walk prune whatever lies at or
    under the excluded path.  With the root of the file system as the
    excluded path nothing is pruned: walking [/] with [/] excluded yields
    every file and descends into every directory, although each lies
    under [/].  For any other directory excluded as the walk's own root
    the walk yields nothing, as with [/data] here. *)
Theorem C4_root_as_exclusion_prunes_nothing :
  let posix := Posix.module (str "/") in
  listFilesRecursive (str "/") (Some (str "/")) treeWithOutput
  = [str "/a.txt"; str "/out/a.txt.asc"]
  ∧ directoriesEntered (str "/") (Some (str "/")) treeWithOutput
    = [str "/out"]
  ∧ Forall (λ p, isOrUnder (resolve (str "/")) (resolve p))
           [str "/a.txt"; str "/out/a.txt.asc"; str "/out"]
  ∧ listFilesRecursive (str "/data") (Some (str "/data")) treeWithOutput = []
  ∧ directoriesEntered (str "/data") (Some (str "/data")) treeWithOutput = [].
Proof.
  intros posix. split_and!; try reflexivity.
  repeat constructor; unfold isOrUnder;
    change (Posix.segments (resolve (str "/"))) with (@nil jsstring);
    apply prefix_nil.
Qed.

(** C5.  Appending the suffix of either output format and then applying
    the strip-known-suffix rule gives back the relative path, unchanged in
    every segment. *)
Theorem C5_encrypt_then_decrypt_name_roundtrip
  (outputFormat : PgpOutputFormat) (relPath : jsstring) :
  stripEncryptedExtension (encryptRelPath outputFormat relPath) = relPath.
Proof.
  unfold encryptRelPath. apply strip_known, outputExtension_known.
Qed.

(** C6, as stated: two distinct relative paths never get the same
    decrypted name.  [a.pgp] and [a.gpg] do. *)
Lemma C6_counterexample :
  ¬ (∀ p q : jsstring,
       p ≠ q → stripEncryptedExtension p ≠ stripEncryptedExtension q).
Proof.
  intros Hinj. apply (Hinj (str "a.pgp") (str "a.gpg")).
  - discriminate.
  - vm_compute. reflexivity.
Qed.

(** C6, amended.  Within a run no file is written over an output path
    that is taken unless the policy is [overwrite]: under [skip] and
    [abort] such a task makes the directory of its output and asks
    whether the output exists, and that is all it does: the engine is
    not called, [writeOutputToFile] is not called, no file is written,
    and the file is not counted as processed.  The
    encrypt naming is injective.  The decrypt naming is not: two
    distinct relative paths get the same name exactly when they differ
    in their recognised suffix alone, or when one of them, without a
    recognised suffix, is the other up to [.decrypted] and a recognised
    suffix. *)
Theorem C6_name_collisions_characterised `{PathModule} (W : World)
  (inputDir outputDir : jsstring) (outputFormat : PgpOutputFormat)
  (formatHandling : FormatHandling) (outputPolicy : OutputPolicy)
  (verifySignatures : bool) :
  let encOne := encryptOne W inputDir outputDir outputFormat outputPolicy in
  let decOne := decryptOne W inputDir outputDir formatHandling outputPolicy
                           verifySignatures in
  (∀ p q, p ≠ q → encryptRelPath outputFormat p ≠ encryptRelPath outputFormat q)
  ∧ (∀ p q,
       p ≠ q → stripEncryptedExtension p = stripEncryptedExtension q →
       (∃ stem e1 e2, p = stem ++ e1 ∧ q = stem ++ e2
                      ∧ knownExt e1 ∧ knownExt e2 ∧ e1 ≠ e2)
       ∨ (∃ e, knownExt e ∧ ¬ hasKnownExt p ∧ q = p ++ str ".decrypted" ++ e)
       ∨ (∃ e, knownExt e ∧ ¬ hasKnownExt q ∧ p = q ++ str ".decrypted" ++ e))
  ∧ (∀ stem e1 e2,
       knownExt e1 → knownExt e2 →
       stripEncryptedExtension (stem ++ e1) = stripEncryptedExtension (stem ++ e2))
  ∧ (∀ p e,
       ¬ hasKnownExt p → knownExt e →
       stripEncryptedExtension (p ++ str ".decrypted" ++ e)
       = stripEncryptedExtension p)
  ∧ (∀ filePath s,
       let outputPath :=
         encryptOutputPath inputDir outputDir outputFormat filePath in
       outputPolicy ≠ overwrite →
       outputPath ∈ Enc.onDisk s →
       Enc.onDisk (encOne filePath s).2 = Enc.onDisk s
       ∧ Enc.written (encOne filePath s).2 = Enc.written s
       ∧ Enc.encryptedCount (encOne filePath s).2 = Enc.encryptedCount s
       ∧ (Enc.calls (encOne filePath s).2
          = Enc.calls s ++ [CallMkdir (dirname outputPath)]
          ∨ Enc.calls (encOne filePath s).2
            = Enc.calls s
              ++ [CallMkdir (dirname outputPath); CallExists outputPath]))
  ∧ (∀ filePath s,
       let outputPath := decryptOutputPath inputDir outputDir filePath in
       outputPolicy ≠ overwrite →
       outputPath ∈ Dec.onDisk s →
       Dec.onDisk (decOne filePath s).2 = Dec.onDisk s
       ∧ Dec.written (decOne filePath s).2 = Dec.written s
       ∧ Dec.decryptedCount (decOne filePath s).2 = Dec.decryptedCount s
       ∧ (Dec.calls (decOne filePath s).2
          = Dec.calls s ++ [CallMkdir (dirname outputPath)]
          ∨ Dec.calls (decOne filePath s).2
            = Dec.calls s
              ++ [CallMkdir (dirname outputPath); CallExists outputPath])).
Proof.
  cbv zeta. split_and!.
  - intros p q Hne Heq. apply Hne. unfold encryptRelPath in Heq.
    by apply app_inv_tail in Heq.
  - intros p q Hne Heq.
    destruct (strip_cases p) as [[Hp Hsp]|(stem1 & e1 & Hp & He1 & Hsp)];
      destruct (strip_cases q) as [[Hq Hsq]|(stem2 & e2 & Hq & He2 & Hsq)];
      rewrite Hsp, Hsq in Heq.
    + apply app_inv_tail in Heq. done.
    + right; left. exists e2. split_and!; [done..|].
      rewrite Hq, <- Heq, <- app_assoc. done.
    + right; right. exists e1. split_and!; [done..|].
      rewrite Hp, Heq, <- app_assoc. done.
    + left. subst stem2. exists stem1, e1, e2. split_and!; try done.
      intros ->. apply Hne. by rewrite Hp, Hq.
  - intros stem e1 e2 He1 He2. by rewrite !strip_known.
  - intros p e Hp He. rewrite app_assoc, strip_known by done.
    by rewrite strip_unknown.
  - intros filePath s Hpol Hin.
    destruct (encryptOne_collision W inputDir outputDir outputFormat
                outputPolicy filePath s Hin Hpol)
      as [(e & _ & ->)|[(_ & _ & ->)|(_ & _ & ->)]]; simpl;
      rewrite <- ?app_assoc; auto.
  - intros filePath s Hpol Hin.
    destruct (decryptOne_collision W inputDir outputDir formatHandling
                outputPolicy verifySignatures filePath s Hin Hpol)
      as [(e & _ & ->)|[(_ & _ & ->)|(_ & _ & ->)]]; simpl;
      rewrite <- ?app_assoc; auto.
Qed.

Lemma C6_witness :
  let posix := Posix.module (str "/") in
  let decOne := decryptOne calmWorld (str "/in") (str "/out") auto skip true in
  let s := Dec.start {[ str "/out/a" ]} in
  (str "a.pgp" ≠ str "a.gpg"
   ∧ stripEncryptedExtension (str "a.pgp") = stripEncryptedExtension (str "a.gpg")
   ∧ ((∃ stem e1 e2, str "a.pgp" = stem ++ e1 ∧ str "a.gpg" = stem ++ e2
                     ∧ knownExt e1 ∧ knownExt e2 ∧ e1 ≠ e2)
      ∨ (∃ e, knownExt e ∧ ¬ hasKnownExt (str "a.pgp")
              ∧ str "a.gpg" = str "a.pgp" ++ str ".decrypted" ++ e)
      ∨ (∃ e, knownExt e ∧ ¬ hasKnownExt (str "a.gpg")
              ∧ str "a.pgp" = str "a.gpg" ++ str ".decrypted" ++ e)))
  ∧ (skip ≠ overwrite
     ∧ str "/out/a" ∈ Dec.onDisk s
     ∧ Dec.onDisk (decOne (str "/in/a.gpg") s).2 = Dec.onDisk s
     ∧ Dec.written (decOne (str "/in/a.gpg") s).2 = Dec.written s
     ∧ Dec.decryptedCount (decOne (str "/in/a.gpg") s).2 = Dec.decryptedCount s
     ∧ (Dec.calls (decOne (str "/in/a.gpg") s).2
        = Dec.calls s ++ [CallMkdir (dirname (str "/out/a"))]
        ∨ Dec.calls (decOne (str "/in/a.gpg") s).2
          = Dec.calls s
            ++ [CallMkdir (dirname (str "/out/a")); CallExists (str "/out/a")])).
Proof.
  intros posix decOne s.
  pose proof (C6_name_collisions_characterised
                calmWorld (str "/in") (str "/out") armored auto skip true)
    as (_ & Hnames & _ & _ & _ & Hdec).
  assert (str "a.pgp" ≠ str "a.gpg") as Hne by discriminate.
  assert (stripEncryptedExtension (str "a.pgp")
          = stripEncryptedExtension (str "a.gpg")) as Heq by reflexivity.
  assert (skip ≠ overwrite) as Hpol by discriminate.
  assert (str "/out/a" ∈ Dec.onDisk s) as Hin
    by (unfold s; simpl; apply elem_of_singleton_2; reflexivity).
  split.
  - split; [exact Hne|]. split; [exact Heq|]. exact (Hnames _ _ Hne Heq).
  - split; [exact Hpol|]. split; [exact Hin|].
    exact (Hdec (str "/in/a.gpg") s Hpol Hin).
Defined.

(** C7.  [parseExtensionFilter] splits on commas, trims, drops the empty
    tokens, lower-cases and puts a dot in front of a token without one; it
    returns the defaults exactly when no token is left.  The two examples
    of the design document come out as stated. *)
Theorem C7_parseExtensionFilter_follows_the_rule
  (input : jsstring) (defaults : list jsstring) :
  parseExtensionFilter input defaults = parseExtensionFilterRule input defaults
  ∧ parseExtensionFilter (str " .PDF, txt ") [str ".pgp"]
    = [str ".pdf"; str ".txt"]
  ∧ parseExtensionFilter (str "") [str ".pgp"] = [str ".pgp"].
Proof.
  split; [apply parseExtensionFilter_rule|]. split; reflexivity.
Qed.

(** C8.  The reader is obtained and the writer opened before the [try]
    statement is entered, so the [finally] block does not cover the
    opening of the writer: when [Bun.file(outputPath).writer()] throws,
    [writeOutputToFile] throws with the reader obtained and never
    released.  Once the writer is open the claim holds: however the loop
    is left (the stream read to its end, a read rejected, a write
    failed), the reader is released and the writer ended, once each and
    after the last read and write, and every write that returned a
    promise is awaited before anything else happens, the next read in
    particular. *)
Theorem C8_reader_stays_locked_when_the_writer_does_not_open
  `{PathModule} (W : World) {S : Type} `{HasDisk S}
  (reads : PgpOutputFormat → Source) (outputPath : jsstring)
  (format : PgpOutputFormat) (s : S) :
  let src := reads format in
  let opened := fileWriter W (disk s) outputPath in
  let trace := (streamToFile opened src).1 in
  getReader src = None →
  hasReleaseLock src = true →
  (∀ e, opened = OpenThrows e →
        trace = [EvGetReader]
        ∧ (EvReleaseLock ∉ trace)
        ∧ (writeOutputToFile W (DataStream reads) outputPath format s).1
          = Throw e)
  ∧ (∀ writer, opened = Opens writer →
       ∃ pumping closing,
         trace = EvGetReader :: EvWriter :: pumping ++ EvReleaseLock :: closing
         ∧ Forall isPumping pumping
         ∧ (closing = [EvEnd false] ∨ closing = [EvEnd true; EvAwaitEnd])
         ∧ backPressured trace = true).
Proof.
  cbv zeta. intros Hreader Hr. split.
  - intros e Hopen. rewrite Hopen. unfold streamToFile. rewrite Hreader.
    simpl. split_and!; [done| |].
    + intros Hin. apply list_elem_of_In in Hin.
      destruct Hin as [Hin|[]]. discriminate Hin.
    + unfold settleWrite, mbind, M_bind, bind. rewrite Hopen.
      unfold streamToFile. rewrite Hreader. simpl.
      by destruct (leavesFile W (disk s) outputPath).
  - intros writer Hopen. rewrite Hopen, streamToFile_entered by done.
    destruct (release_shape writer (reads format) Hr)
      as (closing & Hrel & Hclosing).
    exists (pump writer 0 (chunks (reads format)) (ending (reads format))).1,
      closing.
    split_and!.
    + by rewrite Hrel.
    + apply pump_pumping.
    + exact Hclosing.
    + change (backPressured
                ((pump writer 0 (chunks (reads format))
                       (ending (reads format))).1
                 ++ (release writer (reads format)).1) = true).
      rewrite pump_backPressured. apply release_backPressured.
Qed.

Lemma C8_witness :
  let posix := Posix.module (str "/") in
  let W := directoryWorld (str "/out/a.txt.pgp") in
  let s := Enc.start ∅ in
  let reads := λ _ : PgpOutputFormat, twoChunks in
  let e := ErrorValue (str "EISDIR: illegal operation on a directory") in
  getReader twoChunks = None
  ∧ hasReleaseLock twoChunks = true
  ∧ fileWriter W (disk s) (str "/out/a.txt.pgp") = OpenThrows e
  ∧ fileWriter W (disk s) (str "/out/b.txt.pgp") = Opens failingWriter
  ∧ ((streamToFile (fileWriter W (disk s) (str "/out/a.txt.pgp")) twoChunks).1
     = [EvGetReader]
     ∧ (EvReleaseLock
        ∉ (streamToFile (fileWriter W (disk s) (str "/out/a.txt.pgp"))
                        twoChunks).1)
     ∧ (writeOutputToFile W (DataStream reads) (str "/out/a.txt.pgp") binary
                          s).1
       = Throw e)
  ∧ ∃ pumping closing,
      (streamToFile (fileWriter W (disk s) (str "/out/b.txt.pgp")) twoChunks).1
      = EvGetReader :: EvWriter :: pumping ++ EvReleaseLock :: closing
      ∧ Forall isPumping pumping
      ∧ (closing = [EvEnd false] ∨ closing = [EvEnd true; EvAwaitEnd])
      ∧ backPressured
          (streamToFile (fileWriter W (disk s) (str "/out/b.txt.pgp"))
                        twoChunks).1 = true.
Proof.
  intros posix W s reads e.
  assert (getReader twoChunks = None) as Hreader by reflexivity.
  assert (hasReleaseLock twoChunks = true) as Hr by reflexivity.
  assert (fileWriter W (disk s) (str "/out/a.txt.pgp") = OpenThrows e)
    as Hthrows by reflexivity.
  assert (fileWriter W (disk s) (str "/out/b.txt.pgp") = Opens failingWriter)
    as Hopens by reflexivity.
  split; [exact Hreader|]. split; [exact Hr|]. split; [exact Hthrows|].
  split; [exact Hopens|]. split.
  - exact (proj1 (C8_reader_stays_locked_when_the_writer_does_not_open
                    W reads (str "/out/a.txt.pgp") binary s Hreader Hr)
                 e Hthrows).
  - exact (proj2 (C8_reader_stays_locked_when_the_writer_does_not_open
                    W reads (str "/out/b.txt.pgp") binary s Hreader Hr)
                 failingWriter Hopens).
Defined.

(** C9.  The single-file suggestion and the batch suffix stripping agree
    on every path, and both follow the rule of the design document: a
    trailing [.pgp], [.gpg] or [.asc], in any letter case, is stripped, and
    otherwise [.decrypted] is appended. *)
Theorem C9_single_and_batch_naming_agree (p : jsstring) :
  suggestDecryptedOutputPath p = stripEncryptedExtension p
  ∧ stripEncryptedExtension p = mapDecryptRule p.
Proof.
  split; [reflexivity|]. apply strip_is_rule.
Qed.

(** C10.  With signature verification on, a file that decrypts and is
    written, but whose signature did not verify, is counted as decrypted
    and listed among the signature failures; [failures] is left as it was
    and the loop goes on with the next file. *)
Theorem C10_signature_failure_still_counts_as_decrypted `{PathModule} (W : World)
  (inputDir outputDir : jsstring) (formatHandling : FormatHandling)
  (outputPolicy : OutputPolicy)
  (filePath : jsstring) (rest : list jsstring) (s s1 : Dec.Run)
  (result : FileDecryptResult) :
  let decOne := decryptOne W inputDir outputDir formatHandling outputPolicy true in
  let outputPath := decryptOutputPath inputDir outputDir filePath in
  let format := resolveInputFormat filePath formatHandling in
  mkdir W (Dec.onDisk s) (dirname outputPath) = None →
  outputPath ∉ Dec.onDisk s ∨ outputPolicy = overwrite →
  decryptFile W (Dec.onDisk s) filePath format true = Resolves result →
  verified result = Some false →
  writeOutputToFile W (data result) outputPath binary s = (Normal (), s1) →
  ∃ s', forOf decOne (filePath :: rest) s = forOf decOne rest s'
        ∧ Dec.decryptedCount s' = Dec.decryptedCount s + 1
        ∧ Dec.skippedCount s' = Dec.skippedCount s
        ∧ Dec.signatureFailures s' = Dec.signatureFailures s ++ [filePath]
        ∧ Dec.failures s' = Dec.failures s.
Proof.
  cbv zeta. intros Hm Hreach Hd Hver Hw.
  rewrite forOf_step by apply decryptOne_neverThrows.
  eexists. split; [reflexivity|].
  rewrite (decryptOne_signature_failure W _ _ _ _ true filePath s result s1)
    by done.
  apply dec_write_frame in Hw as [(Hc & Hs & Hf & Hg & _) _].
  simpl. rewrite Hc, Hs, Hf, Hg. done.
Qed.

Lemma C10_witness :
  let posix := Posix.module (str "/") in
  let W := badSignatureWorld (str "/in/a.txt.pgp") in
  let decOne := decryptOne W (str "/in") (str "/out") auto abort true in
  let s := Dec.start ∅ in
  let result := {| data := DataBytes []; verified := Some false |} in
  let s1 := wrote (str "/out/a.txt") s in
  mkdir W (Dec.onDisk s) (dirname (str "/out/a.txt")) = None
  ∧ (str "/out/a.txt" ∉ Dec.onDisk s ∨ abort = overwrite)
  ∧ decryptFile W (Dec.onDisk s) (str "/in/a.txt.pgp") binary true
         = Resolves result
  ∧ verified result = Some false
  ∧ writeOutputToFile W (data result) (str "/out/a.txt") binary s = (Normal (), s1)
  ∧ ∃ s', forOf decOne [str "/in/a.txt.pgp"; str "/in/b.txt.pgp"] s
          = forOf decOne [str "/in/b.txt.pgp"] s'
          ∧ Dec.decryptedCount s' = Dec.decryptedCount s + 1
          ∧ Dec.skippedCount s' = Dec.skippedCount s
          ∧ Dec.signatureFailures s'
            = Dec.signatureFailures s ++ [str "/in/a.txt.pgp"]
          ∧ Dec.failures s' = Dec.failures s.
Proof.
  intros posix W decOne s result s1.
  assert (mkdir W (Dec.onDisk s) (dirname (str "/out/a.txt")) = None) as Hm by reflexivity.
  assert (str "/out/a.txt" ∉ Dec.onDisk s ∨ abort = overwrite) as Hreach
    by (left; apply not_elem_of_empty).
  assert (decryptFile W (Dec.onDisk s) (str "/in/a.txt.pgp") binary true
         = Resolves result)
    as Hd by reflexivity.
  assert (verified result = Some false) as Hver by reflexivity.
  assert (writeOutputToFile W (data result) (str "/out/a.txt") binary s
          = (Normal (), s1)) as Hw.
  { unfold writeOutputToFile, settleWrite, created, modify, mbind, M_bind,
      bind, await. unfold s1, s. simpl. by rewrite union_empty_r_L. }
  split_and!; [exact Hm|exact Hreach|exact Hd|exact Hver|exact Hw|].
  exact (C10_signature_failure_still_counts_as_decrypted
           W (str "/in") (str "/out") auto abort
           (str "/in/a.txt.pgp") [str "/in/b.txt.pgp"] s s1 result
           Hm Hreach Hd Hver Hw).
Defined.

(** * Further properties of the code *)

(** ** The batch loops *)

Section BatchFacts.
Context `{PathModule} (W : World).
Variables (inputDir outputDir : jsstring).
Variables (outputFormat : PgpOutputFormat) (formatHandling : FormatHandling).
Variables (outputPolicy : OutputPolicy) (verifySignatures : bool).

#[local] Abbreviation encOne' :=
  (encryptOne W inputDir outputDir outputFormat outputPolicy).
#[local] Abbreviation encPath' :=
  (encryptOutputPath inputDir outputDir outputFormat).
#[local] Abbreviation decOne' :=
  (decryptOne W inputDir outputDir formatHandling outputPolicy verifySignatures).
#[local] Abbreviation decPath' := (decryptOutputPath inputDir outputDir).

(** A write that completes leaves a file at the output path. *)
Lemma writeOutputToFile_normal {S : Type} `{HasDisk S}
  data outputPath format (s s1 : S) :
  writeOutputToFile W data outputPath format s = (Normal (), s1) →
  s1 = wrote outputPath s.
Proof.
  intros Hw.
  destruct (writeOutputToFile_cases W data outputPath format s)
    as [Hc|(e & [Hc|Hc])]; rewrite Hc in Hw; by inversion Hw.
Qed.

(** Under [skip] a taken output path ends the iteration at the collision
    check. *)
Lemma encryptOne_skip filePath s :
  outputPolicy = skip →
  mkdir W (Enc.onDisk s) (dirname (encPath' filePath)) = None →
  encPath' filePath ∈ Enc.onDisk s →
  (encOne' filePath s).2
  = Enc.countSkipped
      (Enc.called (CallExists (encPath' filePath))
         (Enc.called (CallMkdir (dirname (encPath' filePath))) s)).
Proof.
  intros Hpol Hm Hin.
  destruct (encryptOne_collision W inputDir outputDir outputFormat
              outputPolicy filePath s Hin)
    as [(e & Hbad & _)|[(_ & _ & Heq)|(_ & Hab & _)]];
    [by rewrite Hpol|congruence|done|congruence].
Qed.

Lemma decryptOne_skip filePath s :
  outputPolicy = skip →
  mkdir W (Dec.onDisk s) (dirname (decPath' filePath)) = None →
  decPath' filePath ∈ Dec.onDisk s →
  (decOne' filePath s).2
  = Dec.countSkipped
      (Dec.called (CallExists (decPath' filePath))
         (Dec.called (CallMkdir (dirname (decPath' filePath))) s)).
Proof.
  intros Hpol Hm Hin.
  destruct (decryptOne_collision W inputDir outputDir formatHandling
              outputPolicy verifySignatures filePath s Hin)
    as [(e & Hbad & _)|[(_ & _ & Heq)|(_ & Hab & _)]];
    [by rewrite Hpol|congruence|done|congruence].
Qed.

(** The counters of a run never go down, and no record is dropped. *)
Lemma encryptOne_grows filePath s :
  Enc.encryptedCount s ≤ Enc.encryptedCount (encOne' filePath s).2
  ∧ Enc.skippedCount s ≤ Enc.skippedCount (encOne' filePath s).2
  ∧ Enc.failures s `prefix_of` Enc.failures (encOne' filePath s).2.
Proof.
  destruct (encryptOne_cases W inputDir outputDir outputFormat outputPolicy
              filePath s)
    as [(s1 & Hf & ->)|[(s1 & Hf & ->)|(e & s1 & Hf & ->)]];
    destruct Hf as (Hc & Hs & Hf & _); simpl;
    rewrite ?Hc, ?Hs, ?Hf; split_and!; try lia; try done;
    by apply prefix_app_r.
Qed.

Lemma encryptLoop_grows files s :
  Enc.encryptedCount s ≤ Enc.encryptedCount (forOf encOne' files s).2
  ∧ Enc.skippedCount s ≤ Enc.skippedCount (forOf encOne' files s).2
  ∧ Enc.failures s `prefix_of` Enc.failures (forOf encOne' files s).2.
Proof.
  revert s. induction files as [|f fs IH]; intros s; [done|].
  rewrite forOf_step by apply encryptOne_neverThrows.
  destruct (encryptOne_grows f s) as (H1 & H2 & H3).
  destruct (IH (encOne' f s).2) as (H4 & H5 & H6).
  split_and!; [lia|lia|by etrans].
Qed.

(** What one iteration does to the signature failures. *)
Lemma decryptOne_signatures filePath s :
  (Dec.signatureFailures (decOne' filePath s).2 = Dec.signatureFailures s
   ∧ Dec.decryptedCount s ≤ Dec.decryptedCount (decOne' filePath s).2)
  ∨ (verifySignatures = true
     ∧ Dec.signatureFailures (decOne' filePath s).2
       = Dec.signatureFailures s ++ [filePath]
     ∧ Dec.decryptedCount (decOne' filePath s).2 = Dec.decryptedCount s + 1).
Proof.
  unfold decryptOne, Dec.calling, tryCatch, mbind, M_bind, bind, awaitOn,
    awaitValueOn, await, fileExists, gets, awaitValue, modify.
  fold (decPath' filePath). cbn [disk Dec.hasDisk Dec.onDisk Dec.called].
  destruct (mkdir W (Dec.onDisk s) (dirname (decPath' filePath))) as [e|]; simpl.
  { left. done. }
  destruct (bool_decide (decPath' filePath ∈ Dec.onDisk s)); simpl;
    [destruct outputPolicy; simpl|];
    repeat match goal with
      | |- context [decryptFile W ?d0 filePath ?f ?v] =>
          destruct (decryptFile W d0 filePath f v) as [d|e]; simpl
      | |- context [writeOutputToFile W ?d ?p ?f ?s0] =>
          let Hw := fresh "Hw" in
          destruct (writeOutputToFile W d p f s0) as [[[]| |e] s1] eqn:Hw;
          destruct (dec_write_frame W _ _ _ _ _ _ Hw) as [(Hc & _ & _ & Hg & _) ?];
          simpl in Hc, Hg; simpl
      end;
    try done; try (left; done);
    try (left; simpl; rewrite ?Hg, ?Hc; done).
  all: destruct verifySignatures; simpl;
    [destruct (bool_decide _); simpl|];
    first [ right; rewrite Hg, Hc; done
          | left; rewrite Hg, Hc; split; [done|lia] ].
Qed.

Lemma decryptOne_grows filePath s :
  Dec.decryptedCount s ≤ Dec.decryptedCount (decOne' filePath s).2
  ∧ Dec.skippedCount s ≤ Dec.skippedCount (decOne' filePath s).2
  ∧ Dec.failures s `prefix_of` Dec.failures (decOne' filePath s).2
  ∧ Dec.signatureFailures s
    `prefix_of` Dec.signatureFailures (decOne' filePath s).2.
Proof.
  destruct (decryptOne_cases W inputDir outputDir formatHandling outputPolicy
              verifySignatures filePath s)
    as [(s1 & Hf & [->| ->])|[(s1 & Hf & ->)|(e & s1 & Hf & ->)]];
    destruct Hf as (Hc & Hs & Hf & Hg & _); simpl;
    rewrite ?Hc, ?Hs, ?Hf, ?Hg; split_and!; try lia; try done;
    by apply prefix_app_r.
Qed.

Lemma decryptLoop_grows files s :
  Dec.decryptedCount s ≤ Dec.decryptedCount (forOf decOne' files s).2
  ∧ Dec.skippedCount s ≤ Dec.skippedCount (forOf decOne' files s).2
  ∧ Dec.failures s `prefix_of` Dec.failures (forOf decOne' files s).2
  ∧ Dec.signatureFailures s
    `prefix_of` Dec.signatureFailures (forOf decOne' files s).2.
Proof.
  revert s. induction files as [|f fs IH]; intros s; [done|].
  rewrite forOf_step by apply decryptOne_neverThrows.
  destruct (decryptOne_grows f s) as (H1 & H2 & H3 & H3').
  destruct (IH (decOne' f s).2) as (H4 & H5 & H6 & H6').
  split_and!; [lia|lia|by etrans|by etrans].
Qed.

(** The signature failures of a run: files of the list, in its order,
    each of them counted as decrypted. *)
Lemma decryptLoop_signatures files s :
  ∃ new,
    Dec.signatureFailures (forOf decOne' files s).2
    = Dec.signatureFailures s ++ new
    ∧ sublist new files
    ∧ Dec.decryptedCount s + length new
      ≤ Dec.decryptedCount (forOf decOne' files s).2
    ∧ (verifySignatures = false → new = []).
Proof.
  revert s. induction files as [|f fs IH]; intros s.
  - exists []. simpl. rewrite app_nil_r. split_and!; try done. lia.
  - rewrite forOf_step by apply decryptOne_neverThrows.
    destruct (IH (decOne' f s).2) as (new & -> & Hsub & Hcount & Hoff).
    destruct (decryptOne_signatures f s) as [[-> Hle]|(Hon & -> & Hc)].
    + exists new. split_and!; [done|by apply sublist_cons|lia|done].
    + exists (f :: new). rewrite <- app_assoc. split_and!;
        [done|by apply sublist_skip|simpl; lia|congruence].
Qed.

End BatchFacts.


(** ** The walk and the batch as a whole *)

Lemma sublist_List_filter {A} (f : A → bool) (l : list A) :
  sublist (List.filter f l) l.
Proof.
  induction l as [|x l IH]; simpl; [constructor|].
  destruct (f x); [by apply sublist_skip|by apply sublist_cons].
Qed.

Lemma elem_of_List_filter {A} (f : A → bool) (l : list A) x :
  x ∈ List.filter f l ↔ x ∈ l ∧ f x = true.
Proof. rewrite !list_elem_of_In. apply filter_In. Qed.

Section WalkFacts.
Context `{PathModule}.

Lemma forEntries_sublist body body' entries :
  Forall (λ entry, sublist (body entry).1 (body' entry).1) entries →
  sublist (forEntries body entries).1 (forEntries body' entries).1.
Proof.
  induction 1 as [|e es He _ IH]; [constructor|].
  rewrite !forEntries_cons. simpl. by apply sublist_app.
Qed.

(** Excluding a directory only removes files from what the walk yields. *)
Lemma visitEntry_sublist entry :
  ∀ rootDir excludeDir,
    sublist (visitEntry rootDir excludeDir entry).1
            (visitEntry rootDir None entry).1.
Proof.
  induction entry as [name|name sub IH|name] using Dirent_ind;
    intros rootDir excludeDir; rewrite !visitEntry_eq; cbv zeta;
    change (isExcluded (normalizeExclude None) ?r) with false; cbv iota;
    destruct (isExcluded _ _); simpl; try apply sublist_nil_l; try done.
  unfold walk. apply forEntries_sublist.
  eapply Forall_impl; [exact IH|]. intros e He. apply He.
Qed.

Lemma listFilesRecursive_sublist rootDir excludeDir entries :
  sublist (listFilesRecursive rootDir excludeDir entries)
          (listFilesRecursive rootDir None entries).
Proof.
  unfold listFilesRecursive, walk. apply forEntries_sublist.
  apply Forall_forall. intros e _. apply visitEntry_sublist.
Qed.

(** Without an exclusion every plain file of the tree is yielded. *)
Lemma fileUnder_listed rootDir entries p :
  fileUnder rootDir entries p → p ∈ listFilesRecursive rootDir None entries.
Proof.
  induction 1 as [rootDir entries name Hin|rootDir entries name sub p Hin _ IH];
    unfold listFilesRecursive, walk; apply forEntries_files.
  - exists (RegularFile name). split; [done|].
    rewrite visitEntry_eq. simpl. by left.
  - exists (Directory name sub). split; [done|].
    rewrite visitEntry_eq. simpl. exact IH.
Qed.

End WalkFacts.

Section FolderFacts.
Context `{PathModule} (W : World).
Variables (inputDir outputDir : jsstring).
Variables (outputFormat : PgpOutputFormat) (formatHandling : FormatHandling).
Variables (outputPolicy : OutputPolicy) (verifySignatures : bool).
Variables (extensionInput : jsstring) (tree : list Dirent).
Variable (onDisk : gset jsstring).

(** The failures [encryptFolder] ends with name files the walk yielded,
    in the order of the walk. *)
Lemma encryptFolder_failures :
  sublist
    (map file
       (Enc.failures
          (encryptFolder W inputDir outputDir outputFormat outputPolicy
                         extensionInput tree onDisk).2))
    (listFilesRecursive inputDir (Some outputDir) tree).
Proof.
  unfold encryptFolder. cbv zeta.
  set (walked := listFilesRecursive inputDir (Some outputDir) tree).
  set (filteredFiles := if (length _ =? 0)%nat then walked else _).
  assert (sublist filteredFiles walked) as Hsub.
  { unfold filteredFiles. destruct (length _ =? 0)%nat; [done|].
    apply sublist_List_filter. }
  destruct (length filteredFiles =? 0)%nat; [apply sublist_nil_l|].
  unfold encryptBatch, tryCatch, mbind, M_bind, bind, await.
  destruct (loadPublicKeys W) as [e|]; simpl; [apply sublist_nil_l|].
  destruct (encryptLoop_total W inputDir outputDir outputFormat outputPolicy
              filteredFiles (Enc.start onDisk)) as (s' & Hloop & _).
  destruct (encryptLoop_failures W inputDir outputDir outputFormat outputPolicy
              filteredFiles (Enc.start onDisk)) as (new & Hnew & Hfiles).
  rewrite Hloop in *. simpl in *. rewrite Hnew. by etrans.
Qed.

(** Those of [decryptFolder], and its signature failures, name files the
    walk yielded that passed the filter. *)
Lemma decryptFolder_failures :
  let extensionFilter :=
    parseExtensionFilter extensionInput
      (defaultFilter formatHandling) in
  let selected :=
    List.filter
      (λ filePath,
        JS.includes extensionFilter (JS.toLowerCase (extname filePath)))
      (listFilesRecursive inputDir (Some outputDir) tree) in
  let r := (decryptFolder W inputDir outputDir formatHandling outputPolicy
                          verifySignatures extensionInput tree onDisk).2 in
  sublist (map file (Dec.failures r)) selected
  ∧ sublist (Dec.signatureFailures r) selected
  ∧ length (Dec.signatureFailures r) ≤ Dec.decryptedCount r
  ∧ (verifySignatures = false → Dec.signatureFailures r = []).
Proof.
  unfold decryptFolder. cbv zeta.
  set (filteredFiles := List.filter _ _).
  destruct (length filteredFiles =? 0)%nat;
    [simpl; split_and!; try apply sublist_nil_l; done|].
  unfold decryptBatch, tryCatch, mbind, M_bind, bind.
  destruct (decryptLoop_total W inputDir outputDir formatHandling outputPolicy
              verifySignatures filteredFiles (Dec.start onDisk))
    as (s' & Hloop & _).
  destruct (decryptLoop_failures W inputDir outputDir formatHandling
              outputPolicy verifySignatures filteredFiles (Dec.start onDisk))
    as (new & Hnew & Hfiles).
  destruct (decryptLoop_signatures W inputDir outputDir formatHandling
              outputPolicy verifySignatures filteredFiles (Dec.start onDisk))
    as (sigs & Hsigs & Hsub & Hcount & Hoff).
  rewrite Hloop in *. simpl in *. rewrite Hnew, Hsigs.
  split_and!; [done|done|lia|done].
Qed.

End FolderFacts.


(** ** Strings *)

Module StringFacts.

Lemma startsWith_spec p s :
  JS.startsWith p s = true ↔ ∃ rest, s = p ++ rest.
Proof.
  revert s. induction p as [|a p IH]; intros s; simpl.
  - split; [eauto|done].
  - destruct s as [|b s]; [split; [done|by intros [? ?]]|].
    rewrite andb_true_iff, bool_decide_eq_true, IH. split.
    + intros [-> [rest ->]]. by exists rest.
    + intros [rest Hs]. injection Hs as -> ->. eauto.
Qed.

Lemma includes_spec needle s :
  JSString.includes needle s = true ↔ ∃ a b, s = a ++ needle ++ b.
Proof.
  induction s as [|c s IH]; simpl.
  - rewrite orb_false_r, startsWith_spec. split.
    + intros [rest Hs]. exists [], rest. done.
    + intros (a & b & Hs). symmetry in Hs.
      apply app_eq_nil in Hs as [-> Hs]. eauto.
  - rewrite orb_true_iff, startsWith_spec, IH. split.
    + intros [[rest ->]|(a & b & ->)]; [by exists [], rest|].
      by exists (c :: a), b.
    + intros (a & b & Hs). destruct a as [|c' a]; [left; eauto|].
      injection Hs as -> ->. right. eauto.
Qed.

(** [trimStart] drops white space up to the first other code unit. *)
Lemma trimStart_spec s :
  ∃ ws, s = ws ++ JS.trimStart s
        ∧ Forall (λ c, JS.isWhiteSpace c = true) ws
        ∧ (∀ c t, JS.trimStart s = c :: t → JS.isWhiteSpace c = false).
Proof.
  induction s as [|c s (ws & Hs & Hws & Hhead)]; simpl.
  - exists []. split_and!; [done|constructor|done].
  - destruct (JS.isWhiteSpace c) eqn:Hc.
    + exists (c :: ws). split_and!; [by rewrite Hs at 1|by constructor|done].
    + exists []. split_and!; [done|constructor|].
      intros c' t [= <- <-]. done.
Qed.

Lemma trimEnd_spec s :
  ∃ ws, s = JS.trimEnd s ++ ws
        ∧ Forall (λ c, JS.isWhiteSpace c = true) ws
        ∧ (∀ c t, JS.trimEnd s = t ++ [c] → JS.isWhiteSpace c = false).
Proof.
  unfold JS.trimEnd.
  destruct (trimStart_spec (rev s)) as (ws & Hs & Hws & Hhead).
  exists (rev ws). split_and!.
  - rewrite <- rev_app_distr, <- Hs. by rewrite rev_involutive.
  - by apply Forall_rev.
  - intros c t Ht. apply (Hhead c (rev t)).
    apply (f_equal (@rev ascii)) in Ht.
    by rewrite rev_involutive, rev_app_distr in Ht.
Qed.

(** [trim] takes white space off both ends and leaves a string that
    neither starts nor ends with white space. *)
Lemma trim_spec s :
  ∃ before after,
    s = before ++ JS.trim s ++ after
    ∧ Forall (λ c, JS.isWhiteSpace c = true) before
    ∧ Forall (λ c, JS.isWhiteSpace c = true) after
    ∧ (∀ c t, JS.trim s = c :: t → JS.isWhiteSpace c = false)
    ∧ (∀ c t, JS.trim s = t ++ [c] → JS.isWhiteSpace c = false).
Proof.
  unfold JS.trim.
  destruct (trimStart_spec s) as (before & Hs & Hb & Hhead).
  destruct (trimEnd_spec (JS.trimStart s)) as (after & Ht & Ha & Hlast).
  exists before, after. split_and!; try done.
  - by rewrite <- Ht.
  - intros c t Hc. rewrite Hc in Ht. by apply (Hhead c (t ++ after)).
Qed.

Lemma trimStart_id c s :
  JS.isWhiteSpace c = false → JS.trimStart (c :: s) = c :: s.
Proof. intros Hc. simpl. by rewrite Hc. Qed.

(** A string that neither starts nor ends with white space is its own
    trimmed form. *)
Lemma trim_id s :
  (∀ c t, s = c :: t → JS.isWhiteSpace c = false) →
  (∀ c t, s = t ++ [c] → JS.isWhiteSpace c = false) →
  JS.trim s = s.
Proof.
  intros Hhead Hlast. unfold JS.trim, JS.trimEnd.
  destruct s as [|c s]; [done|].
  rewrite trimStart_id by (by eapply Hhead).
  destruct (rev (c :: s)) as [|l r] eqn:Hrev.
  { apply (f_equal length) in Hrev. rewrite length_rev in Hrev. done. }
  rewrite trimStart_id.
  - by rewrite <- Hrev, rev_involutive.
  - apply (Hlast l (rev r)).
    apply (f_equal (@rev ascii)) in Hrev. by rewrite rev_involutive in Hrev.
Qed.

Lemma trim_elem c s : c ∈ JS.trim s → c ∈ s.
Proof.
  destruct (trim_spec s) as (before & after & Hs & _). intros Hc.
  rewrite Hs, !elem_of_app. auto.
Qed.

(** Something that starts and ends with a code unit other than white
    space lies in a string exactly when it lies in the trimmed string. *)
Lemma includes_trim needle s first middle last :
  needle = first :: middle ++ [last] →
  JS.isWhiteSpace first = false → JS.isWhiteSpace last = false →
  JSString.includes needle (JS.trim s) = JSString.includes needle s.
Proof.
  intros Hn Hf Hl.
  destruct (trim_spec s) as (before & after & Hs & Hb & Ha & _).
  apply eq_true_iff_eq. rewrite !includes_spec. split.
  - intros (a & b & Ht). exists (before ++ a), (b ++ after).
    rewrite Hs at 1. rewrite Ht. by rewrite <- !app_assoc.
  - intros (a & b & Hab).
    remember (JS.trim s) as t eqn:Ht. rewrite Hab in Hs. clear Hab Ht s.
    assert (∃ a', a = before ++ a') as [a' ->].
    { clear Ha. revert a Hs. induction Hb as [|w ws Hw _ IH]; intros a Hs;
        [by exists a|].
      destruct a as [|x a].
      - simpl in Hs. rewrite Hn in Hs. injection Hs as -> _. congruence.
      - injection Hs as -> Hs. destruct (IH a Hs) as [a' ->]. by exists a'. }
    rewrite <- app_assoc in Hs. apply app_inv_head in Hs.
    assert (∃ b', b = b' ++ after) as [b' ->].
    { clear Hb.
      assert (rev needle = last :: rev middle ++ [first]) as Hrn.
      { rewrite Hn. simpl. by rewrite rev_app_distr. }
      apply (f_equal (@rev ascii)) in Hs.
      rewrite !rev_app_distr, Hrn in Hs.
      apply Forall_rev in Ha.
      assert (∃ rb', rev b = rev after ++ rb') as [rb' Hrb].
      { revert Hs. generalize (rev b) as rb.
        induction Ha as [|w ws Hw _ IH]; intros rb Hs; [by exists rb|].
        destruct rb as [|x rb].
        - simpl in Hs. injection Hs as <- _. congruence.
        - simpl in Hs. injection Hs as -> Hs.
          destruct (IH rb Hs) as [rb' ->]. by exists rb'. }
      exists (rev rb'). apply (f_equal (@rev ascii)) in Hrb.
      by rewrite rev_involutive, rev_app_distr, rev_involutive in Hrb. }
    rewrite !app_assoc in Hs. apply app_inv_tail in Hs.
    exists a', b'. by rewrite <- app_assoc in Hs.
Qed.

End StringFacts.


(** ** Extension filters, output names, pasted text *)

Lemma lowerChar_idem c : JS.lowerChar (JS.lowerChar c) = JS.lowerChar c.
Proof. each_char c. Qed.

Lemma lowerChar_comma c : JS.lowerChar c = ","%char → c = ","%char.
Proof.
  destruct c as [[] [] [] [] [] [] [] []]; vm_compute; intros Hc;
    first [reflexivity | discriminate Hc].
Qed.

Lemma isWhiteSpace_lowerChar c :
  JS.isWhiteSpace (JS.lowerChar c) = JS.isWhiteSpace c.
Proof. each_char c. Qed.

Lemma toLowerCase_idem s : JS.toLowerCase (JS.toLowerCase s) = JS.toLowerCase s.
Proof.
  unfold JS.toLowerCase. rewrite map_map. apply map_ext, lowerChar_idem.
Qed.

(** A token of a parsed filter. *)
Lemma filter_token_normalized value :
  value ≠ [] → (","%char) ∉ value → JS.trim value = value →
  let token := if JS.startsWith (str ".") value then JS.toLowerCase value
               else str "." ++ JS.toLowerCase value in
  JS.startsWith (str ".") token = true
  ∧ JS.toLowerCase token = token
  ∧ ((","%char) ∉ token)
  ∧ JS.trim token = token.
Proof.
  intros Hne Hcomma Htrim. cbv zeta.
  destruct (StringFacts.trim_spec value) as (_ & _ & _ & _ & _ & Hhead & Hlast).
  rewrite Htrim in Hhead, Hlast.
  assert ((","%char) ∉ JS.toLowerCase value) as Hlc.
  { unfold JS.toLowerCase. rewrite list_elem_of_In, in_map_iff.
    intros (c & Hc & Hin). apply lowerChar_comma in Hc as ->.
    by apply list_elem_of_In in Hin. }
  assert (∀ c t, JS.toLowerCase value = t ++ [c] → JS.isWhiteSpace c = false)
    as Hlast'.
  { intros c t Ht. unfold JS.toLowerCase in Ht.
    apply map_eq_app in Ht as (t' & l' & Hv & _ & Hl).
    destruct l' as [|c' [|? ?]]; try discriminate Hl.
    injection Hl as <-. rewrite isWhiteSpace_lowerChar. by eapply Hlast. }
  destruct (JS.startsWith (str ".") value) eqn:Hdot.
  - split_and!.
    + by rewrite startsWith_dot_lower.
    + apply toLowerCase_idem.
    + done.
    + apply StringFacts.trim_id; [|done].
      intros c t Ht. destruct value as [|c' value']; [done|].
      injection Ht as <- _. rewrite isWhiteSpace_lowerChar. by eapply Hhead.
  - split_and!.
    + apply PosixFacts.startsWith_app.
    + unfold JS.toLowerCase. rewrite map_app, map_map.
      f_equal. apply map_ext, lowerChar_idem.
    + rewrite elem_of_app. intros [Hc|Hc]; [|done].
      by apply list_elem_of_singleton in Hc.
    + apply StringFacts.trim_id.
      * intros c t [= <- _]. reflexivity.
      * intros c t Ht. destruct (JS.toLowerCase value) as [|l ls] eqn:Hl.
        { destruct value; [done|discriminate Hl]. }
        change (str "." ++ l :: ls) with (["."%char] ++ (l :: ls)) in Ht.
        destruct (exists_last (l := l :: ls)) as (t' & c' & Hls); [done|].
        rewrite Hls, app_assoc in Ht. apply app_inj_tail in Ht as [_ <-].
        by eapply Hlast'.
Qed.

Lemma parseExtensionFilter_normalized input defaults :
  parseExtensionFilter input defaults = defaults
  ∨ (parseExtensionFilter input defaults ≠ []
     ∧ Forall (λ token,
                JS.startsWith (str ".") token = true
                ∧ JS.toLowerCase token = token
                ∧ ((","%char) ∉ token)
                ∧ JS.trim token = token)
              (parseExtensionFilter input defaults)).
Proof.
  unfold parseExtensionFilter.
  set (raw := List.filter JS.truthy (map JS.trim (JS.split "," input))).
  destruct (length raw =? 0)%nat eqn:Hlen; [by left|right].
  split.
  { destruct raw; [done|]. done. }
  apply Forall_map, Forall_forall. intros value Hv.
  apply elem_of_List_filter in Hv as [Hv Htruthy].
  apply list_elem_of_In, in_map_iff in Hv as (x & <- & Hx).
  apply list_elem_of_In in Hx.
  pose proof (PosixFacts.split_no_sep ","%char input) as Hsep.
  rewrite Forall_forall in Hsep. specialize (Hsep x Hx).
  destruct (StringFacts.trim_spec x) as (_ & _ & _ & _ & _ & Hhead & Hlast).
  apply filter_token_normalized.
  - by destruct (JS.trim x).
  - intros Hc. by apply StringFacts.trim_elem in Hc.
  - by apply StringFacts.trim_id.
Qed.

(** The decrypted name of a path is never the path itself. *)
Lemma strip_changes p : stripEncryptedExtension p ≠ p.
Proof.
  destruct (strip_cases p) as [[_ Hs]|(stem & e & -> & He & Hs)];
    rewrite Hs; intros Heq; apply (f_equal length) in Heq;
    rewrite length_app in Heq.
  - change (length (str ".decrypted")) with 10 in Heq. lia.
  - rewrite (knownExt_length _ He) in Heq. lia.
Qed.

Lemma strip_empty p : stripEncryptedExtension p = [] ↔ knownExt p.
Proof.
  split.
  - destruct (strip_cases p) as [[_ Hs]|(stem & e & -> & He & Hs)];
      rewrite Hs.
    + intros Heq. apply (f_equal length) in Heq.
      rewrite length_app in Heq.
      change (length (str ".decrypted")) with 10 in Heq. simpl in Heq. lia.
    + by intros ->.
  - intros He. by apply (strip_known [] p).
Qed.



Lemma validateArmoredMessage_eq message :
  validateArmoredMessage message
  = if bool_decide (JS.trim message = []) then
      Some (str "Message cannot be empty")
    else if negb (JSString.includes (str "-----BEGIN PGP MESSAGE-----") message)
    then Some (str "Missing BEGIN header")
    else if negb (JSString.includes (str "-----END PGP MESSAGE-----") message)
    then Some (str "Missing END footer")
    else None.
Proof.
  unfold validateArmoredMessage.
  destruct message as [|c message]; [done|]. cbn [JS.truthy negb].
  rewrite (StringFacts.includes_trim
             (str "-----BEGIN PGP MESSAGE-----") _
             "-"%char (str "----BEGIN PGP MESSAGE----") "-"%char eq_refl)
    by reflexivity.
  rewrite (StringFacts.includes_trim
             (str "-----END PGP MESSAGE-----") _
             "-"%char (str "----END PGP MESSAGE----") "-"%char eq_refl)
    by reflexivity.
  by destruct (JS.trim (c :: message)).
Qed.

Lemma substring_prefix text n :
  JSString.substring text 0 n
  = take (Z.to_nat (Z.min (Z.max n 0) (Z.of_nat (length text)))) text.
Proof.
  unfold JSString.substring. cbv zeta.
  replace (Z.min (Z.max 0 0) (Z.of_nat (length text))) with 0%Z by lia.
  set (c := Z.min (Z.max n 0) (Z.of_nat (length text))).
  replace (Z.min 0 c) with 0%Z by lia. replace (Z.max 0 c - 0)%Z with c by lia.
  done.
Qed.


(** ** Fingerprints *)

Lemma matchUpToFour_groups s :
  ∀ current,
    length current ≤ 3 →
    Forall (λ c, JSString.isLineTerminator c = false) s →
    concat (matchUpToFour current s) = current ++ s
    ∧ Forall (λ g, 1 ≤ length g ≤ 4) (matchUpToFour current s)
    ∧ (∀ full g, matchUpToFour current s = full ++ [g] →
                 Forall (λ g, length g = 4) full).
Proof.
  induction s as [|c s IH]; intros current Hlen Hs.
  - destruct current as [|x current]; simpl.
    + split_and!; [done|constructor|]. intros [|? ?] g Hg; discriminate Hg.
    + rewrite !app_nil_r. split; [done|]. split.
      * constructor; [simpl in *; lia|constructor].
      * intros [|? [|? ?]] g Hg; try discriminate Hg. constructor.
  - inversion Hs as [|? ? Hc Hs']; subst. cbn [matchUpToFour]. rewrite Hc.
    destruct (length current =? 3)%nat eqn:H3.
    + apply Nat.eqb_eq in H3.
      destruct (IH [] ltac:(simpl; lia) Hs') as (Hcat & Hall & Hfull).
      split_and!.
      * simpl. rewrite Hcat. by rewrite <- app_assoc.
      * constructor; [|done]. rewrite length_app. simpl. lia.
      * intros [|x full] g Hg; [constructor|].
        injection Hg as <- Hg. constructor; [|by eapply Hfull].
        rewrite length_app. simpl. lia.
    + apply Nat.eqb_neq in H3.
      destruct (IH (current ++ [c])) as (Hcat & Hall & Hfull); [|done|].
      { rewrite length_app. simpl. lia. }
      split_and!; [|done|done]. rewrite Hcat. by rewrite <- app_assoc.
Qed.

Lemma joinWith_char c g rest :
  rest ≠ [] →
  JSString.joinWith [c] (g :: rest) = g ++ c :: JSString.joinWith [c] rest.
Proof. by destruct rest. Qed.

Lemma split_joinWith c groups :
  groups ≠ [] → Forall (λ g, c ∉ g) groups →
  JS.split c (JSString.joinWith [c] groups) = groups.
Proof.
  induction groups as [|g rest IH]; [done|]. intros _ Hall.
  inversion Hall as [|? ? Hg Hrest]; subst.
  destruct rest as [|g' rest'].
  - simpl. by apply PosixFacts.split_segment.
  - rewrite joinWith_char by done.
    rewrite PosixFacts.split_app, PosixFacts.split_segment by done.
    by rewrite IH.
Qed.

(** ** Sorting *)

Section SortFacts.
Context {A : Type} (time : A → TimeValue).

Lemma insertSorted_perm (compareFn : A → A → option Z) x xs :
  insertSorted compareFn x xs ≡ₚ x :: xs.
Proof.
  induction xs as [|y xs IH]; simpl; [done|].
  destruct (sortCompare compareFn x y <=? 0)%Z; [done|].
  rewrite IH. apply Permutation_swap.
Qed.

Lemma sortWith_perm (compareFn : A → A → option Z) xs :
  sortWith compareFn xs ≡ₚ xs.
Proof.
  induction xs as [|x xs IH]; simpl; [done|].
  by rewrite insertSorted_perm, IH.
Qed.

(** Among valid dates the comparison is the difference of the times. *)
Lemma sortCompare_valid x y tx ty :
  time x = Some tx → time y = Some ty →
  sortCompare (λ a b, minusTime (time b) (time a)) x y = (ty - tx)%Z.
Proof. intros Hx Hy. unfold sortCompare. by rewrite Hx, Hy. Qed.

Lemma insertSorted_newestFirst x xs :
  validTime (time x) →
  Forall (λ y, validTime (time y)) xs →
  newestFirstOrder time xs →
  newestFirstOrder time
    (insertSorted (λ a b, minusTime (time b) (time a)) x xs).
Proof.
  intros [tx Hx] Hvalid. unfold newestFirstOrder.
  induction 1 as [|y xs Hs IH Hy]; simpl.
  - repeat constructor.
  - apply Forall_cons in Hvalid as [[ty Hty] Hvalid].
    rewrite (sortCompare_valid x y tx ty) by done.
    destruct (ty - tx <=? 0)%Z eqn:Hc.
    + apply Z.leb_le in Hc. constructor; [by constructor|].
      constructor; [exists tx, ty; split_and!; [done..|lia]|].
      eapply Forall_impl; [exact Hy|].
      intros z (ty' & tz & Hy' & Hz & Hle). exists tx, tz.
      split_and!; [done..|]. rewrite Hty in Hy'. injection Hy' as <-. lia.
    + apply Z.leb_gt in Hc. constructor; [by apply IH|].
      rewrite insertSorted_perm. constructor; [|done].
      exists ty, tx. split_and!; [done..|lia].
Qed.

Lemma sortWith_newestFirst xs :
  Forall (λ y, validTime (time y)) xs →
  newestFirstOrder time (sortWith (λ a b, minusTime (time b) (time a)) xs).
Proof.
  induction 1 as [|x xs Hx Hxs IH]; simpl; [constructor|].
  apply insertSorted_newestFirst; [done| |done].
  by rewrite sortWith_perm.
Qed.

End SortFacts.

(** ** The stores *)

Section StoreFacts.
Context `{PathModule}.

Lemma recordIn_cases {A} (parse : jsstring → Outcome A) directory files file :
  match recordIn parse directory files file with
  | Some a =>
      ∃ text, Fs.readFile files (join directory file) = Resolves text
              ∧ parse text = Resolves a
  | None =>
      (∃ e, Fs.readFile files (join directory file) = Rejects e)
      ∨ (∃ text e, Fs.readFile files (join directory file) = Resolves text
                   ∧ parse text = Rejects e)
  end.
Proof.
  unfold recordIn.
  destruct (Fs.readFile files (join directory file)) as [text|e];
    [|left; eauto].
  destruct (parse text) as [a|e] eqn:Hparse; [eauto|right; eauto].
Qed.

(** The loop of [listKeys] stops at the first file that cannot be read
    or parsed. *)
Lemma listKeys_loop {A} (parse : jsstring → Outcome A) directory files
  keyFiles (keys : list A) :
  let body := λ file,
    (keyData ← awaitValue (Fs.readFile files (join directory file));
     key ← awaitValue (parse keyData);
     modify (λ keys, keys ++ [key])) : M (list A) unit in
  match mapM (recordIn parse directory files) keyFiles with
  | Some loaded => forOf body keyFiles keys = (Normal (), keys ++ loaded)
  | None => ∃ e keys', forOf body keyFiles keys = (Throw e, keys')
  end.
Proof.
  intros body.
  assert (∀ file keys,
            match recordIn parse directory files file with
            | Some key => body file keys = (Normal (), keys ++ [key])
            | None => ∃ e, body file keys = (Throw e, keys)
            end) as Hbody.
  { intros file keys0.
    pose proof (recordIn_cases parse directory files file) as Hfile.
    unfold body, mbind, M_bind, bind, awaitValue.
    destruct (recordIn parse directory files file) as [key|].
    - destruct Hfile as (text & -> & Hparse). simpl. by rewrite Hparse.
    - destruct Hfile as [(e & ->)|(text & e & -> & Hparse)]; simpl;
        rewrite ?Hparse; eauto. }
  revert keys. induction keyFiles as [|file rest IH]; intros keys.
  - simpl. by rewrite app_nil_r.
  - specialize (Hbody file keys). cbn [mapM forOf].
    destruct (recordIn parse directory files file) as [key|]; simpl.
    + rewrite Hbody. specialize (IH (keys ++ [key])).
      destruct (mapM _ rest) as [loaded|]; simpl.
      * rewrite IH. by rewrite <- app_assoc.
      * exact IH.
    + destruct Hbody as [e ->]. eauto.
Qed.

(** The loop of [listNotes] passes over such a file. *)
Lemma listNotes_loop {A} (parse : jsstring → Outcome A) directory files
  noteFiles (notes : list A) :
  let body := λ file,
    tryCatch
      (data ← awaitValue (Fs.readFile files (join directory file));
       parsed ← awaitValue (parse data);
       modify (λ notes, notes ++ [parsed]))
      (λ error, ret ()) : M (list A) unit in
  forOf body noteFiles notes
  = (Normal (), notes ++ omap (recordIn parse directory files) noteFiles).
Proof.
  intros body.
  assert (∀ file notes,
            body file notes
            = (Normal (),
               notes ++ match recordIn parse directory files file with
                        | Some note => [note]
                        | None => []
                        end)) as Hbody.
  { intros file notes0.
    pose proof (recordIn_cases parse directory files file) as Hfile.
    unfold body, tryCatch, mbind, M_bind, bind, awaitValue.
    destruct (recordIn parse directory files file) as [note|].
    - destruct Hfile as (text & -> & Hparse). simpl. by rewrite Hparse.
    - rewrite app_nil_r.
      destruct Hfile as [(e & ->)|(text & e & -> & Hparse)]; simpl;
        rewrite ?Hparse; eauto. }
  revert notes. induction noteFiles as [|file rest IH]; intros notes.
  - simpl. by rewrite app_nil_r.
  - cbn [forOf]. rewrite Hbody, IH. cbn [omap list_omap].
    destruct (recordIn parse directory files file); simpl;
      by rewrite <- ?app_assoc, ?app_nil_r.
Qed.

End StoreFacts.


(** ** Worlds that answer alike *)

Lemma forOf_ext {S A} (body body' : A → M S unit) xs s :
  (∀ x s, body x s = body' x s) → forOf body xs s = forOf body' xs s.
Proof.
  intros Hb. revert s. induction xs as [|x xs IH]; intros s; [done|].
  simpl. rewrite Hb. destruct (body' x s) as [[| |e] s']; auto.
Qed.

Section WorldExt.
Context `{PathModule} (W W' : World).
Hypothesis same_mkdir : mkdir W = mkdir W'.
Hypothesis same_writeFile : writeFile W = writeFile W'.
Hypothesis same_fileWriter : fileWriter W = fileWriter W'.
Hypothesis same_leavesFile : leavesFile W = leavesFile W'.

Lemma writeOutputToFile_ext {S : Type} `{HasDisk S}
  data outputPath format (s : S) :
  writeOutputToFile W data outputPath format s
  = writeOutputToFile W' data outputPath format s.
Proof.
  unfold writeOutputToFile, settleWrite, awaitOn.
  by rewrite same_mkdir, same_writeFile, same_fileWriter, same_leavesFile.
Qed.

Lemma encryptOne_ext inputDir outputDir outputFormat outputPolicy filePath s :
  (∀ d, encryptFile W d filePath = encryptFile W' d filePath) →
  encryptOne W inputDir outputDir outputFormat outputPolicy filePath s
  = encryptOne W' inputDir outputDir outputFormat outputPolicy filePath s.
Proof.
  intros He.
  unfold encryptOne, Enc.calling, tryCatch, mbind, M_bind, bind, awaitOn,
    awaitValueOn, await, fileExists, gets, awaitValue, modify.
  rewrite same_mkdir. cbn [disk Enc.hasDisk Enc.onDisk Enc.called].
  destruct (mkdir W' _ _); simpl; [done|].
  destruct (bool_decide _); [destruct outputPolicy|]; simpl; try done;
    rewrite He; destruct (encryptFile W' _ _); simpl; try done;
    by rewrite writeOutputToFile_ext.
Qed.


Lemma encryptFolder_ext inputDir outputDir outputFormat outputPolicy
  extensionInput tree onDisk :
  loadPublicKeys W = loadPublicKeys W' →
  (∀ d filePath, encryptFile W d filePath = encryptFile W' d filePath) →
  encryptFolder W inputDir outputDir outputFormat outputPolicy
                extensionInput tree onDisk
  = encryptFolder W' inputDir outputDir outputFormat outputPolicy
                  extensionInput tree onDisk.
Proof.
  intros Hl He. unfold encryptFolder, encryptBatch, tryCatch, mbind, M_bind,
    bind. cbv zeta. rewrite Hl.
  match goal with |- context [forOf _ ?files] => set (filteredFiles := files) end.
  destruct (length filteredFiles =? 0)%nat; [done|].
  destruct (await (loadPublicKeys W') _) as [[| |e] s']; try done.
  rewrite (forOf_ext _ (encryptOne W' inputDir outputDir outputFormat
                                   outputPolicy)); [done|].
  intros x s. by apply encryptOne_ext.
Qed.

End WorldExt.

(** ** The calls into PGPOperations *)


Lemma promiseAll_resolves {A} (f : A → option Thrown) xs :
  Forall (λ x, f x = None) xs → promiseAll f xs = Resolves ().
Proof. induction 1 as [|x xs Hx _ IH]; simpl; [done|]. by rewrite Hx. Qed.

(** Without a passphrase [encryptFile] does not sign, asked or not. *)
Lemma encryptFile_unsigned openpgp input publicKeys outputFormat
  privateKey passphrase filename :
  passphrase = None ∨ passphrase = Some [] →
  PGP.encryptFile openpgp
    {| PGP.input := input; PGP.publicKeys := publicKeys;
       PGP.outputFormat := outputFormat; PGP.sign := Some true;
       PGP.privateKey := privateKey; PGP.passphrase := passphrase;
       PGP.filename := filename |}
  = PGP.encryptFile openpgp
      {| PGP.input := input; PGP.publicKeys := publicKeys;
         PGP.outputFormat := outputFormat; PGP.sign := Some false;
         PGP.privateKey := None; PGP.passphrase := None;
         PGP.filename := filename |}.
Proof.
  intros Hp. unfold PGP.encryptFile, PGP.signingRequested. simpl.
  destruct Hp as [-> | ->]; destruct privateKey as [key|]; try done.
  by rewrite andb_false_r.
Qed.


(** What [decryptFile] resolves with once every call before
    [openpgp.decrypt] has succeeded. *)
Lemma decryptFile_resolves openpgp options decrypted :
  PGP.readMessage openpgp (PGP.encryptedInput options)
                  (PGP.inputFormat options) = None →
  PGP.readPrivateKey openpgp (PGP.ownPrivateKey options) = None →
  (∀ phrase, PGP.decryptKey openpgp (PGP.ownPrivateKey options) phrase = None) →
  (∀ keys, PGP.candidateKeys options = Some keys →
           Forall (λ key, PGP.readKey openpgp key = None) keys) →
  (∀ call, PGP.encryptedMessage call
           = (PGP.encryptedInput options, PGP.inputFormat options) →
           PGP.decrypt openpgp call = Resolves decrypted) →
  PGP.decryptFile openpgp options
  = Resolves ({| data := PGP.plain decrypted;
                 verified := PGP.verifiedOf (PGP.signatures decrypted) |},
              PGP.embeddedName decrypted).
Proof.
  intros Hm Hp Hk Hkeys Hd. unfold PGP.decryptFile.
  rewrite Hm, Hp, Hk. unfold mbind, Outcome_bind, settled, mret, Outcome_ret.
  destruct (PGP.verifySignature options) as [[|]|];
    destruct (PGP.candidateKeys options) as [keys|];
    rewrite ?(promiseAll_resolves _ _ (Hkeys _ eq_refl)), Hd; done.
Qed.

(** ** Paths given by the user *)

Module ResolveFacts.
Import Posix.

Lemma resolveLoop_absolute cwd args acc :
  isAbsolute cwd = true → ∃ x, resolveLoop cwd args acc = (x, true).
Proof.
  intros Hcwd. revert acc. induction args as [|p rest IH]; intros acc; simpl.
  - destruct cwd; [done|]. rewrite Hcwd. eauto.
  - destruct p as [|c p]; [apply IH|].
    destruct (isAbsolute (c :: p)); [eauto|apply IH].
Qed.

Lemma resolveAll_rooted cwd args :
  isAbsolute cwd = true →
  ∃ segs, Forall normalSeg segs ∧ resolveAll cwd args = slash :: joinSegs segs.
Proof.
  intros Hcwd. unfold resolveAll.
  destruct (resolveLoop_absolute cwd (rev args) [] Hcwd) as [x ->].
  simpl. eexists. split; [|reflexivity].
  apply PosixFacts.normSegs_normal; [constructor|apply PosixFacts.split_no_sep].
Qed.

Lemma resolveAll_last_absolute cwd first rest :
  resolveAll cwd [first; slash :: rest] = resolve1 cwd (slash :: rest).
Proof.
  unfold resolve1, resolveAll. simpl. done.
Qed.

Lemma resolveInputPath_rooted cwd home inputPath :
  isAbsolute cwd = true →
  ∃ segs, Forall normalSeg segs
          ∧ resolveInputPath cwd home inputPath = slash :: joinSegs segs.
Proof.
  intros Hcwd. unfold resolveInputPath.
  destruct (JS.startsWith _ _); by apply resolveAll_rooted.
Qed.

Lemma resolveInputPath_of_rooted cwd home segs :
  Forall normalSeg segs →
  resolveInputPath cwd home (slash :: joinSegs segs) = slash :: joinSegs segs.
Proof.
  intros Hn. unfold resolveInputPath.
  change (JS.startsWith (str "~/") (slash :: joinSegs segs)) with false.
  cbv iota. rewrite resolveAll_last_absolute.
  by apply PosixFacts.resolve1_of_rooted.
Qed.

End ResolveFacts.


(** ** What the streaming loop writes *)





(** ** The stores, continued *)

Lemma bind_awaitValue {S A B} (p : Outcome A) (k : A → M S B) s :
  (x ← awaitValue p; k x) s
  = match p with
    | Resolves a => k a s
    | Rejects e => (Throw e, s)
    end.
Proof. by destruct p. Qed.

Lemma bind_step {S A B} (m : M S A) (k : A → M S B) s :
  (x ← m; k x) s
  = match m s with
    | (Normal a, s') => k a s'
    | (Continue, s') => (Continue, s')
    | (Throw e, s') => (Throw e, s')
    end.
Proof. reflexivity. Qed.

Section ListFacts.
Context `{PathModule}.

Lemma listKeys_eq keyStorePath parse listing files :
  KeyStore.listKeys keyStorePath parse listing files
  = match listing with
    | Resolves names =>
        match mapM (recordIn parse keyStorePath files) (jsonFiles names) with
        | Some keys => KeyStore.newestFirst keys
        | None => []
        end
    | Rejects _ => []
    end.
Proof.
  unfold KeyStore.listKeys, tryCatch. cbv zeta. rewrite bind_awaitValue.
  destruct listing as [names|e]; [|done].
  rewrite bind_step. fold (jsonFiles names).
  pose proof (listKeys_loop parse keyStorePath files (jsonFiles names) [])
    as Hloop. cbv zeta in Hloop.
  destruct (mapM _ (jsonFiles names)) as [keys|].
  - by rewrite Hloop.
  - by destruct Hloop as (e & keys' & ->).
Qed.

Lemma listNotes_eq vaultPath parse listing files :
  NoteStore.listNotes vaultPath parse listing files
  = match listing with
    | Resolves names =>
        NoteStore.lastUpdatedFirst
          (omap (recordIn parse vaultPath files) (jsonFiles names))
    | Rejects _ => []
    end.
Proof.
  unfold NoteStore.listNotes, tryCatch. cbv zeta. rewrite bind_awaitValue.
  destruct listing as [names|e]; [|done].
  rewrite bind_step. fold (jsonFiles names).
  pose proof (listNotes_loop parse vaultPath files (jsonFiles names) [])
    as Hloop. cbv zeta in Hloop. unfold tryCatch in Hloop.
  by rewrite Hloop.
Qed.

Lemma getKey_eq keyStorePath parse fingerprint files :
  KeyStore.getKey keyStorePath parse fingerprint files
  = recordIn parse keyStorePath files (fingerprint ++ str ".json").
Proof.
  unfold KeyStore.getKey, KeyStore.getKeyPath, recordIn, tryCatch.
  cbv zeta. rewrite bind_awaitValue.
  destruct (Fs.readFile files _) as [text|e]; [|done].
  rewrite bind_awaitValue. by destruct (parse text).
Qed.

End ListFacts.


(** ** Files that cannot be decrypted *)

Section RejectedFacts.
Context `{PathModule} (W : World).
Variables (inputDir outputDir : jsstring).
Variables (formatHandling : FormatHandling) (outputPolicy : OutputPolicy).
Variable (verifySignatures : bool).



End RejectedFacts.

(** ** Paths of the input and the output tree *)

Module MirrorFacts.
Import Posix.

Lemma normalSeg_nonempty seg : normalSeg seg → seg ≠ [].
Proof. by intros (? & _). Qed.

Lemma normalSeg_suffix seg fmt :
  normalSeg seg → normalSeg (seg ++ outputExtension fmt).
Proof.
  intros (Hne & _ & _ & Hslash).
  assert (4 < length (seg ++ outputExtension fmt)) as Hlen.
  { rewrite length_app. destruct seg; [done|]. destruct fmt; simpl; lia. }
  split_and!; try (intros Heq; rewrite Heq in Hlen; simpl in Hlen; lia).
  rewrite elem_of_app. intros [?|Hin]; [done|].
  destruct fmt; vm_compute in Hin;
    repeat (apply elem_of_cons in Hin as [Hin|Hin]; [discriminate Hin|]);
    by apply elem_of_nil in Hin.
Qed.

Lemma joinSegs_nonempty segs :
  segs ≠ [] → Forall normalSeg segs → joinSegs segs ≠ [].
Proof.
  intros Hne Hall. destruct segs as [|s rest]; [done|].
  inversion Hall as [|? ? (Hs & _) _]; subst.
  destruct rest; simpl; [done|]. by destruct s.
Qed.

Lemma joinSegs_snoc segs seg suffix :
  joinSegs (segs ++ [seg ++ suffix]) = joinSegs (segs ++ [seg]) ++ suffix.
Proof.
  induction segs as [|s rest IH]; [done|].
  change ((s :: rest) ++ [?x]) with (s :: (rest ++ [x])).
  rewrite !PosixFacts.joinSegs_cons by (by destruct rest).
  by rewrite IH, <- app_assoc.
Qed.

Lemma endsWithSlash_joinSegs before segs :
  segs ≠ [] → Forall normalSeg segs →
  endsWithSlash (before ++ joinSegs segs) = false.
Proof.
  intros Hne Hall.
  destruct (exists_last Hne) as (front & final & ->).
  apply Forall_app in Hall as [_ Hfinal].
  inversion Hfinal as [|? ? (Hf & _ & _ & Hslash) _]; subst.
  destruct (exists_last Hf) as (init & c & ->).
  rewrite joinSegs_snoc, !app_assoc. unfold endsWithSlash.
  rewrite rev_app_distr. simpl. apply bool_decide_false.
  intros ->. apply Hslash. rewrite elem_of_app. right. by left.
Qed.

(** Joining a path in normal form to a directory in normal form puts its
    segments behind those of the directory. *)
Lemma join2_rooted dirSegs segs :
  Forall normalSeg dirSegs → Forall normalSeg segs → segs ≠ [] →
  join2 (slash :: joinSegs dirSegs) (joinSegs segs)
  = slash :: joinSegs (dirSegs ++ segs).
Proof.
  intros Hdir Hsegs Hne. unfold join2.
  pose proof (joinSegs_nonempty segs Hne Hsegs) as Hj.
  assert (List.filter JS.truthy [slash :: joinSegs dirSegs; joinSegs segs]
          = [slash :: joinSegs dirSegs; joinSegs segs]) as ->.
  { simpl. by destruct (joinSegs segs). }
  cbn [joinSegs]. unfold normalize.
  set (p := (slash :: joinSegs dirSegs) ++ slash :: joinSegs segs).
  assert (isAbsolute p = true) as Habs by reflexivity.
  assert (endsWithSlash p = false) as Hend.
  { unfold p.
    replace ((slash :: joinSegs dirSegs) ++ slash :: joinSegs segs)
      with (((slash :: joinSegs dirSegs) ++ [slash]) ++ joinSegs segs)
      by (by rewrite <- app_assoc).
    by apply endsWithSlash_joinSegs. }
  assert (normalizeString p false = joinSegs (dirSegs ++ segs)) as Hn.
  { unfold normalizeString, p. f_equal.
    change ((slash :: joinSegs dirSegs) ++ slash :: joinSegs segs)
      with (slash :: (joinSegs dirSegs ++ slash :: joinSegs segs)).
    rewrite PosixFacts.split_cons_eq, bool_decide_true by done.
    rewrite PosixFacts.normSegs_skip_empty, PosixFacts.split_app.
    rewrite (PosixFacts.split_joinSegs segs); [|done|].
    2:{ eapply Forall_impl; [exact Hsegs|]. by intros y (_ & _ & _ & ?). }
    destruct dirSegs as [|d rest].
    - simpl. by rewrite (PosixFacts.normSegs_of_normal false []).
    - rewrite PosixFacts.split_joinSegs; [|done|].
      2:{ eapply Forall_impl; [exact Hdir|]. by intros y (_ & _ & _ & ?). }
      apply (PosixFacts.normSegs_of_normal false []).
      by apply Forall_app. }
  destruct p as [|c p'] eqn:Hp; [done|].
  rewrite Habs, Hend. cbn [negb]. rewrite Hn.
  destruct (joinSegs (dirSegs ++ segs)) eqn:Hjoin; [|done].
  exfalso. eapply (joinSegs_nonempty (dirSegs ++ segs)); [| |exact Hjoin].
  - by destruct dirSegs, segs.
  - by apply Forall_app.
Qed.

Lemma dropCommon_prefix xs ys : dropCommon xs (xs ++ ys) = ([], ys).
Proof.
  induction xs as [|x xs IH]; [by destruct ys|].
  simpl. by rewrite bool_decide_true.
Qed.

Lemma rooted_inj segs segs' :
  Forall normalSeg segs → Forall normalSeg segs' →
  slash :: joinSegs segs = slash :: joinSegs segs' → segs = segs'.
Proof.
  intros Hs Hs' Heq. apply (f_equal segments) in Heq.
  by rewrite !PosixFacts.segments_rooted in Heq.
Qed.

(** The path of something below a directory, relative to the directory,
    is what lies behind the segments of the directory. *)
Lemma relative2_rooted cwd dirSegs segs :
  Forall normalSeg dirSegs → Forall normalSeg segs → segs ≠ [] →
  relative2 cwd (slash :: joinSegs dirSegs)
            (slash :: joinSegs (dirSegs ++ segs))
  = joinSegs segs.
Proof.
  intros Hdir Hsegs Hne. unfold relative2.
  assert (Forall normalSeg (dirSegs ++ segs)) as Hall by (by apply Forall_app).
  assert (slash :: joinSegs dirSegs ≠ slash :: joinSegs (dirSegs ++ segs))
    as Hdiff.
  { intros Heq. apply rooted_inj in Heq; [|done..].
    apply (f_equal length) in Heq. rewrite length_app in Heq.
    destruct segs; [done|]. simpl in Heq. lia. }
  rewrite bool_decide_false by done.
  rewrite !PosixFacts.resolve1_of_rooted by done.
  rewrite bool_decide_false by done.
  rewrite !PosixFacts.segments_rooted by done.
  by rewrite dropCommon_prefix.
Qed.

Section Mirror.
Variable cwd : jsstring.
Variables (inSegs outSegs : list jsstring).
Hypothesis inSegs_normal : Forall normalSeg inSegs.
Hypothesis outSegs_normal : Forall normalSeg outSegs.

Lemma encryptOutputPath_rooted fmt relSegs name :
  Forall normalSeg relSegs → normalSeg name →
  @encryptOutputPath (Posix.module cwd)
    (slash :: joinSegs inSegs) (slash :: joinSegs outSegs) fmt
    (slash :: joinSegs (inSegs ++ relSegs ++ [name]))
  = slash :: joinSegs (outSegs ++ relSegs ++ [name ++ outputExtension fmt]).
Proof.
  intros Hrel Hname. unfold encryptOutputPath, encryptRelPath. simpl.
  rewrite relative2_rooted; [|done| |by destruct relSegs].
  2:{ apply Forall_app. split; [done|]. by constructor. }
  rewrite <- joinSegs_snoc.
  apply join2_rooted; [done| |by destruct relSegs].
  apply Forall_app. split; [done|]. constructor; [|done].
  by apply normalSeg_suffix.
Qed.

Lemma decryptOutputPath_rooted fmt relSegs name :
  Forall normalSeg relSegs → normalSeg name →
  @decryptOutputPath (Posix.module cwd)
    (slash :: joinSegs inSegs) (slash :: joinSegs outSegs)
    (slash :: joinSegs (inSegs ++ relSegs ++ [name ++ outputExtension fmt]))
  = slash :: joinSegs (outSegs ++ relSegs ++ [name]).
Proof.
  intros Hrel Hname. unfold decryptOutputPath. simpl.
  rewrite relative2_rooted; [|done| |by destruct relSegs].
  2:{ apply Forall_app. split; [done|]. constructor; [|done].
      by apply normalSeg_suffix. }
  rewrite joinSegs_snoc, strip_known by apply outputExtension_known.
  apply join2_rooted; [done| |by destruct relSegs].
  apply Forall_app. split; [done|]. by constructor.
Qed.

(** The plain files of a tree whose entries have proper names lie at the
    root's segments followed by the names on the way to them. *)
Lemma fileUnder_rooted rootDir entries p :
  @fileUnder (Posix.module cwd) rootDir entries p →
  ∀ rootSegs,
    rootDir = slash :: joinSegs rootSegs → Forall normalSeg rootSegs →
    Forall properlyNamed entries →
    ∃ relSegs name,
      Forall normalSeg relSegs ∧ normalSeg name
      ∧ p = slash :: joinSegs (rootSegs ++ relSegs ++ [name]).
Proof.
  induction 1 as [rootDir entries name Hin
                 |rootDir entries name sub p Hin _ IH];
    intros rootSegs -> Hroot Hnames; rewrite Forall_forall in Hnames.
  - specialize (Hnames _ Hin). inversion Hnames as [? Hn| |]; subst.
    exists [], name. split_and!; [constructor|done|].
    apply (join2_rooted rootSegs [name]); [done| |done].
    by constructor.
  - specialize (Hnames _ Hin). inversion Hnames as [|? ? Hn Hsub|]; subst.
    destruct (IH (rootSegs ++ [name])) as (relSegs & file & Hrel & Hfile & ->).
    + apply (join2_rooted rootSegs [name]); [done| |done].
      by constructor.
    + apply Forall_app. split; [done|]. by constructor.
    + done.
    + exists (name :: relSegs), file. split_and!; [by constructor|done|].
      by rewrite <- app_assoc.
Qed.

End Mirror.

Lemma takeWhile_notSlash xs rest :
  slash ∉ xs → takeWhile notSlash (xs ++ slash :: rest) = xs.
Proof.
  induction xs as [|x xs IH]; intros Hx; [done|].
  cbn [app takeWhile]. unfold notSlash at 1, isSlash.
  rewrite bool_decide_false.
  - simpl. f_equal. apply IH. intros Hin. apply Hx. by right.
  - intros ->. apply Hx. by left.
Qed.

(** The extension of a path whose last segment is a name followed by the
    suffix of a format is that suffix. *)
Lemma extname1_suffix before name fmt :
  name ≠ [] → slash ∉ name →
  extname1 (before ++ slash :: name ++ outputExtension fmt)
  = outputExtension fmt.
Proof.
  intros Hne Hslash. unfold extname1.
  rewrite rev_app_distr. cbn [rev]. rewrite rev_app_distr, <- !app_assoc.
  cbn [app].
  assert (slash ∉ rev name) as Hrev.
  { intros Hin. apply Hslash. by apply list_elem_of_In, in_rev, list_elem_of_In. }
  destruct (rev name) as [|d pre] eqn:Hname.
  { apply (f_equal length) in Hname. rewrite length_rev in Hname.
    by destruct name. }
  assert (∀ a b c : ascii,
            a ≠ slash → b ≠ slash → c ≠ slash →
            a ≠ dot → b ≠ dot → c ≠ dot →
            match
              dropWhile notDot
                (takeWhile notSlash
                   (dropWhile isSlash
                      ([a; b; c; dot] ++ (d :: pre) ++ slash :: rev before)))
            with
            | [] => []
            | _ :: pre' =>
                match
                  pre',
                  takeWhile notDot
                    (takeWhile notSlash
                       (dropWhile isSlash
                          ([a; b; c; dot] ++ (d :: pre) ++ slash :: rev before)))
                with
                | [], _ => []
                | [d'], [] => if bool_decide (d' = dot) then [] else [dot]
                | _, _ =>
                    dot :: rev (takeWhile notDot
                                  (takeWhile notSlash
                                     (dropWhile isSlash
                                        ([a; b; c; dot] ++ (d :: pre)
                                         ++ slash :: rev before))))
                end
            end = [dot; c; b; a]) as Hext.
  { intros a b c Ha Hb Hc Ha' Hb' Hc'.
    assert (dropWhile isSlash
              ([a; b; c; dot] ++ (d :: pre) ++ slash :: rev before)
            = ([a; b; c; dot] ++ d :: pre) ++ slash :: rev before) as ->.
    { simpl. unfold isSlash. by rewrite bool_decide_false. }
    rewrite takeWhile_notSlash.
    2:{ rewrite elem_of_app. intros [Hin|Hin]; [|done].
        repeat (apply elem_of_cons in Hin as [Hin|Hin];
                [first [congruence | discriminate Hin]|]).
        by apply elem_of_nil in Hin. }
    simpl. unfold notDot.
    rewrite !(bool_decide_false (_ = dot)) by done. simpl.
    by destruct pre. }
  destruct fmt.
  - apply (Hext "c" "s" "a")%char; discriminate.
  - apply (Hext "p" "g" "p")%char; discriminate.
Qed.

Lemma rooted_last segs seg :
  ∃ before, slash :: joinSegs (segs ++ [seg]) = before ++ slash :: seg.
Proof.
  destruct segs as [|s rest]; [by exists []|].
  exists (slash :: joinSegs (s :: rest)).
  by rewrite PosixFacts.joinSegs_app.
Qed.

End MirrorFacts.

(** * Further properties: statements *)

(** X1.  Without an exclusion the walk yields exactly the plain files of
    the tree, each under the path formed by joining the names on the way
    to it: no directory, no other kind of entry, and no plain file is
    left out.  With an exclusion it yields a sublist of those, in the
    same order. *)
Theorem X1_walk_lists_exactly_the_plain_files `{PathModule}
  (rootDir : jsstring) (excludeDir : option jsstring)
  (entries : list Dirent) (p : jsstring) :
  (p ∈ listFilesRecursive rootDir None entries ↔ fileUnder rootDir entries p)
  ∧ sublist (listFilesRecursive rootDir excludeDir entries)
            (listFilesRecursive rootDir None entries).
Proof.
  split; [split|].
  - apply listFilesRecursive_fileUnder.
  - apply fileUnder_listed.
  - apply listFilesRecursive_sublist.
Qed.

(** X2.  Under POSIX paths with an absolute working directory, and an
    excluded directory other than the root of the file system, the walk
    neither yields nor descends into anything that lies at or under the
    excluded directory. *)
Theorem X2_walk_prunes_an_excluded_directory
  (cwd rootDir exclude : jsstring) (entries : list Dirent) (p : jsstring) :
  let posix := Posix.module cwd in
  Posix.isAbsolute cwd = true →
  exclude ≠ [] →
  Posix.segments (resolve exclude) ≠ [] →
  p ∈ listFilesRecursive rootDir (Some exclude) entries
  ∨ p ∈ directoriesEntered rootDir (Some exclude) entries →
  ¬ isOrUnder (resolve exclude) (resolve p).
Proof.
  exact (posix_walk_prunes_excluded cwd rootDir exclude entries p).
Qed.

Lemma X2_witness :
  let posix := Posix.module (str "/") in
  Posix.isAbsolute (str "/") = true
  ∧ str "/in/out" ≠ []
  ∧ Posix.segments (resolve (str "/in/out")) ≠ []
  ∧ (str "/in/a.txt"
       ∈ listFilesRecursive (str "/in") (Some (str "/in/out")) treeWithOutput
     ∨ str "/in/a.txt"
         ∈ directoriesEntered (str "/in") (Some (str "/in/out")) treeWithOutput)
  ∧ ¬ isOrUnder (resolve (str "/in/out")) (resolve (str "/in/a.txt")).
Proof.
  intros posix.
  assert (Posix.isAbsolute (str "/") = true) as Hcwd by reflexivity.
  assert (str "/in/out" ≠ []) as Hne by discriminate.
  assert (Posix.segments (resolve (str "/in/out")) ≠ []) as Hroot
    by (vm_compute; discriminate).
  assert (str "/in/a.txt"
            ∈ listFilesRecursive (str "/in") (Some (str "/in/out")) treeWithOutput
          ∨ str "/in/a.txt"
              ∈ directoriesEntered (str "/in") (Some (str "/in/out"))
                                   treeWithOutput) as Hp
    by (left; vm_compute; constructor).
  split_and!; [exact Hcwd|exact Hne|exact Hroot|exact Hp|].
  exact (X2_walk_prunes_an_excluded_directory
           (str "/") (str "/in") (str "/in/out") treeWithOutput
           (str "/in/a.txt") Hcwd Hne Hroot Hp).
Defined.

(** X3.  A run of either loop never undoes anything: whatever the
    outside world answers, no file that was on disk is gone afterwards,
    no counter has gone down, and the records made earlier are still
    there, at the front of the lists. *)
Theorem X3_batch_never_undoes_its_work `{PathModule} (W : World)
  (inputDir outputDir : jsstring) (outputFormat : PgpOutputFormat)
  (formatHandling : FormatHandling) (outputPolicy : OutputPolicy)
  (verifySignatures : bool) (files : list jsstring) :
  (∀ s,
     let s' := (forOf (encryptOne W inputDir outputDir outputFormat
                                  outputPolicy) files s).2 in
     Enc.onDisk s ⊆ Enc.onDisk s'
     ∧ Enc.encryptedCount s ≤ Enc.encryptedCount s'
     ∧ Enc.skippedCount s ≤ Enc.skippedCount s'
     ∧ Enc.failures s `prefix_of` Enc.failures s')
  ∧ (∀ s,
       let s' := (forOf (decryptOne W inputDir outputDir formatHandling
                                    outputPolicy verifySignatures) files s).2 in
       Dec.onDisk s ⊆ Dec.onDisk s'
       ∧ Dec.decryptedCount s ≤ Dec.decryptedCount s'
       ∧ Dec.skippedCount s ≤ Dec.skippedCount s'
       ∧ Dec.failures s `prefix_of` Dec.failures s'
       ∧ Dec.signatureFailures s `prefix_of` Dec.signatureFailures s').
Proof.
  split; intros s; cbv zeta.
  - split; [apply encryptLoop_disk|apply encryptLoop_grows].
  - split; [apply decryptLoop_disk|apply decryptLoop_grows].
Qed.

(** X4.  Under the policy [skip], a file whose output path is taken only
    adds one to [skippedCount].  The iteration makes the directory of
    the output and asks whether the output exists, and calls nothing
    else: the engine is not called and [writeOutputToFile] is not
    called, so nothing is encrypted or decrypted and nothing written.
    No failure is recorded, the files on disk stay as they are, and the
    loop goes on with the next file. *)
Theorem X4_skip_policy_counts_the_file_and_moves_on `{PathModule} (W : World)
  (inputDir outputDir : jsstring) (outputFormat : PgpOutputFormat)
  (formatHandling : FormatHandling) (verifySignatures : bool) :
  let encOne := encryptOne W inputDir outputDir outputFormat skip in
  let decOne := decryptOne W inputDir outputDir formatHandling skip
                           verifySignatures in
  (∀ filePath rest s,
     let outputPath := encryptOutputPath inputDir outputDir outputFormat filePath in
     mkdir W (Enc.onDisk s) (dirname outputPath) = None →
     outputPath ∈ Enc.onDisk s →
     ∃ s',
       forOf encOne (filePath :: rest) s = forOf encOne rest s'
       ∧ Enc.skippedCount s' = Enc.skippedCount s + 1
       ∧ Enc.encryptedCount s' = Enc.encryptedCount s
       ∧ Enc.failures s' = Enc.failures s
       ∧ Enc.onDisk s' = Enc.onDisk s
       ∧ Enc.written s' = Enc.written s
       ∧ Enc.calls s'
         = Enc.calls s
           ++ [CallMkdir (dirname outputPath); CallExists outputPath])
  ∧ (∀ filePath rest s,
       let outputPath := decryptOutputPath inputDir outputDir filePath in
       mkdir W (Dec.onDisk s) (dirname outputPath) = None →
       outputPath ∈ Dec.onDisk s →
       ∃ s',
         forOf decOne (filePath :: rest) s = forOf decOne rest s'
         ∧ Dec.skippedCount s' = Dec.skippedCount s + 1
         ∧ Dec.decryptedCount s' = Dec.decryptedCount s
         ∧ Dec.failures s' = Dec.failures s
         ∧ Dec.signatureFailures s' = Dec.signatureFailures s
         ∧ Dec.onDisk s' = Dec.onDisk s
         ∧ Dec.written s' = Dec.written s
         ∧ Dec.calls s'
           = Dec.calls s
             ++ [CallMkdir (dirname outputPath); CallExists outputPath]).
Proof.
  cbv zeta. split; intros filePath rest s Hm Hin.
  - rewrite forOf_step by apply encryptOne_neverThrows.
    eexists. split; [reflexivity|].
    rewrite encryptOne_skip by done. simpl.
    by rewrite <- app_assoc.
  - rewrite forOf_step by apply decryptOne_neverThrows.
    eexists. split; [reflexivity|].
    rewrite decryptOne_skip by done. simpl.
    by rewrite <- app_assoc.
Qed.

Lemma X4_witness :
  let posix := Posix.module (str "/") in
  let encOne := encryptOne calmWorld (str "/in") (str "/out") armored skip in
  let s := Enc.start {[ str "/out/a.txt.asc" ]} in
  mkdir calmWorld (Enc.onDisk s) (dirname (str "/out/a.txt.asc")) = None
  ∧ str "/out/a.txt.asc" ∈ Enc.onDisk s
  ∧ ∃ s',
      forOf encOne [str "/in/a.txt"; str "/in/b.txt"] s
      = forOf encOne [str "/in/b.txt"] s'
      ∧ Enc.skippedCount s' = Enc.skippedCount s + 1
      ∧ Enc.encryptedCount s' = Enc.encryptedCount s
      ∧ Enc.failures s' = Enc.failures s
      ∧ Enc.onDisk s' = Enc.onDisk s
      ∧ Enc.written s' = Enc.written s
      ∧ Enc.calls s'
        = Enc.calls s
          ++ [CallMkdir (dirname (str "/out/a.txt.asc"));
              CallExists (str "/out/a.txt.asc")].
Proof.
  intros posix encOne s.
  assert (mkdir calmWorld (Enc.onDisk s) (dirname (str "/out/a.txt.asc")) = None)
    as Hm by reflexivity.
  assert (str "/out/a.txt.asc" ∈ Enc.onDisk s) as Hin
    by (unfold s; simpl; apply elem_of_singleton_2; reflexivity).
  split; [exact Hm|]. split; [exact Hin|].
  exact (proj1 (X4_skip_policy_counts_the_file_and_moves_on
                  calmWorld (str "/in") (str "/out") armored auto false)
               (str "/in/a.txt") [str "/in/b.txt"] s Hm Hin).
Defined.

(** X5.  A file that passes the collision check, is transformed and is
    written counts as processed and leaves a file at its output path:
    the loop goes on from the state with one more encrypted (decrypted)
    file and the output path on disk, all else as before.  The calls of
    the iteration are, in this order, [mkdir], the test for the output,
    the engine and [writeOutputToFile].  In [decryptFolder] this is so
    whenever signatures are not verified or the result does not say that
    verification failed. *)
Theorem X5_processed_file_is_counted_and_on_disk `{PathModule} (W : World)
  (inputDir outputDir : jsstring) (outputFormat : PgpOutputFormat)
  (formatHandling : FormatHandling) (outputPolicy : OutputPolicy)
  (verifySignatures : bool) :
  let encOne := encryptOne W inputDir outputDir outputFormat outputPolicy in
  let decOne := decryptOne W inputDir outputDir formatHandling outputPolicy
                           verifySignatures in
  (∀ filePath rest s d s1,
     let outputPath := encryptOutputPath inputDir outputDir outputFormat filePath in
     mkdir W (Enc.onDisk s) (dirname outputPath) = None →
     outputPath ∉ Enc.onDisk s ∨ outputPolicy = overwrite →
     encryptFile W (Enc.onDisk s) filePath = Resolves d →
     writeOutputToFile W d outputPath outputFormat s = (Normal (), s1) →
     ∃ s',
       forOf encOne (filePath :: rest) s = forOf encOne rest s'
       ∧ Enc.encryptedCount s' = Enc.encryptedCount s + 1
       ∧ Enc.skippedCount s' = Enc.skippedCount s
       ∧ Enc.failures s' = Enc.failures s
       ∧ Enc.onDisk s' = {[outputPath]} ∪ Enc.onDisk s
       ∧ Enc.written s' = Enc.written s ++ [outputPath]
       ∧ Enc.calls s'
         = Enc.calls s
           ++ [CallMkdir (dirname outputPath); CallExists outputPath;
               CallEncryptFile filePath;
               CallWriteOutputToFile outputPath outputFormat])
  ∧ (∀ filePath rest s r s1,
       let outputPath := decryptOutputPath inputDir outputDir filePath in
       let format := resolveInputFormat filePath formatHandling in
       mkdir W (Dec.onDisk s) (dirname outputPath) = None →
       outputPath ∉ Dec.onDisk s ∨ outputPolicy = overwrite →
       decryptFile W (Dec.onDisk s) filePath format verifySignatures
       = Resolves r →
       writeOutputToFile W (data r) outputPath binary s = (Normal (), s1) →
       verifySignatures = false ∨ verified r ≠ Some false →
       ∃ s',
         forOf decOne (filePath :: rest) s = forOf decOne rest s'
         ∧ Dec.decryptedCount s' = Dec.decryptedCount s + 1
         ∧ Dec.skippedCount s' = Dec.skippedCount s
         ∧ Dec.failures s' = Dec.failures s
         ∧ Dec.signatureFailures s' = Dec.signatureFailures s
         ∧ Dec.onDisk s' = {[outputPath]} ∪ Dec.onDisk s
         ∧ Dec.written s' = Dec.written s ++ [outputPath]
         ∧ Dec.calls s'
           = Dec.calls s
             ++ [CallMkdir (dirname outputPath); CallExists outputPath;
                 CallDecryptFile filePath format verifySignatures;
                 CallWriteOutputToFile outputPath binary]).
Proof.
  cbv zeta. split.
  - intros filePath rest s d s1 Hm Hreach He Hw.
    rewrite forOf_step by apply encryptOne_neverThrows.
    eexists. split; [reflexivity|].
    rewrite (encryptOne_success W _ _ _ _ filePath s d s1) by done.
    rewrite (writeOutputToFile_normal W _ _ _ _ _ Hw). simpl.
    by rewrite <- !app_assoc.
  - intros filePath rest s r s1 Hm Hreach Hd Hw Hver.
    rewrite forOf_step by apply decryptOne_neverThrows.
    eexists. split; [reflexivity|].
    rewrite (decryptOne_success W _ _ _ _ _ filePath s r s1) by done.
    rewrite (writeOutputToFile_normal W _ _ _ _ _ Hw). simpl.
    by rewrite <- !app_assoc.
Qed.

Lemma X5_witness :
  let posix := Posix.module (str "/") in
  let encOne := encryptOne calmWorld (str "/in") (str "/out") armored abort in
  let s := Enc.start ∅ in
  let d := DataString (str "-----BEGIN PGP MESSAGE-----") in
  let s1 := wrote (str "/out/a.txt.asc") s in
  mkdir calmWorld (Enc.onDisk s) (dirname (str "/out/a.txt.asc")) = None
  ∧ (str "/out/a.txt.asc" ∉ Enc.onDisk s ∨ abort = overwrite)
  ∧ encryptFile calmWorld (Enc.onDisk s) (str "/in/a.txt") = Resolves d
  ∧ writeOutputToFile calmWorld d (str "/out/a.txt.asc") armored s
    = (Normal (), s1)
  ∧ ∃ s',
      forOf encOne [str "/in/a.txt"; str "/in/b.txt"] s
      = forOf encOne [str "/in/b.txt"] s'
      ∧ Enc.encryptedCount s' = Enc.encryptedCount s + 1
      ∧ Enc.skippedCount s' = Enc.skippedCount s
      ∧ Enc.failures s' = Enc.failures s
      ∧ Enc.onDisk s' = {[ str "/out/a.txt.asc" ]} ∪ Enc.onDisk s
      ∧ Enc.written s' = Enc.written s ++ [str "/out/a.txt.asc"]
      ∧ Enc.calls s'
        = Enc.calls s
          ++ [CallMkdir (dirname (str "/out/a.txt.asc"));
              CallExists (str "/out/a.txt.asc");
              CallEncryptFile (str "/in/a.txt");
              CallWriteOutputToFile (str "/out/a.txt.asc") armored].
Proof.
  intros posix encOne s d s1.
  assert (mkdir calmWorld (Enc.onDisk s) (dirname (str "/out/a.txt.asc")) = None)
    as Hm by reflexivity.
  assert (str "/out/a.txt.asc" ∉ Enc.onDisk s ∨ abort = overwrite) as Hreach
    by (left; apply not_elem_of_empty).
  assert (encryptFile calmWorld (Enc.onDisk s) (str "/in/a.txt") = Resolves d)
    as He by reflexivity.
  assert (writeOutputToFile calmWorld d (str "/out/a.txt.asc") armored s
          = (Normal (), s1)) as Hw.
  { unfold writeOutputToFile, settleWrite, created, modify, mbind, M_bind,
      bind, awaitOn, await. unfold s1, s. simpl. by rewrite union_empty_r_L. }
  split; [exact Hm|]. split; [exact Hreach|]. split; [exact He|].
  split; [exact Hw|].
  exact (proj1 (X5_processed_file_is_counted_and_on_disk
                  calmWorld (str "/in") (str "/out") armored auto abort false)
               (str "/in/a.txt") [str "/in/b.txt"] s d s1 Hm Hreach He Hw).
Defined.


(** X7.  Every failure record a run ends with names a plain file of the
    input tree that the walk yielded: the files of the records form a
    sublist of the walk, in its order, so no file is recorded twice
    unless the walk yielded it twice, and none lies in a pruned
    directory.  In [decryptFolder] they are among the files that passed
    the extension filter. *)
Theorem X7_failures_name_files_of_the_walk `{PathModule} (W : World)
  (inputDir outputDir : jsstring) (outputFormat : PgpOutputFormat)
  (formatHandling : FormatHandling) (outputPolicy : OutputPolicy)
  (verifySignatures : bool)
  (extensionInput : jsstring) (tree : list Dirent) (onDisk : gset jsstring) :
  let walked := listFilesRecursive inputDir (Some outputDir) tree in
  let enc := (encryptFolder W inputDir outputDir outputFormat outputPolicy
                            extensionInput tree onDisk).2 in
  let dec := (decryptFolder W inputDir outputDir formatHandling outputPolicy
                            verifySignatures extensionInput tree onDisk).2 in
  sublist (map file (Enc.failures enc)) walked
  ∧ Forall (λ failure, fileUnder inputDir tree (file failure)) (Enc.failures enc)
  ∧ sublist
      (map file (Dec.failures dec))
      (List.filter
         (λ filePath,
           JS.includes
             (parseExtensionFilter extensionInput (defaultFilter formatHandling))
             (JS.toLowerCase (extname filePath)))
         walked)
  ∧ Forall (λ failure, fileUnder inputDir tree (file failure)) (Dec.failures dec).
Proof.
  cbv zeta.
  pose proof (encryptFolder_failures W inputDir outputDir outputFormat
                outputPolicy extensionInput tree onDisk) as Henc.
  destruct (decryptFolder_failures W inputDir outputDir formatHandling
              outputPolicy verifySignatures extensionInput tree onDisk)
    as (Hdec & _).
  assert (∀ failures : list Failure,
            sublist (map file failures)
                    (listFilesRecursive inputDir (Some outputDir) tree) →
            Forall (λ failure, fileUnder inputDir tree (file failure)) failures)
    as Hunder.
  { intros failures Hsub. apply Forall_forall. intros failure Hin.
    apply (listFilesRecursive_fileUnder inputDir (Some outputDir)).
    eapply elem_of_sublist; [|exact Hsub].
    apply list_elem_of_In, in_map, list_elem_of_In, Hin. }
  split_and!; [exact Henc|by apply Hunder|exact Hdec|].
  apply Hunder. etrans; [exact Hdec|apply sublist_List_filter].
Qed.


(** X8.  Unless it hands back the defaults, [parseExtensionFilter]
    returns tokens in the form the filter test compares against: each
    starts with a dot, is in lower case, holds no comma and has no white
    space at either end; and there is at least one. *)
Theorem X8_parsed_filter_tokens_are_normalized
  (input : jsstring) (defaults : list jsstring) :
  parseExtensionFilter input defaults = defaults
  ∨ (parseExtensionFilter input defaults ≠ []
     ∧ Forall (λ token,
                JS.startsWith (str ".") token = true
                ∧ JS.toLowerCase token = token
                ∧ ((","%char) ∉ token)
                ∧ JS.trim token = token)
              (parseExtensionFilter input defaults)).
Proof. apply parseExtensionFilter_normalized. Qed.

(** X9.  The name [stripEncryptedExtension] gives is never the name it
    was given, so a decrypted file never gets the relative path of its
    own input; and the name is empty exactly when the whole path is one
    of the suffixes [.pgp], [.gpg], [.asc] (in any letter case). *)
Theorem X9_decrypted_name_differs_from_its_input (pathValue : jsstring) :
  stripEncryptedExtension pathValue ≠ pathValue
  ∧ (stripEncryptedExtension pathValue = [] ↔ knownExt pathValue).
Proof. split; [apply strip_changes|apply strip_empty]. Qed.



(** X11.  [validateArmoredMessage] accepts a text exactly when the text
    holds both the BEGIN and the END line of a PGP message, wherever and
    in whatever order, white space around the text being immaterial; it
    answers "Message cannot be empty" exactly for texts of white space
    only, and otherwise names the first marker that is missing.
    [validatePublicKeyBlock] accepts exactly the texts that hold both
    markers of a public key block. *)
Theorem X11_validators_accept_texts_with_both_markers (text : jsstring) :
  validateArmoredMessage text
  = (if bool_decide (JS.trim text = []) then
       Some (str "Message cannot be empty")
     else if negb (JSString.includes (str "-----BEGIN PGP MESSAGE-----") text)
     then Some (str "Missing BEGIN header")
     else if negb (JSString.includes (str "-----END PGP MESSAGE-----") text)
     then Some (str "Missing END footer")
     else None)
  ∧ (validateArmoredMessage text = None
     ↔ (∃ a b, text = a ++ str "-----BEGIN PGP MESSAGE-----" ++ b)
       ∧ (∃ a b, text = a ++ str "-----END PGP MESSAGE-----" ++ b))
  ∧ (validatePublicKeyBlock text = None
     ↔ (∃ a b, text = a ++ str "-----BEGIN PGP PUBLIC KEY BLOCK-----" ++ b)
       ∧ (∃ a b, text = a ++ str "-----END PGP PUBLIC KEY BLOCK-----" ++ b)).
Proof.
  split_and!.
  - apply validateArmoredMessage_eq.
  - rewrite validateArmoredMessage_eq, <- !StringFacts.includes_spec.
    destruct (bool_decide (JS.trim text = [])) eqn:Hblank.
    + apply bool_decide_eq_true in Hblank. split; [done|].
      intros [Hb _]. exfalso.
      rewrite <- (StringFacts.includes_trim
                    (str "-----BEGIN PGP MESSAGE-----") text
                    "-"%char (str "----BEGIN PGP MESSAGE----") "-"%char eq_refl)
        in Hb by reflexivity.
      rewrite Hblank in Hb. discriminate Hb.
    + destruct (JSString.includes (str "-----BEGIN PGP MESSAGE-----") text),
        (JSString.includes (str "-----END PGP MESSAGE-----") text);
        simpl; split; try done; by intros [? ?].
  - rewrite <- !StringFacts.includes_spec. unfold validatePublicKeyBlock.
    destruct text as [|c text]; [split; [done|by intros [? ?]]|].
    cbn [JS.truthy negb].
    destruct (JSString.includes _ (c :: text)),
      (JSString.includes _ (c :: text));
      simpl; split; try done; by intros [? ?].
Qed.

(** X12.  [truncateText] leaves a text alone that is no longer than
    [maxLength].  A longer text is cut down to exactly [maxLength] code
    units, of which the last three are dots, provided [maxLength] is at
    least 3; so from 3 on the result is never longer than [maxLength].
    Below 3 a longer text becomes the three dots, which exceeds the
    bound. *)
Theorem X12_truncateText_keeps_within_maxLength
  (text : jsstring) (maxLength : Z) :
  ((Z.of_nat (length text) ≤ maxLength)%Z → truncateText text maxLength = text)
  ∧ ((3 ≤ maxLength < Z.of_nat (length text))%Z →
     truncateText text maxLength
     = take (Z.to_nat (maxLength - 3)) text ++ str "..."
     ∧ Z.of_nat (length (truncateText text maxLength)) = maxLength)
  ∧ ((3 ≤ maxLength)%Z →
     (Z.of_nat (length (truncateText text maxLength)) ≤ maxLength)%Z)
  ∧ ((maxLength < 3)%Z → (maxLength < Z.of_nat (length text))%Z →
     truncateText text maxLength = str "...").
Proof.
  assert ((3 ≤ maxLength < Z.of_nat (length text))%Z →
          truncateText text maxLength
          = take (Z.to_nat (maxLength - 3)) text ++ str "..."
          ∧ Z.of_nat (length (truncateText text maxLength)) = maxLength)
    as Hcut.
  { intros Hm. unfold truncateText.
    destruct (Z.leb_spec (Z.of_nat (length text)) maxLength) as [Hle|_]; [lia|].
    rewrite substring_prefix.
    replace (Z.min (Z.max (maxLength - 3) 0) (Z.of_nat (length text)))
      with (maxLength - 3)%Z by lia.
    split; [done|]. rewrite length_app, length_take.
    change (length (str "...")) with 3. lia. }
  split_and!.
  - intros Hle. unfold truncateText.
    by destruct (Z.leb_spec (Z.of_nat (length text)) maxLength) as [_|Hgt]; [|lia].
  - exact Hcut.
  - intros H3.
    destruct (Z.le_gt_cases (Z.of_nat (length text)) maxLength) as [Hle|Hgt].
    + unfold truncateText.
      destruct (Z.leb_spec (Z.of_nat (length text)) maxLength); [done|lia].
    + destruct Hcut as [_ ->]; lia.
  - intros Hsmall Hlong. unfold truncateText.
    destruct (Z.leb_spec (Z.of_nat (length text)) maxLength) as [Hle|_]; [lia|].
    rewrite substring_prefix.
    replace (Z.min (Z.max (maxLength - 3) 0) (Z.of_nat (length text)))
      with 0%Z by lia.
    done.
Qed.

Lemma X12_witness :
  (3 ≤ 8 < Z.of_nat (length (str "-----BEGIN PGP MESSAGE-----")))%Z
  ∧ truncateText (str "-----BEGIN PGP MESSAGE-----") 8 = str "-----..."
  ∧ Z.of_nat (length (truncateText (str "-----BEGIN PGP MESSAGE-----") 8)) = 8%Z.
Proof.
  assert (3 ≤ 8 < Z.of_nat (length (str "-----BEGIN PGP MESSAGE-----")))%Z
    as Hm by (split; [lia|vm_compute; reflexivity]).
  split; [exact Hm|].
  exact (proj1 (proj2 (X12_truncateText_keeps_within_maxLength
                         (str "-----BEGIN PGP MESSAGE-----") 8)) Hm).
Defined.

(** X13.  For a fingerprint whose upper-case form is not empty and holds
    neither a space nor a line terminator, [formatFingerprint] is that
    upper-case form cut into groups separated by single spaces: taking
    the result apart at the spaces and putting the pieces together gives
    the upper-case fingerprint back, every group has four code units
    except the last, which has one to four.  A fingerprint whose
    upper-case form is empty is returned as it is. *)
Theorem X13_formatFingerprint_groups_of_four
  (toUpperCase : jsstring → jsstring) (fingerprint : jsstring) :
  (toUpperCase fingerprint = [] →
   formatFingerprint toUpperCase fingerprint = fingerprint)
  ∧ (toUpperCase fingerprint ≠ [] →
     Forall (λ c, JSString.isLineTerminator c = false ∧ c ≠ " "%char)
            (toUpperCase fingerprint) →
     let groups := JS.split " " (formatFingerprint toUpperCase fingerprint) in
     concat groups = toUpperCase fingerprint
     ∧ Forall (λ group, 1 ≤ length group ≤ 4) groups
     ∧ (∀ full group, groups = full ++ [group] →
                      Forall (λ group, length group = 4) full)).
Proof.
  split.
  - intros Hu. unfold formatFingerprint. by rewrite Hu.
  - intros Hne Hall. cbv zeta.
    destruct (matchUpToFour_groups (toUpperCase fingerprint) [])
      as (Hcat & Hlen & Hfull); [simpl; lia| |].
    { eapply Forall_impl; [exact Hall|]. by intros c [? _]. }
    simpl in Hcat.
    assert (formatFingerprint toUpperCase fingerprint
            = JSString.joinWith [" "%char]
                (matchUpToFour [] (toUpperCase fingerprint))) as ->.
    { unfold formatFingerprint.
      destruct (matchUpToFour [] (toUpperCase fingerprint)) as [|g gs] eqn:Hg;
        [by rewrite <- Hcat in Hne|].
      change (str " ") with [" "%char]. cbv zeta.
      inversion Hlen as [|? ? Hg1 _]; subst.
      destruct g as [|c g]; [simpl in Hg1; lia|]. by destruct gs. }
    rewrite split_joinWith; [done| |].
    + intros Hnil. rewrite Hnil in Hcat. by rewrite <- Hcat in Hne.
    + apply Forall_forall. intros g Hg Hspace.
      assert (" "%char ∈ toUpperCase fingerprint) as Hin.
      { rewrite <- Hcat. apply list_elem_of_In, in_concat. exists g.
        by rewrite <- !list_elem_of_In. }
      rewrite Forall_forall in Hall. by destruct (Hall _ Hin) as [_ ?].
Qed.

Lemma X13_witness :
  let fingerprint := str "A1B2C3D4E5" in
  (λ s : jsstring, s) fingerprint ≠ []
  ∧ Forall (λ c, JSString.isLineTerminator c = false ∧ c ≠ " "%char)
           ((λ s : jsstring, s) fingerprint)
  ∧ concat (JS.split " " (formatFingerprint (λ s, s) fingerprint))
    = fingerprint
  ∧ Forall (λ group, 1 ≤ length group ≤ 4)
           (JS.split " " (formatFingerprint (λ s, s) fingerprint))
  ∧ (∀ full group,
       JS.split " " (formatFingerprint (λ s, s) fingerprint) = full ++ [group] →
       Forall (λ group, length group = 4) full).
Proof.
  intros fingerprint.
  assert ((λ s : jsstring, s) fingerprint ≠ []) as Hne by discriminate.
  assert (Forall (λ c, JSString.isLineTerminator c = false ∧ c ≠ " "%char)
                 ((λ s : jsstring, s) fingerprint)) as Hall
    by (repeat constructor; discriminate).
  split; [exact Hne|]. split; [exact Hall|].
  exact (proj2 (X13_formatFingerprint_groups_of_four (λ s, s) fingerprint)
               Hne Hall).
Defined.

(** X14.  With an absolute working directory, [resolveInputPath] always
    gives an absolute path in normal form: [/] followed by segments,
    none of them empty, [.] or [..], joined by single separators;
    whatever the home directory is.  Resolving such a path again, and
    resolving it the way the walk does, changes nothing. *)
Theorem X14_resolveInputPath_is_absolute_and_stable
  (cwd home inputPath : jsstring) :
  Posix.isAbsolute cwd = true →
  (∃ segs, Forall normalSeg segs
           ∧ resolveInputPath cwd home inputPath
             = Posix.slash :: Posix.joinSegs segs)
  ∧ resolveInputPath cwd home (resolveInputPath cwd home inputPath)
    = resolveInputPath cwd home inputPath
  ∧ Posix.resolve1 cwd (resolveInputPath cwd home inputPath)
    = resolveInputPath cwd home inputPath.
Proof.
  intros Hcwd.
  destruct (ResolveFacts.resolveInputPath_rooted cwd home inputPath Hcwd)
    as (segs & Hsegs & Hr).
  split_and!; [by exists segs| |]; rewrite Hr.
  - by apply ResolveFacts.resolveInputPath_of_rooted.
  - by apply PosixFacts.resolve1_of_rooted.
Qed.

Lemma X14_witness :
  Posix.isAbsolute (str "/work") = true
  ∧ (∃ segs, Forall normalSeg segs
             ∧ resolveInputPath (str "/work") (str "/home/u") (str "~/../x")
               = Posix.slash :: Posix.joinSegs segs)
  ∧ resolveInputPath (str "/work") (str "/home/u")
      (resolveInputPath (str "/work") (str "/home/u") (str "~/../x"))
    = resolveInputPath (str "/work") (str "/home/u") (str "~/../x")
  ∧ Posix.resolve1 (str "/work")
      (resolveInputPath (str "/work") (str "/home/u") (str "~/../x"))
    = resolveInputPath (str "/work") (str "/home/u") (str "~/../x").
Proof.
  split; [reflexivity|].
  exact (X14_resolveInputPath_is_absolute_and_stable
           (str "/work") (str "/home/u") (str "~/../x") eq_refl).
Defined.


(** X15.  [KeyStore.listKeys] is all or nothing.  It returns the empty
    list when the directory cannot be listed, and also as soon as one
    file of the listing named [*.json] cannot be read or parsed, however
    many good key files there are.  When every such file can be read, it
    returns the keys of exactly those files, a key whose file holds no
    well-formed date among them; and when the dates of all of them are
    valid, the list is newest first. *)
Theorem X15_listKeys_is_all_or_nothing `{PathModule}
  (keyStorePath : jsstring) (parse : jsstring → Outcome KeyStore.StoredKey)
  (files : Files) :
  (∀ e, KeyStore.listKeys keyStorePath parse (Rejects e) files = [])
  ∧ (∀ names file,
       file ∈ jsonFiles names →
       recordIn parse keyStorePath files file = None →
       KeyStore.listKeys keyStorePath parse (Resolves names) files = [])
  ∧ (∀ names keys,
       Forall2 (λ file key, recordIn parse keyStorePath files file = Some key)
               (jsonFiles names) keys →
       KeyStore.listKeys keyStorePath parse (Resolves names) files ≡ₚ keys
       ∧ (Forall (λ key, validTime (KeyStore.created key)) keys →
          newestFirstOrder KeyStore.created
            (KeyStore.listKeys keyStorePath parse (Resolves names) files))).
Proof.
  split_and!.
  - intros e. by rewrite listKeys_eq.
  - intros names file Hin Hbad. rewrite listKeys_eq.
    rewrite (mapM_None_2 _ (jsonFiles names)); [done|].
    apply Exists_exists. eauto.
  - intros names keys Hall. rewrite listKeys_eq.
    rewrite (mapM_Some_2 _ _ _ Hall). unfold KeyStore.newestFirst.
    split; [apply sortWith_perm|apply sortWith_newestFirst].
Qed.

Lemma X15_witness :
  let posix := Posix.module (str "/") in
  let names := [str "a1b2c3d4.json"; str "broken.json"; str "notes.txt"] in
  let good := [str "a1b2c3d4.json"; str "notes.txt"] in
  let files : Files :=
    {[ str "/keys/a1b2c3d4.json" := aliceText;
       str "/keys/broken.json" := str "{" ]} in
  (str "broken.json" ∈ jsonFiles names
   ∧ recordIn parseAlice (str "/keys") files (str "broken.json") = None
   ∧ recordIn parseAlice (str "/keys") files (str "a1b2c3d4.json")
     = Some aliceKey
   ∧ KeyStore.listKeys (str "/keys") parseAlice (Resolves names) files = [])
  ∧ (Forall2 (λ file key,
                recordIn parseAlice (str "/keys") files file = Some key)
             (jsonFiles good) [aliceKey]
     ∧ Forall (λ key, validTime (KeyStore.created key)) [aliceKey]
     ∧ KeyStore.listKeys (str "/keys") parseAlice (Resolves good) files
       ≡ₚ [aliceKey]
     ∧ newestFirstOrder KeyStore.created
         (KeyStore.listKeys (str "/keys") parseAlice (Resolves good) files)).
Proof.
  intros posix names good files.
  assert (str "broken.json" ∈ jsonFiles names) as Hin
    by (vm_compute; repeat constructor).
  assert (recordIn parseAlice (str "/keys") files (str "broken.json") = None)
    as Hbad by (vm_compute; reflexivity).
  assert (Forall2 (λ file key,
                     recordIn parseAlice (str "/keys") files file = Some key)
                  (jsonFiles good) [aliceKey]) as Hall
    by (repeat constructor).
  assert (Forall (λ key, validTime (KeyStore.created key)) [aliceKey])
    as Hvalid by (repeat constructor; eexists; reflexivity).
  split.
  - split; [exact Hin|]. split; [exact Hbad|].
    split; [vm_compute; reflexivity|].
    exact (proj1 (proj2 (X15_listKeys_is_all_or_nothing
                           (str "/keys") parseAlice files))
                 names (str "broken.json") Hin Hbad).
  - split; [exact Hall|]. split; [exact Hvalid|].
    pose proof (proj2 (proj2 (X15_listKeys_is_all_or_nothing
                                (str "/keys") parseAlice files))
                      good [aliceKey] Hall) as [Hperm Hsorted].
    split; [exact Hperm|exact (Hsorted Hvalid)].
Defined.

(** X16.  [NoteStore.listNotes] passes over what it cannot read: it
    returns the notes of the files of the listing named [*.json] that
    can be read and parsed, a note whose file holds no well-formed dates
    among them, and leaves out the others; it returns the empty list
    when the directory cannot be listed.  When the dates of the last
    update of all the notes read are valid, the list has the most
    recently updated first. *)
Theorem X16_listNotes_skips_unreadable_files `{PathModule}
  (vaultPath : jsstring) (parse : jsstring → Outcome NoteStore.NoteRecord)
  (files : Files) (names : list jsstring) :
  let read := omap (recordIn parse vaultPath files) (jsonFiles names) in
  (∀ e, NoteStore.listNotes vaultPath parse (Rejects e) files = [])
  ∧ NoteStore.listNotes vaultPath parse (Resolves names) files ≡ₚ read
  ∧ (Forall (λ note, validTime (NoteStore.updated note)) read →
     newestFirstOrder NoteStore.updated
       (NoteStore.listNotes vaultPath parse (Resolves names) files)).
Proof.
  cbv zeta. split_and!.
  - intros e. by rewrite listNotes_eq.
  - rewrite listNotes_eq. apply sortWith_perm.
  - rewrite listNotes_eq. apply sortWith_newestFirst.
Qed.

Lemma X16_witness :
  let posix := Posix.module (str "/") in
  let names := [str "n1.json"; str "broken.json"; str "n2.json"] in
  let files : Files :=
    {[ str "/vault/n1.json" := str "{ first }";
       str "/vault/broken.json" := str "{";
       str "/vault/n2.json" := str "{ second }" ]} in
  Forall (λ note, validTime (NoteStore.updated note))
         (omap (recordIn parseNote (str "/vault") files) (jsonFiles names))
  ∧ NoteStore.listNotes (str "/vault") parseNote (Resolves names) files
    = [secondNote; firstNote]
  ∧ newestFirstOrder NoteStore.updated
      (NoteStore.listNotes (str "/vault") parseNote (Resolves names) files).
Proof.
  intros posix names files.
  assert (Forall (λ note, validTime (NoteStore.updated note))
                 (omap (recordIn parseNote (str "/vault") files)
                       (jsonFiles names))) as Hvalid.
  { vm_compute. repeat constructor; eexists; reflexivity. }
  split; [exact Hvalid|]. split; [vm_compute; reflexivity|].
  exact (proj2 (proj2 (X16_listNotes_skips_unreadable_files
                         (str "/vault") parseNote files names))
               Hvalid).
Defined.

(** X17.  A key that [saveKey] stored is what [getKey] returns for its
    fingerprint, provided the text written parses back to the key;
    [keyExists] then says yes.  Saving touches no other key file.
    [deleteKey] answers [true] and removes the file, after which the
    key is gone; for a fingerprint without a file it answers [false]
    and changes nothing. *)
Theorem X17_saved_key_can_be_read_back `{PathModule}
  (keyStorePath : jsstring) (stringify : KeyStore.StoredKey → jsstring)
  (parse : jsstring → Outcome KeyStore.StoredKey)
  (key : KeyStore.StoredKey) (files : Files) :
  parse (stringify key) = Resolves key →
  let fingerprint := KeyStore.fingerprint key in
  let saved := KeyStore.saveKey keyStorePath stringify key files in
  KeyStore.getKey keyStorePath parse fingerprint saved = Some key
  ∧ KeyStore.keyExists keyStorePath parse fingerprint saved = true
  ∧ (∀ other,
       KeyStore.getKeyPath keyStorePath other
       ≠ KeyStore.getKeyPath keyStorePath fingerprint →
       KeyStore.getKey keyStorePath parse other saved
       = KeyStore.getKey keyStorePath parse other files)
  ∧ KeyStore.deleteKey keyStorePath fingerprint saved
    = (true, delete (KeyStore.getKeyPath keyStorePath fingerprint) files)
  ∧ KeyStore.getKey keyStorePath parse fingerprint
      (KeyStore.deleteKey keyStorePath fingerprint saved).2 = None
  ∧ (∀ other,
       files !! KeyStore.getKeyPath keyStorePath other = None →
       KeyStore.deleteKey keyStorePath other files = (false, files)).
Proof.
  intros Hcodec. cbv zeta.
  assert (KeyStore.getKey keyStorePath parse (KeyStore.fingerprint key)
            (KeyStore.saveKey keyStorePath stringify key files) = Some key)
    as Hget.
  { rewrite getKey_eq. unfold recordIn, KeyStore.saveKey, Fs.readFile,
      Fs.writeFile, KeyStore.getKeyPath. cbv zeta.
    by rewrite lookup_insert_eq, Hcodec. }
  assert (KeyStore.deleteKey keyStorePath (KeyStore.fingerprint key)
            (KeyStore.saveKey keyStorePath stringify key files)
          = (true, delete (KeyStore.getKeyPath keyStorePath
                             (KeyStore.fingerprint key)) files)) as Hdel.
  { unfold KeyStore.deleteKey, KeyStore.saveKey, Fs.unlink, Fs.writeFile.
    cbv zeta. by rewrite lookup_insert_eq, delete_insert_eq. }
  split_and!.
  - exact Hget.
  - unfold KeyStore.keyExists. by rewrite Hget.
  - intros other Hother. rewrite !getKey_eq.
    unfold recordIn, KeyStore.saveKey, Fs.readFile, Fs.writeFile. cbv zeta.
    by rewrite lookup_insert_ne.
  - exact Hdel.
  - rewrite Hdel, getKey_eq. unfold recordIn, Fs.readFile. simpl.
    unfold KeyStore.getKeyPath. by rewrite lookup_delete_eq.
  - intros other Hnone. unfold KeyStore.deleteKey, Fs.unlink.
    by rewrite Hnone.
Qed.

Lemma X17_witness :
  let posix := Posix.module (str "/") in
  let stringify := λ _ : KeyStore.StoredKey, aliceText in
  let saved := KeyStore.saveKey (str "/keys") stringify aliceKey ∅ in
  parseAlice (stringify aliceKey) = Resolves aliceKey
  ∧ KeyStore.getKey (str "/keys") parseAlice (str "a1b2c3d4") saved
    = Some aliceKey
  ∧ KeyStore.keyExists (str "/keys") parseAlice (str "a1b2c3d4") saved = true.
Proof.
  intros posix stringify saved.
  assert (parseAlice (stringify aliceKey) = Resolves aliceKey) as Hcodec
    by reflexivity.
  split; [exact Hcodec|].
  pose proof (X17_saved_key_can_be_read_back
                (str "/keys") stringify parseAlice aliceKey ∅ Hcodec)
    as (Hget & Hexists & _).
  split; [exact Hget|exact Hexists].
Defined.

(** X18.  When the user asks [encryptFolder] to sign and then gives an
    empty passphrase, no file is signed and nothing reports it: the run
    is the very run of a batch for which signing was not asked, file by
    file, with the same outputs, counters and failures. *)
Theorem X18_empty_passphrase_leaves_files_unsigned `{PathModule}
  (openpgp : Disk → PGP.OpenPGP) (io : World)
  (basename : jsstring → jsstring) (publicKeys : list jsstring)
  (outputFormat : PgpOutputFormat) (privateKey passphrase : option jsstring)
  (inputDir outputDir : jsstring) (outputPolicy : OutputPolicy)
  (extensionInput : jsstring) (tree : list Dirent) (onDisk : gset jsstring) :
  passphrase = None ∨ passphrase = Some [] →
  encryptFolder
    (encryptCalls openpgp io basename publicKeys outputFormat
                  true privateKey passphrase)
    inputDir outputDir outputFormat outputPolicy extensionInput tree onDisk
  = encryptFolder
      (encryptCalls openpgp io basename publicKeys outputFormat
                    false None None)
      inputDir outputDir outputFormat outputPolicy extensionInput tree onDisk.
Proof.
  intros Hp. apply encryptFolder_ext; try done.
  intros d filePath. simpl. by apply encryptFile_unsigned.
Qed.

Lemma X18_witness :
  let posix := Posix.module (str "/") in
  let openpgp := λ _ : Disk, pickyOpenPGP (str "BAD") in
  let run := λ shouldSign privateKey passphrase,
    encryptFolder
      (encryptCalls openpgp calmWorld (λ p, p) [str "GOOD"] armored
                    shouldSign privateKey passphrase)
      (str "/in") (str "/out") armored skip (str "") fourFiles ∅ in
  (Some (str "") = None ∨ Some (str "") = Some [])
  ∧ run true (Some (str "PRIVATE")) (Some (str "")) = run false None None.
Proof.
  intros posix openpgp run.
  assert (Some (str "") = None ∨ Some (str "") = Some []) as Hp
    by (right; reflexivity).
  split; [exact Hp|].
  exact (X18_empty_passphrase_leaves_files_unsigned
           openpgp calmWorld (λ p, p) [str "GOOD"] armored
           (Some (str "PRIVATE")) (Some (str ""))
           (str "/in") (str "/out") skip (str "") fourFiles ∅ Hp).
Defined.




(** X20.  Of the signatures of a decrypted message only the first one is
    looked at.  A file that decrypts and is written is counted as
    decrypted; it is listed as a signature failure exactly when
    verification is on and the first signature does not verify.  A
    message without a signature is not listed, and neither is one whose
    first signature verifies, whatever the others do. *)
Theorem X20_only_the_first_signature_counts `{PathModule}
  (openpgp : Disk → PGP.OpenPGP) (io : World)
  (keys : list jsstring) (privateKey passphraseInput : jsstring)
  (inputDir outputDir : jsstring) (formatHandling : FormatHandling)
  (outputPolicy : OutputPolicy) (verifySignatures : bool)
  (filePath : jsstring) (rest : list jsstring) (s s1 : Dec.Run)
  (decrypted : PGP.Decrypted) :
  let W := decryptCalls openpgp io keys privateKey passphraseInput in
  let decOne := decryptOne W inputDir outputDir formatHandling outputPolicy
                           verifySignatures in
  let outputPath := decryptOutputPath inputDir outputDir filePath in
  let format := resolveInputFormat filePath formatHandling in
  let library := openpgp (Dec.onDisk s) in
  mkdir io (Dec.onDisk s) (dirname outputPath) = None →
  outputPath ∉ Dec.onDisk s ∨ outputPolicy = overwrite →
  PGP.readMessage library filePath format = None →
  PGP.readPrivateKey library privateKey = None →
  (∀ phrase, PGP.decryptKey library privateKey phrase = None) →
  Forall (λ key, PGP.readKey library key = None) keys →
  (∀ call, PGP.encryptedMessage call = (filePath, format) →
           PGP.decrypt library call = Resolves decrypted) →
  writeOutputToFile W (PGP.plain decrypted) outputPath binary s
  = (Normal (), s1) →
  let firstFails :=
    match PGP.signatures decrypted with
    | Some (Some _ :: _) => true
    | _ => false
    end in
  ∃ s', forOf decOne (filePath :: rest) s = forOf decOne rest s'
        ∧ Dec.decryptedCount s' = Dec.decryptedCount s + 1
        ∧ Dec.skippedCount s' = Dec.skippedCount s
        ∧ Dec.failures s' = Dec.failures s
        ∧ Dec.signatureFailures s'
          = Dec.signatureFailures s
            ++ (if verifySignatures && firstFails then [filePath] else []).
Proof.
  cbv zeta. intros Hm Hreach Hmsg Hpriv Hunlock Hkeys Hdec Hw.
  set (W := decryptCalls openpgp io keys privateKey passphraseInput) in *.
  set (result := {| data := PGP.plain decrypted;
                    verified := PGP.verifiedOf (PGP.signatures decrypted) |}).
  assert (decryptFile W (Dec.onDisk s) filePath
                      (resolveInputFormat filePath formatHandling)
                      verifySignatures = Resolves result) as Hfile.
  { unfold W, decryptCalls. simpl.
    rewrite (decryptFile_resolves _ _ decrypted); try done.
    simpl. intros ks Hks. destruct verifySignatures; [|done].
    by injection Hks as <-. }
  rewrite forOf_step by apply decryptOne_neverThrows.
  pose proof (dec_write_frame W _ _ _ _ _ _ Hw) as [(Hc & Hs & Hf & Hg & _) _].
  assert (verified result = Some false
          ↔ match PGP.signatures decrypted with
            | Some (Some _ :: _) => true
            | _ => false
            end = true) as Hflag.
  { unfold result. simpl.
    destruct (PGP.signatures decrypted) as [[|[e|] sigs]|]; simpl; split;
      done. }
  destruct (verifySignatures
            && match PGP.signatures decrypted with
               | Some (Some _ :: _) => true
               | _ => false
               end) eqn:Hcase.
  - apply andb_true_iff in Hcase as [Hv Hfirst]. apply Hflag in Hfirst.
    eexists. split; [reflexivity|].
    subst verifySignatures.
    rewrite (decryptOne_signature_failure W _ _ _ _ true filePath s result s1)
      by done.
    simpl. by rewrite Hc, Hs, Hf, Hg.
  - eexists. split; [reflexivity|].
    rewrite (decryptOne_success W _ _ _ _ _ filePath s result s1); try done.
    + simpl. by rewrite Hc, Hs, Hf, Hg, app_nil_r.
    + apply andb_false_iff in Hcase as [Hv|Hfirst]; [by left|right].
      intros Hbad. apply Hflag in Hbad. congruence.
Qed.

Lemma X20_witness :
  let posix := Posix.module (str "/") in
  let openpgp := λ _ : Disk, pickyOpenPGP (str "BAD") in
  let W := decryptCalls openpgp calmWorld [str "GOOD"]
                        (str "PRIVATE") (str "secret") in
  let decOne := decryptOne W (str "/in") (str "/out") auto abort true in
  let s := Dec.start ∅ in
  let s1 := wrote (str "/out/a.txt") s in
  let decrypted := {| PGP.plain := DataBytes [];
                      PGP.signatures := Some [];
                      PGP.embeddedName := None |} in
  mkdir calmWorld (Dec.onDisk s) (dirname (str "/out/a.txt")) = None
  ∧ (str "/out/a.txt" ∉ Dec.onDisk s ∨ abort = overwrite)
  ∧ Forall (λ key, PGP.readKey (openpgp (Dec.onDisk s)) key = None) [str "GOOD"]
  ∧ writeOutputToFile W (PGP.plain decrypted) (str "/out/a.txt") binary s
    = (Normal (), s1)
  ∧ ∃ s', forOf decOne [str "/in/a.txt.pgp"; str "/in/b.txt.pgp"] s
          = forOf decOne [str "/in/b.txt.pgp"] s'
          ∧ Dec.decryptedCount s' = Dec.decryptedCount s + 1
          ∧ Dec.skippedCount s' = Dec.skippedCount s
          ∧ Dec.failures s' = Dec.failures s
          ∧ Dec.signatureFailures s' = Dec.signatureFailures s ++ [].
Proof.
  intros posix openpgp W decOne s s1 decrypted.
  assert (mkdir calmWorld (Dec.onDisk s) (dirname (str "/out/a.txt")) = None)
    as Hm by reflexivity.
  assert (str "/out/a.txt" ∉ Dec.onDisk s ∨ abort = overwrite) as Hreach
    by (left; apply not_elem_of_empty).
  assert (Forall (λ key, PGP.readKey (openpgp (Dec.onDisk s)) key = None)
                 [str "GOOD"]) as Hkeys by (repeat constructor).
  assert (writeOutputToFile W (PGP.plain decrypted) (str "/out/a.txt") binary s
          = (Normal (), s1)) as Hw.
  { unfold writeOutputToFile, settleWrite, created, modify, mbind, M_bind,
      bind, awaitOn, await. unfold s1, s. simpl. by rewrite union_empty_r_L. }
  split_and!; [exact Hm|exact Hreach|exact Hkeys|exact Hw|].
  exact (X20_only_the_first_signature_counts
           openpgp calmWorld [str "GOOD"] (str "PRIVATE") (str "secret")
           (str "/in") (str "/out") auto abort true
           (str "/in/a.txt.pgp") [str "/in/b.txt.pgp"] s s1 decrypted
           Hm Hreach eq_refl eq_refl (λ _, eq_refl) Hkeys
           (λ _ _, eq_refl) Hw).
Defined.

(** X21.  The default filters of [decryptFolder] and the format
    detection agree.  A file that passes the default filter of the
    chosen format handling has the extension [.pgp], [.gpg] or [.asc]
    (in any letter case), and it is read as armored exactly when that
    extension is [.asc], as binary exactly when it is [.pgp] or [.gpg]:
    under the defaults no file is read in a format its extension does not
    name. *)
Theorem X21_default_filter_agrees_with_format_detection `{PathModule}
  (formatHandling : FormatHandling) (filePath : jsstring) :
  let extension := JS.toLowerCase (extname filePath) in
  JS.includes (defaultFilter formatHandling) extension = true →
  extension ∈ knownSuffixes
  ∧ (resolveInputFormat filePath formatHandling = armored
     ↔ extension = str ".asc")
  ∧ (resolveInputFormat filePath formatHandling = binary
     ↔ extension = str ".pgp" ∨ extension = str ".gpg").
Proof.
  cbv zeta. unfold JS.includes, knownSuffixes. rewrite bool_decide_eq_true.
  intros Hin. unfold resolveInputFormat.
  destruct formatHandling; simpl in Hin;
    repeat (apply elem_of_cons in Hin as [Hin|Hin]);
    try (by apply elem_of_nil in Hin);
    rewrite Hin; simpl; split_and!;
    try (split; intros Heq;
         first [done | discriminate Heq | by destruct Heq | by left | by right]);
    set_solver.
Qed.

Lemma X21_witness :
  let posix := Posix.module (str "/") in
  let extension := JS.toLowerCase (extname (str "/in/Letter.ASC")) in
  JS.includes (defaultFilter auto) extension = true
  ∧ extension ∈ knownSuffixes
  ∧ (resolveInputFormat (str "/in/Letter.ASC") auto = armored
     ↔ extension = str ".asc")
  ∧ (resolveInputFormat (str "/in/Letter.ASC") auto = binary
     ↔ extension = str ".pgp" ∨ extension = str ".gpg").
Proof.
  intros posix extension.
  assert (JS.includes (defaultFilter auto) extension = true) as Hin
    by reflexivity.
  split; [exact Hin|].
  exact (X21_default_filter_agrees_with_format_detection
           auto (str "/in/Letter.ASC") Hin).
Defined.



Ltac normal_segment :=
  split_and!;
  [discriminate | discriminate | discriminate
  | apply (bool_decide_unpack _); vm_compute; exact I].

Ltac normal_segments :=
  repeat first [apply Forall_nil_2 | apply Forall_cons_2; [normal_segment|]].

(** X23.  Under POSIX paths the output tree mirrors the input tree.  For
    an input folder, an output folder and a file below the input folder,
    all given by segments in normal form: the output path of
    [encryptFolder] is the output folder, followed by the segments that
    lead from the input folder to the file, the file's name with the
    suffix of the format appended.  [decryptFolder], run on the encrypted
    tree, gives every file its name and place back. *)
Theorem X23_output_paths_mirror_the_input_tree
  (cwd : jsstring) (inSegs outSegs backSegs relSegs : list jsstring)
  (name : jsstring) (outputFormat : PgpOutputFormat) :
  let posix := Posix.module cwd in
  let rooted := λ segs, Posix.slash :: Posix.joinSegs segs in
  Forall normalSeg inSegs → Forall normalSeg outSegs →
  Forall normalSeg backSegs → Forall normalSeg relSegs → normalSeg name →
  encryptOutputPath (rooted inSegs) (rooted outSegs) outputFormat
                    (rooted (inSegs ++ relSegs ++ [name]))
  = rooted (outSegs ++ relSegs ++ [name ++ outputExtension outputFormat])
  ∧ decryptOutputPath (rooted outSegs) (rooted backSegs)
      (rooted (outSegs ++ relSegs ++ [name ++ outputExtension outputFormat]))
    = rooted (backSegs ++ relSegs ++ [name]).
Proof.
  intros posix rooted Hin Hout Hback Hrel Hname. split.
  - by apply MirrorFacts.encryptOutputPath_rooted.
  - by apply MirrorFacts.decryptOutputPath_rooted.
Qed.

Lemma X23_witness :
  let posix := Posix.module (str "/") in
  Forall normalSeg [str "home"; str "u"; str "docs"]
  ∧ Forall normalSeg [str "backup"]
  ∧ Forall normalSeg [str "restored"]
  ∧ Forall normalSeg [str "2024"]
  ∧ normalSeg (str "tax.pdf")
  ∧ encryptOutputPath (str "/home/u/docs") (str "/backup") armored
                      (str "/home/u/docs/2024/tax.pdf")
    = str "/backup/2024/tax.pdf.asc"
  ∧ decryptOutputPath (str "/backup") (str "/restored")
                      (str "/backup/2024/tax.pdf.asc")
    = str "/restored/2024/tax.pdf".
Proof.
  intros posix.
  assert (Forall normalSeg [str "home"; str "u"; str "docs"]) as Hin
    by normal_segments.
  assert (Forall normalSeg [str "backup"]) as Hout
    by normal_segments.
  assert (Forall normalSeg [str "restored"]) as Hback
    by normal_segments.
  assert (Forall normalSeg [str "2024"]) as Hrel
    by normal_segments.
  assert (normalSeg (str "tax.pdf")) as Hname by normal_segment.
  split_and!; [exact Hin|exact Hout|exact Hback|exact Hrel|exact Hname|..].
  - exact (proj1 (X23_output_paths_mirror_the_input_tree
                    (str "/") [str "home"; str "u"; str "docs"] [str "backup"]
                    [str "restored"] [str "2024"] (str "tax.pdf") armored
                    Hin Hout Hback Hrel Hname)).
  - exact (proj2 (X23_output_paths_mirror_the_input_tree
                    (str "/") [str "home"; str "u"; str "docs"] [str "backup"]
                    [str "restored"] [str "2024"] (str "tax.pdf") armored
                    Hin Hout Hback Hrel Hname)).
Defined.

(** X24.  Every file the walk yields under POSIX paths is mirrored.  For
    an input folder in normal form and a tree whose entries have proper
    names, each path the walk yields is the input folder followed by the
    names of the directories on the way and the file's name, and
    [encryptFolder] puts its output at the same place below the output
    folder, under the file's name with the suffix of the format. *)
Theorem X24_every_walked_file_is_mirrored
  (cwd : jsstring) (inSegs outSegs : list jsstring)
  (excludeDir : option jsstring) (tree : list Dirent)
  (outputFormat : PgpOutputFormat) (filePath : jsstring) :
  let posix := Posix.module cwd in
  let rooted := λ segs, Posix.slash :: Posix.joinSegs segs in
  Forall normalSeg inSegs → Forall normalSeg outSegs →
  Forall properlyNamed tree →
  filePath ∈ listFilesRecursive (rooted inSegs) excludeDir tree →
  ∃ relSegs name,
    Forall normalSeg relSegs ∧ normalSeg name
    ∧ filePath = rooted (inSegs ++ relSegs ++ [name])
    ∧ encryptOutputPath (rooted inSegs) (rooted outSegs) outputFormat filePath
      = rooted (outSegs ++ relSegs ++ [name ++ outputExtension outputFormat]).
Proof.
  intros posix rooted Hin Hout Htree Hfile.
  apply listFilesRecursive_fileUnder in Hfile.
  destruct (MirrorFacts.fileUnder_rooted cwd _ _ _ Hfile inSegs eq_refl Hin Htree)
    as (relSegs & name & Hrel & Hname & ->).
  exists relSegs, name. split_and!; [done..|].
  by apply MirrorFacts.encryptOutputPath_rooted.
Qed.

Lemma X24_witness :
  let posix := Posix.module (str "/") in
  Forall normalSeg [str "in"]
  ∧ Forall normalSeg [str "mirror"]
  ∧ Forall properlyNamed treeWithOutput
  ∧ str "/in/out/a.txt.asc" ∈ listFilesRecursive (str "/in") None treeWithOutput
  ∧ ∃ relSegs name,
      Forall normalSeg relSegs ∧ normalSeg name
      ∧ str "/in/out/a.txt.asc"
        = Posix.slash :: Posix.joinSegs ([str "in"] ++ relSegs ++ [name])
      ∧ encryptOutputPath (str "/in") (str "/mirror") binary
                          (str "/in/out/a.txt.asc")
        = Posix.slash
            :: Posix.joinSegs ([str "mirror"] ++ relSegs
                               ++ [name ++ outputExtension binary]).
Proof.
  intros posix.
  assert (Forall normalSeg [str "in"]) as Hin
    by normal_segments.
  assert (Forall normalSeg [str "mirror"]) as Hout
    by normal_segments.
  assert (Forall properlyNamed treeWithOutput) as Htree.
  { apply Forall_cons_2; [apply named_file; normal_segment|].
    apply Forall_cons_2; [|apply Forall_nil_2].
    apply named_directory; [normal_segment|].
    apply Forall_cons_2; [apply named_file; normal_segment|apply Forall_nil_2]. }
  assert (str "/in/out/a.txt.asc"
            ∈ listFilesRecursive (str "/in") None treeWithOutput) as Hfile
    by (vm_compute; repeat constructor).
  split_and!; [exact Hin|exact Hout|exact Htree|exact Hfile|].
  exact (X24_every_walked_file_is_mirrored
           (str "/") [str "in"] [str "mirror"] None treeWithOutput binary
           (str "/in/out/a.txt.asc") Hin Hout Htree Hfile).
Defined.

(** X25.  What [encryptFolder] writes, [decryptFolder] takes back under
    its defaults.  Under POSIX paths, the output path of a file has the
    suffix of the chosen format as its extension; so it passes the
    default filter of automatic format handling and that of the matching
    forced handling, and automatic detection reads it in the very format
    it was written in. *)
Theorem X25_decrypt_defaults_accept_what_encrypt_wrote
  (cwd : jsstring) (inSegs outSegs relSegs : list jsstring)
  (name : jsstring) (outputFormat : PgpOutputFormat) :
  let posix := Posix.module cwd in
  let rooted := λ segs, Posix.slash :: Posix.joinSegs segs in
  Forall normalSeg inSegs → Forall normalSeg outSegs →
  Forall normalSeg relSegs → normalSeg name →
  let encryptedPath :=
    encryptOutputPath (rooted inSegs) (rooted outSegs) outputFormat
                      (rooted (inSegs ++ relSegs ++ [name])) in
  let forced := match outputFormat with
                | armored => forceArmored
                | binary => forceBinary
                end in
  extname encryptedPath = outputExtension outputFormat
  ∧ JS.includes (defaultFilter auto)
                (JS.toLowerCase (extname encryptedPath)) = true
  ∧ JS.includes (defaultFilter forced)
                (JS.toLowerCase (extname encryptedPath)) = true
  ∧ resolveInputFormat encryptedPath auto = outputFormat
  ∧ resolveInputFormat encryptedPath forced = outputFormat.
Proof.
  intros posix rooted Hin Hout Hrel Hname. subst posix rooted. cbv beta zeta.
  rewrite MirrorFacts.encryptOutputPath_rooted by done.
  assert (@extname (Posix.module cwd)
                   (Posix.slash
                     :: Posix.joinSegs
                          (outSegs ++ relSegs
                           ++ [name ++ outputExtension outputFormat]))
          = outputExtension outputFormat) as Hext.
  { rewrite app_assoc.
    destruct (MirrorFacts.rooted_last (outSegs ++ relSegs)
                (name ++ outputExtension outputFormat)) as [before ->].
    destruct Hname as (Hne & _ & _ & Hslash).
    by apply MirrorFacts.extname1_suffix. }
  unfold resolveInputFormat. rewrite Hext.
  by destruct outputFormat.
Qed.

Lemma X25_witness :
  let posix := Posix.module (str "/") in
  let encryptedPath :=
    encryptOutputPath (str "/in") (str "/out") binary (str "/in/sub/a.txt") in
  Forall normalSeg [str "in"]
  ∧ Forall normalSeg [str "out"]
  ∧ Forall normalSeg [str "sub"]
  ∧ normalSeg (str "a.txt")
  ∧ extname encryptedPath = str ".pgp"
  ∧ JS.includes (defaultFilter auto)
                (JS.toLowerCase (extname encryptedPath)) = true
  ∧ JS.includes (defaultFilter forceBinary)
                (JS.toLowerCase (extname encryptedPath)) = true
  ∧ resolveInputFormat encryptedPath auto = binary
  ∧ resolveInputFormat encryptedPath forceBinary = binary.
Proof.
  intros posix encryptedPath.
  assert (Forall normalSeg [str "in"]) as Hin by normal_segments.
  assert (Forall normalSeg [str "out"]) as Hout by normal_segments.
  assert (Forall normalSeg [str "sub"]) as Hrel by normal_segments.
  assert (normalSeg (str "a.txt")) as Hname by normal_segment.
  split_and!; [exact Hin|exact Hout|exact Hrel|exact Hname|..];
    apply (X25_decrypt_defaults_accept_what_encrypt_wrote
             (str "/") [str "in"] [str "out"] [str "sub"] (str "a.txt") binary
             Hin Hout Hrel Hname).
Defined.
